(** * tremc: a shallow embedding of the navigation and synchronisation core

    The development follows [tremc.py].  Python integers are [Z], Python
    floats are exact rationals [Q] (comparisons and the zero test of a
    divisor are what the embedded code branches on), strings are
    [string], lists are [list], dictionaries are [gmap].  Code that can
    raise or leave the process returns in the [res] monad below. *)

From Stdlib Require Import ZArith QArith Lqa List String Ascii Bool Lia.
From Stdlib Require Import Sorting.Sorted Sorting.Permutation.
From stdpp Require Import base option list gmap strings.

Open Scope Z_scope.

(** ** Exceptions and process exit *)

Module Py.

(** The exceptions the embedded functions raise or catch.  [SystemExit]
    is what [sys.exit] raises; it carries the exit code. *)
Inductive exn : Type :=
| ZeroDivisionError
| IndexError
| KeyError
| AttributeError
| RecursionError
| SystemExit (code : Z).

Inductive res (A : Type) : Type :=
| Ret (a : A)
| Raise (e : exn).
Arguments Ret {A} a.
Arguments Raise {A} e.

Definition bind {A B} (m : res A) (k : A -> res B) : res B :=
  match m with
  | Ret a => k a
  | Raise e => Raise e
  end.

(** [try: m except ZeroDivisionError: h] *)
Definition except_ZeroDivisionError {A} (m : res A) (h : res A) : res A :=
  match m with
  | Raise ZeroDivisionError => h
  | other => other
  end.

(** [x / y] on floats: raises exactly when the divisor is zero. *)
Definition truediv (x y : Q) : res Q :=
  if Qeq_bool y 0 then Raise ZeroDivisionError else Ret (x / y)%Q.

(** [x / y] on integers is float division too. *)
Definition truedivZ (x y : Z) : res Q := truediv (inject_Z x) (inject_Z y).

(** [x % y] on integers: the sign of the result follows the divisor,
    as [Z.modulo] does. *)
Definition mod_ (x y : Z) : res Z :=
  if y =? 0 then Raise ZeroDivisionError else Ret (x mod y).

(** [a > b] and [a < b] on floats. *)
Definition gtb (a b : Q) : bool := negb (Qle_bool a b).
Definition ltb (a b : Q) : bool := negb (Qle_bool b a).

End Py.

Import Py.

Notation "'let!' x ':=' m 'in' k" := (Py.bind m (fun x => k))
  (at level 10, x pattern, m at level 100, k at level 200, only parsing).

(** ** Global settings: [GConfig.errors] *)

Module errors.
Definition CONNECTION_ERROR : Z := 1.
Definition JSON_ERROR : Z := 2.
Definition CONFIGFILE_ERROR : Z := 3.
End errors.

(** ** [percent] and the derived field [percentDone] *)

(** [def percent(full, part)]: [100 / (float(full) / float(part))], and
    [0.0] when either division raises [ZeroDivisionError]. *)
Definition percent (full part : Q) : res Q :=
  except_ZeroDivisionError
    (let! q := truediv full part in truediv 100 q)
    (Ret 0%Q).

(** The fields of a torrent that [parse_response] reads to derive
    [percentDone], as the server sends them (byte counts). *)
Record torrent_sizes : Type := {
  sizeWhenDone : Z;
  haveValid : Z;
  haveUnchecked : Z
}.

(** [t['percentDone'] = percent(float(t['sizeWhenDone']),
                                float(t['haveValid'] + t['haveUnchecked']))] *)
Definition percentDone (t : torrent_sizes) : res Q :=
  percent (inject_Z (sizeWhenDone t))
          (inject_Z (haveValid t + haveUnchecked t)).

(** The loop of [parse_response] over [response['arguments']['torrents']],
    restricted to the [percentDone] assignment: the response is cached only
    if no torrent raises. *)
Fixpoint parse_percentDone (ts : list torrent_sizes) : res (list (torrent_sizes * Q)) :=
  match ts with
  | [] => Ret []
  | t :: rest =>
      let! p := percentDone t in
      let! ps := parse_percentDone rest in
      Ret ((t, p) :: ps)
  end.

(** ** Scroll and focus primitives of [Interface] *)

(** [while scrollpos % step_size: scrollpos -= 1], unrolled [fuel] times.
    The remainder is non-zero at most [|step_size| - 1] times in a row. *)
Fixpoint align_loop (fuel : nat) (scrollpos step_size : Z) : Z :=
  match fuel with
  | O => scrollpos
  | S fuel' =>
      if scrollpos mod step_size =? 0 then scrollpos
      else align_loop fuel' (scrollpos - 1) step_size
  end.

(** [def move_up(self, focus, scrollpos, step_size)] *)
Definition move_up (focus scrollpos step_size : Z) : res (Z * Z) :=
  if focus <? 0 then Ret (-1, scrollpos)
  else
    let focus := focus - 1 in
    let! q := truedivZ scrollpos step_size in
    let scrollpos :=
      if gtb (q - inject_Z focus) 0 then Z.max 0 (scrollpos - step_size)
      else scrollpos in
    let! _ := mod_ scrollpos step_size in
    Ret (focus, align_loop (Z.abs_nat step_size) scrollpos step_size).

(** [def move_down(self, focus, scrollpos, step_size, elements_per_page, list_height)] *)
Definition move_down (focus scrollpos step_size elements_per_page list_height : Z)
  : res (Z * Z) :=
  if focus <? list_height - 1 then
    let focus := focus + 1 in
    let! q := truedivZ scrollpos step_size in
    if gtb (inject_Z (focus + 1) - q) (inject_Z elements_per_page)
    then Ret (focus, scrollpos + step_size)
    else Ret (focus, scrollpos)
  else Ret (focus, scrollpos).

(** [def move_page_up(self, focus, scrollpos, step_size, elements_per_page)] *)
Definition move_page_up (focus scrollpos step_size elements_per_page : Z) : Z * Z :=
  (Z.max 0 (focus - elements_per_page + 1),
   Z.max 0 (scrollpos - (elements_per_page - 1) * step_size)).

(** [def move_page_down(self, focus, scrollpos, step_size, elements_per_page, list_height)] *)
Definition move_page_down (focus scrollpos step_size elements_per_page list_height : Z)
  : Z * Z :=
  let focus := focus + (elements_per_page - 1) in
  let scrollpos := scrollpos + (elements_per_page - 1) * step_size in
  if focus >=? list_height
  then (list_height - 1, scrollpos - (focus - list_height + 1) * step_size)
  else (focus, scrollpos).

(** [def move_to_top(self)] *)
Definition move_to_top : Z * Z := (0, 0).

(** [def move_to_end(self, step_size, elements_per_page, list_height)] *)
Definition move_to_end (step_size elements_per_page list_height : Z) : Z * Z :=
  (list_height - 1, Z.max 0 ((list_height - elements_per_page) * step_size)).

(** The view invariant of the specification on a (focus, scroll) pair. *)
Definition scroll_inv (step_size elements_per_page list_height : Z) (fs : Z * Z) : Prop :=
  let '(focus, scrollpos) := fs in
  0 <= focus <= list_height - 1 /\
  scrollpos mod step_size = 0 /\
  scrollpos <= focus * step_size <= scrollpos + elements_per_page * step_size - 1.

(** The starting states the specification calls valid. *)
Definition valid_start (step_size list_height : Z) (fs : Z * Z) : Prop :=
  let '(focus, scrollpos) := fs in
  1 <= list_height /\ 0 <= focus <= list_height - 1 /\ scrollpos mod step_size = 0.

(** ** File priorities of [Transmission] *)

(** [l[i]] for a non-negative index. *)
Definition getitem {A} (l : list A) (i : nat) : res A :=
  match l !! i with
  | Some x => Ret x
  | None => Raise IndexError
  end.

(** The part of [torrent_details_cache] the priority operations read:
    the torrent id and the per-file arrays [wanted] and [priorities]
    (-1 low, 0 normal, 1 high), indexed by server file number. *)
Record details_cache : Type := {
  id : Z;
  wanted : list bool;
  priorities : list Z
}.

(** The argument document of a [torrent-set] request: a dictionary from
    argument names to lists of numbers. *)
Definition request_data : Type := gmap string (list Z).

(** [def set_file_priority(self, torrent_id, file_nums, priority)]: the
    request document that is sent, the priority being one of ['low'],
    ['normal'], ['high'] and ['off']. *)
Definition set_file_priority (torrent_id : Z) (file_nums : list nat) (priority : string)
  : request_data :=
  let request_data : request_data := {[ "ids"%string := [torrent_id] ]} in
  if String.eqb priority "off" then
    <[ "files-unwanted"%string := Z.of_nat <$> file_nums ]> request_data
  else
    <[ ("priority-" ++ priority)%string := Z.of_nat <$> file_nums ]>
      (<[ "files-wanted"%string := Z.of_nat <$> file_nums ]> request_data).

(** The [for num in file_nums] loop of [increase_file_priority]: the first
    unwanted file ends the search, otherwise a strictly lower priority
    replaces the reference. *)
Fixpoint increase_ref (c : details_cache) (file_nums : list nat) (ref_num : nat)
  : res nat :=
  match file_nums with
  | [] => Ret ref_num
  | num :: rest =>
      let! w := getitem (wanted c) num in
      if negb w then Ret num
      else
        let! p := getitem (priorities c) num in
        let! pref := getitem (priorities c) ref_num in
        if p <? pref then increase_ref c rest num
        else increase_ref c rest ref_num
  end.

(** [def increase_file_priority(self, file_nums)]: the request sent, if any. *)
Definition increase_file_priority (c : details_cache) (file_nums : list nat)
  : res (option request_data) :=
  let! ref0 := getitem file_nums 0 in
  let! ref_num := increase_ref c file_nums ref0 in
  let! current_priority := getitem (priorities c) ref_num in
  let! w := getitem (wanted c) ref_num in
  if negb w then Ret (Some (set_file_priority (id c) file_nums "low"))
  else if current_priority =? -1 then
    Ret (Some (set_file_priority (id c) file_nums "normal"))
  else if current_priority =? 0 then
    Ret (Some (set_file_priority (id c) file_nums "high"))
  else Ret None.

(** The [for num in file_nums] loop of [decrease_file_priority]. *)
Fixpoint decrease_ref (c : details_cache) (file_nums : list nat) (ref_num : nat)
  : res nat :=
  match file_nums with
  | [] => Ret ref_num
  | num :: rest =>
      let! p := getitem (priorities c) num in
      let! pref := getitem (priorities c) ref_num in
      if p >? pref then decrease_ref c rest num
      else decrease_ref c rest ref_num
  end.

(** [def decrease_file_priority(self, file_nums)]: the request sent, if any. *)
Definition decrease_file_priority (c : details_cache) (file_nums : list nat)
  : res (option request_data) :=
  let! ref0 := getitem file_nums 0 in
  let! ref_num := decrease_ref c file_nums ref0 in
  let! current_priority := getitem (priorities c) ref_num in
  if current_priority >=? 1 then
    Ret (Some (set_file_priority (id c) file_nums "normal"))
  else if current_priority =? 0 then
    Ret (Some (set_file_priority (id c) file_nums "low"))
  else if current_priority =? -1 then
    Ret (Some (set_file_priority (id c) file_nums "off"))
  else Ret None.

(** [def get_file_priority(self, torrent_id, file_num)]: the displayed
    encoding of a file. *)
Definition get_file_priority (c : details_cache) (file_num : nat) : res string :=
  let! priority := getitem (priorities c) file_num in
  let! w := getitem (wanted c) file_num in
  if negb w then Ret "off"%string
  else if priority <=? -1 then Ret "low"%string
  else if priority =? 0 then Ret "normal"%string
  else Ret "high"%string.

(** What the remote service does with the arguments of [torrent-set]
    (the RPC protocol, outside this program): the files listed under
    [files-wanted] / [files-unwanted] get their wanted flag set / cleared,
    those under [priority-low], [priority-normal], [priority-high] get
    priority -1, 0, 1.  It is used only to read a request as a transition
    of the cached arrays at the next details update. *)
Definition listed (r : request_data) (key : string) (i : nat) : bool :=
  match r !! key with
  | Some l => bool_decide (Z.of_nat i ∈ l)
  | None => false
  end.

Definition rpc_torrent_set (r : request_data) (c : details_cache) : details_cache :=
  {| id := id c;
     wanted := imap (fun i w =>
                 if listed r "files-unwanted" i then false
                 else if listed r "files-wanted" i then true
                 else w) (wanted c);
     priorities := imap (fun i p =>
                 if listed r "priority-high" i then 1
                 else if listed r "priority-low" i then -1
                 else if listed r "priority-normal" i then 0
                 else p) (priorities c) |}.

(** The cache after an operation: unchanged when no request was sent. *)
Definition after_request (c : details_cache) (r : option request_data) : details_cache :=
  match r with
  | Some r => rpc_torrent_set r c
  | None => c
  end.

(** ** The file list of the details view: directory headers *)

(** [l[i]] for any integer index: a negative index counts from the end. *)
Definition getitemZ {A} (l : list A) (i : Z) : res A :=
  let n := Z.of_nat (length l) in
  let j := if i <? 0 then n + i else i in
  if (0 <=? j) && (j <? n) then getitem l (Z.to_nat j) else Raise IndexError.

(** [s.split(sep)] for a one-character separator: never empty. *)
Fixpoint split (sep : ascii) (s : string) : list string :=
  match s with
  | EmptyString => [EmptyString]
  | String ch rest =>
      if Ascii.eqb ch sep then EmptyString :: split sep rest
      else match split sep rest with
           | seg :: segs => String ch seg :: segs
           | [] => [String ch EmptyString]
           end
  end.

(** [s * n]: the empty string when [n] is not positive. *)
Definition str_mul (s : string) (n : Z) : string :=
  Nat.iter (Z.to_nat n) (String.append s) EmptyString.

(** The text of a directory row:
    ['%s\\ %s' % ('  ' * current_depth + ' ' * 34, f[current_depth])]. *)
Definition directory_row (current_depth : Z) (name : string) : string :=
  (str_mul "  " current_depth ++ str_mul " " 34 ++ "\ " ++ name)%string.

(** [len(f) - 1], the number of directories in the split path [f]. *)
Definition f_len (f : list string) : Z := Z.of_nat (length f) - 1.

(** [f[:f_len]] *)
Definition folder_of (f : list string) : list string := take (Z.to_nat (f_len f)) f.

(** [while same < current_folder_len and same < f_len and
           f[same] == current_folder[same]: same += 1] *)
Fixpoint same_loop (fuel : nat) (f current_folder : list string) (same : nat) : nat :=
  match fuel with
  | O => same
  | S fuel' =>
      if (same <? length current_folder)%nat && (Z.of_nat same <? f_len f)
         && bool_decide (f !! same = current_folder !! same)
      then same_loop fuel' f current_folder (S same)
      else same
  end.

(** [while current_depth < f_len: filelist.append(...); current_depth += 1;
     pos += 1] *)
Fixpoint header_loop (fuel : nat) (f : list string) (filelist : list string)
  (current_depth pos : Z) : res (list string * Z * Z) :=
  match fuel with
  | O => Ret (filelist, current_depth, pos)
  | S fuel' =>
      if current_depth <? f_len f then
        let! name := getitemZ f current_depth in
        header_loop fuel' f (filelist ++ [directory_row current_depth name])
                    (current_depth + 1) (pos + 1)
      else Ret (filelist, current_depth, pos)
  end.

(** [def create_filelist_transition(self, f, current_folder, filelist,
    current_depth, pos)]: the list [filelist] is extended in place, so it
    is returned with the new depth and position. *)
Definition create_filelist_transition (f current_folder filelist : list string)
  (current_depth pos : Z) : res (list string * Z * Z) :=
  let current_folder_len := length current_folder in
  let same := same_loop current_folder_len f current_folder 0 in
  (* for _ in range(current_folder_len - same): current_depth -= 1 *)
  let current_depth :=
    current_depth - Z.max 0 (Z.of_nat current_folder_len - Z.of_nat same) in
  if (f_len f <? Z.of_nat current_folder_len) && (f_len f =? Z.of_nat same)
  then Ret (filelist, current_depth, pos)
  else header_loop (Z.to_nat (f_len f - current_depth)) f filelist current_depth pos.

(** A file of [torrent_details['files']]. *)
Module File.
Record t : Type := {
  name : string;
  length : Z;
  bytesCompleted : Z
}.
End File.

(** The local state of the loop that builds the file list. *)
Record filelist_state : Type := {
  filelist_cache : list string;
  filelist_cache_pos : list Z;
  filelist_cache_pos_dict : gmap Z Z;
  current_folder : list string;
  current_depth : Z;
  pos : Z;
  index : Z
}.

Definition filelist_init : filelist_state :=
  {| filelist_cache := []; filelist_cache_pos := []; filelist_cache_pos_dict := ∅;
     current_folder := []; current_depth := 0; pos := 0; index := 0 |}.

Section CreateFilelist.

(** [create_filelist_line(name, index, percent, length, current_depth)]
    formats one file row (size scaling, priority, screen width); the text
    of a file row is left open here. *)
Variable create_filelist_line : string -> Z -> Q -> Z -> Z -> string.

(** The body of [for file in self.sorted_files] in [create_filelist]. *)
Definition create_filelist_step (st : filelist_state) (file : File.t) : res filelist_state :=
  let f := split "/" (File.name file) in
  let! (cache, depth, pos', folder) :=
    if bool_decide (folder_of f <> current_folder st) then
      let! (cache, depth, pos') :=
        create_filelist_transition f (current_folder st) (filelist_cache st)
                                   (current_depth st) (pos st) in
      Ret (cache, depth, pos', folder_of f)
    else Ret (filelist_cache st, current_depth st, pos st, current_folder st) in
  let! last := getitemZ f (-1) in
  let! pc := percent (inject_Z (File.length file))
                     (inject_Z (File.bytesCompleted file)) in
  Ret {| filelist_cache :=
           cache ++ [create_filelist_line last (index st) pc (File.length file) depth];
         filelist_cache_pos := filelist_cache_pos st ++ [pos'];
         filelist_cache_pos_dict :=
           <[ index st + pos' := index st ]> (filelist_cache_pos_dict st);
         current_folder := folder;
         current_depth := depth;
         pos := pos';
         index := index st + 1 |}.

Fixpoint create_filelist_loop (st : filelist_state) (sorted_files : list File.t)
  : res filelist_state :=
  match sorted_files with
  | [] => Ret st
  | file :: rest =>
      let! st' := create_filelist_step st file in
      create_filelist_loop st' rest
  end.

(** The rows built for the files in display order. *)
Definition create_filelist (sorted_files : list File.t) : res (list string) :=
  let! st := create_filelist_loop filelist_init sorted_files in
  Ret (filelist_cache st).

End CreateFilelist.

(** *** What the specification asks of the rows *)

(** The number of leading segments two folder paths share. *)
Fixpoint shared_segments (folder previous : list string) : nat :=
  match folder, previous with
  | x :: folder', y :: previous' =>
      if String.eqb x y then S (shared_segments folder' previous') else O
  | _, _ => O
  end.

(** One directory row for each segment of [folder] that is not shared
    with [previous], at the depth of the segment. *)
Definition entered_rows (previous folder : list string) : list string :=
  let shared := shared_segments folder previous in
  imap (fun j seg => directory_row (Z.of_nat (shared + j)) seg) (drop shared folder).

Section FilelistRows.

Variable create_filelist_line : string -> Z -> Q -> Z -> Z -> string.

(** The row of one file, at the depth of its folder. *)
Definition file_row (index : Z) (file : File.t) : string :=
  let f := split "/" (File.name file) in
  create_filelist_line
    (List.last f EmptyString) index
    (match percent (inject_Z (File.length file)) (inject_Z (File.bytesCompleted file)) with
     | Ret p => p
     | Raise _ => 0%Q
     end)
    (File.length file) (f_len f).

(** The rows the specification describes: before each file, one directory
    row per segment of its folder not shared with the folder of the file
    before it. *)
Fixpoint rows_from (previous : list string) (index : Z) (files : list File.t)
  : list string :=
  match files with
  | [] => []
  | file :: rest =>
      let folder := folder_of (split "/" (File.name file)) in
      entered_rows previous folder ++ file_row index file
        :: rows_from folder (index + 1) rest
  end.

End FilelistRows.

(** ** Torrents *)

(** The values of a torrent's attributes: integers, strings, and anything
    else by the text [str] gives for it. *)
Inductive value : Type :=
| VInt (z : Z)
| VStr (s : string)
| VOther (str : string).

#[global] Instance value_eq_dec : EqDecision value.
Proof. solve_decision. Defined.

(** A torrent as the server sends it: a dictionary of attributes. *)
Definition torrent : Type := gmap string value.

(** [d[key]] on a dictionary. *)
Definition dict_get {V} (d : gmap string V) (key : string) : res V :=
  match d !! key with
  | Some v => Ret v
  | None => Raise KeyError
  end.

(** [[g(x) for x in l]], where [g] may raise. *)
Fixpoint comprehension {A B} (g : A -> res B) (l : list A) : res (list B) :=
  match l with
  | [] => Ret []
  | x :: rest =>
      let! y := g x in
      let! ys := comprehension g rest in
      Ret (y :: ys)
  end.

(** ** Focus tracking of the torrent list: [follow_list_focus] *)

(** The fields of [Interface] that focus tracking reads and writes. *)
Record interface : Type := {
  focus : Z;
  scrollpos : Z;
  focused_id : value
}.

(** [for i, t in enumerate(self.torrents): if t['id'] == self.focused_id:
     self.focus = i; break], from index [i] on. *)
Fixpoint find_focused (torrents : list torrent) (focused_id : value) (i focus : Z)
  : res Z :=
  match torrents with
  | [] => Ret focus
  | t :: rest =>
      let! tid := dict_get t "id" in
      if bool_decide (tid = focused_id) then Ret i
      else find_focused rest focused_id (i + 1) focus
  end.

(** [while self.focus < (self.scrollpos / tlist_item_height):
       self.scrollpos -= tlist_item_height] *)
Fixpoint above_loop (fuel : nat) (focus scrollpos tlist_item_height : Z) : res Z :=
  match fuel with
  | O => Ret scrollpos
  | S fuel' =>
      let! q := truedivZ scrollpos tlist_item_height in
      if ltb (inject_Z focus) q
      then above_loop fuel' focus (scrollpos - tlist_item_height) tlist_item_height
      else Ret scrollpos
  end.

(** [while self.focus > (self.scrollpos / tlist_item_height)
                        + self.torrents_per_page - 1:
       self.scrollpos += tlist_item_height] *)
Fixpoint below_loop (fuel : nat) (focus scrollpos tlist_item_height torrents_per_page : Z)
  : res Z :=
  match fuel with
  | O => Ret scrollpos
  | S fuel' =>
      let! q := truedivZ scrollpos tlist_item_height in
      if gtb (inject_Z focus) (q + inject_Z torrents_per_page - 1)
      then below_loop fuel' focus (scrollpos + tlist_item_height)
                      tlist_item_height torrents_per_page
      else Ret scrollpos
  end.

(** Bounds on the number of iterations of the two loops (for an item
    height of at least one), used to unroll them. *)
Definition above_fuel (focus scrollpos : Z) : nat :=
  Z.to_nat (Z.abs scrollpos + Z.abs focus + 1).
Definition below_fuel (focus scrollpos torrents_per_page : Z) : nat :=
  Z.to_nat (Z.abs scrollpos + Z.abs focus + Z.abs torrents_per_page + 2).

(** [def follow_list_focus(self)], with [gconfig.tlist_item_height],
    [self.torrents_per_page] and [self.torrents] as arguments. *)
Definition follow_list_focus (tlist_item_height torrents_per_page : Z)
  (torrents : list torrent) (self : interface) : res interface :=
  if focus self =? -1 then Ret self
  else
    let! ids := comprehension (fun t => dict_get t "id") torrents in
    if (Z.of_nat (length torrents) =? 0) || negb (bool_decide (focused_id self ∈ ids))
    then Ret {| focus := -1; scrollpos := 0; focused_id := focused_id self |}
    else
      let focus0 := Z.min (focus self) (Z.of_nat (length torrents) - 1) in
      let! t := getitemZ torrents focus0 in
      let! tid := dict_get t "id" in
      let! focus1 :=
        if negb (bool_decide (tid = focused_id self))
        then find_focused torrents (focused_id self) 0 focus0
        else Ret focus0 in
      let! scrollpos1 :=
        above_loop (above_fuel focus1 (scrollpos self))
                   focus1 (scrollpos self) tlist_item_height in
      let! scrollpos2 :=
        below_loop (below_fuel focus1 scrollpos1 torrents_per_page)
                   focus1 scrollpos1 tlist_item_height torrents_per_page in
      let scrollpos3 :=
        Z.min scrollpos2
              ((Z.of_nat (length torrents) - torrents_per_page) * tlist_item_height) in
      Ret {| focus := focus1; scrollpos := Z.max 0 scrollpos3;
             focused_id := focused_id self |}.

(** A sequence of refreshes, each with its freshly filtered and sorted
    list, followed by [follow_list_focus]. *)
Fixpoint follow_refreshes (tlist_item_height torrents_per_page : Z)
  (refreshes : list (list torrent)) (self : interface) : res interface :=
  match refreshes with
  | [] => Ret self
  | torrents :: rest =>
      let! self' := follow_list_focus tlist_item_height torrents_per_page torrents self in
      follow_refreshes tlist_item_height torrents_per_page rest self'
  end.

(** The torrent under the focus has the given id. *)
Definition focus_on (torrents : list torrent) (self : interface) (x : value) : Prop :=
  0 <= focus self /\
  exists t, torrents !! Z.to_nat (focus self) = Some t /\ t !! "id"%string = Some x.

(** The smallest number of steps [j] for which [ok j] holds. *)
Definition least_steps (ok : nat -> Prop) (j : nat) : Prop :=
  ok j /\ forall i, (i < j)%nat -> ~ ok i.

(** Every torrent of a list carries an id, as the server sends it. *)
Definition with_ids (torrents : list torrent) : Prop :=
  Forall (fun t => is_Some (t !! "id"%string)) torrents.

(** The id occurs in the list. *)
Definition present (x : value) (torrents : list torrent) : Prop :=
  exists (i : nat) (t : torrent), torrents !! i = Some t /\ t !! "id"%string = Some x.

(** ** The remote session: [TransmissionRequest.send_request] *)

(** [def exit_prog(msg, exitcode)]: the exception [sys.exit] raises, given
    the global [lastexitcode] (initially -1). *)
Definition exit_prog (lastexitcode exitcode : Z) : exn :=
  if lastexitcode =? -1 then SystemExit exitcode
  else if exitcode =? 0 then SystemExit lastexitcode
  else SystemExit exitcode.

(** Truth value of an integer or a string. *)
Definition truthy (v : value) : bool :=
  match v with
  | VInt z => negb (z =? 0)
  | VStr s | VOther s => negb (String.eqb s "")
  end.

(** The character classes [\s] and [\w] on ASCII text. *)
Definition is_space (c : ascii) : bool :=
  let n := nat_of_ascii c in
  ((9 <=? n) && (n <=? 13) || (28 <=? n) && (n <=? 32))%nat.

Definition is_word (c : ascii) : bool :=
  let n := nat_of_ascii c in
  ((48 <=? n) && (n <=? 57) || (65 <=? n) && (n <=? 90)
   || (97 <=? n) && (n <=? 122) || (n =? 95))%nat.

(** The longest prefix of characters of a class, and what follows it. *)
Fixpoint span (cls : ascii -> bool) (s : string) : string * string :=
  match s with
  | EmptyString => (EmptyString, EmptyString)
  | String c rest =>
      if cls c then let (a, b) := span cls rest in (String c a, b)
      else (EmptyString, s)
  end.

(** [s] without the prefix [pre], when it starts with it. *)
Fixpoint strip_prefix (pre s : string) : option string :=
  match pre, s with
  | EmptyString, _ => Some s
  | String a pre', String b s' => if Ascii.eqb a b then strip_prefix pre' s' else None
  | String _ _, EmptyString => None
  end.

(** A match of [X-Transmission-Session-Id:\s*(\w+)] at the start of [s]:
    group 1.  The two classes are disjoint, so the greedy match is the
    only candidate at a position. *)
Definition match_session_id (s : string) : option string :=
  match strip_prefix "X-Transmission-Session-Id:" s with
  | Some rest =>
      let (w, _) := span is_word (snd (span is_space rest)) in
      if String.eqb w "" then None else Some w
  | None => None
  end.

(** [re.search(r'X-Transmission-Session-Id:\s*(\w+)', msg)]: group 1 of
    the leftmost match, [None] when there is none. *)
Fixpoint search_session_id (msg : string) : option string :=
  match match_session_id msg with
  | Some w => Some w
  | None =>
      match msg with
      | EmptyString => None
      | String _ rest => search_session_id rest
      end
  end.

(** What [urllib.request.urlopen] does with a request: it opens a
    response, or raises [HTTPError] (carrying the text that
    [html2text(str(e.read()))] yields) or another [URLError]. *)
Inductive exchange : Type :=
| Opened
| HTTPError (msg : string)
| URLError (reason : string).

(** The headers of [self.http_request]; [add_header] overwrites. *)
Definition headers : Type := gmap string value.

(** The service as the session sees it: the outcome of the [n]-th call of
    [urlopen], which may depend on the headers sent. *)
Definition service : Type := nat -> headers -> exchange.

(** A request object with the session state of its server object, the
    number of [urlopen] calls made so far and the global [lastexitcode]. *)
Record session : Type := {
  session_id : value;                (* self.server.session_id, initially 0 *)
  http_request : option headers;     (* unset until set_request_data *)
  open_request : option nat;         (* the urlopen call whose response is open *)
  urlopen_calls : nat;
  lastexitcode : Z
}.

(** [def send_request(self)].  The function calls itself from the
    [HTTPError] handler; [depth] is the number of frames left before
    Python raises [RecursionError]. *)
Fixpoint send_request (urlopen : service) (depth : nat) (self : session) : res session :=
  match depth with
  | O => Raise RecursionError
  | S depth' =>
      match http_request self with
      | None => Ret self      (* except AttributeError: pass *)
      | Some hdrs =>
          let hdrs :=
            if truthy (session_id self)
            then <[ "X-Transmission-Session-Id"%string := session_id self ]> hdrs
            else hdrs in
          let sent := {| session_id := session_id self;
                         http_request := Some hdrs;
                         open_request := open_request self;
                         urlopen_calls := S (urlopen_calls self);
                         lastexitcode := lastexitcode self |} in
          match urlopen (urlopen_calls self) hdrs with
          | Opened =>
              Ret {| session_id := session_id sent;
                     http_request := http_request sent;
                     open_request := Some (urlopen_calls self);
                     urlopen_calls := urlopen_calls sent;
                     lastexitcode := lastexitcode sent |}
          | HTTPError msg =>
              match search_session_id msg with
              | Some m_group_1 =>
                  send_request urlopen depth'
                    {| session_id := VStr m_group_1;
                       http_request := http_request sent;
                       open_request := open_request sent;
                       urlopen_calls := urlopen_calls sent;
                       lastexitcode := lastexitcode sent |}
              | None =>      (* m is None: AttributeError *)
                  Raise (exit_prog (lastexitcode self) errors.CONNECTION_ERROR)
              end
          | URLError _ =>
              Raise (exit_prog (lastexitcode self) errors.CONNECTION_ERROR)
          end
      end
  end.

(** A service that answers the first [n] calls with a challenge carrying
    the tokens of [tokens] in turn, and opens a response afterwards. *)
Definition challenge (token : string) : exchange :=
  HTTPError ("409: Conflict X-Transmission-Session-Id: " ++ token).

Definition challenging (tokens : list string) : service :=
  fun n _ =>
    match tokens !! n with
    | Some token => challenge token
    | None => Opened
    end.

(** A fresh request of a fresh session. *)
Definition fresh_session : session :=
  {| session_id := VInt 0; http_request := Some ∅; open_request := None;
     urlopen_calls := 0; lastexitcode := -1 |}.

(** The headers of an attempt, the state in which a challenge with a token
    is retried, and the state after a response was opened. *)
Definition sent_headers (self : session) (hdrs : headers) : headers :=
  if truthy (session_id self)
  then <[ "X-Transmission-Session-Id"%string := session_id self ]> hdrs
  else hdrs.

Definition retried (self : session) (hdrs : headers) (token : string) : session :=
  {| session_id := VStr token;
     http_request := Some (sent_headers self hdrs);
     open_request := open_request self;
     urlopen_calls := S (urlopen_calls self);
     lastexitcode := lastexitcode self |}.

Definition opened (self : session) (hdrs : headers) : session :=
  {| session_id := session_id self;
     http_request := Some (sent_headers self hdrs);
     open_request := Some (urlopen_calls self);
     urlopen_calls := S (urlopen_calls self);
     lastexitcode := lastexitcode self |}.

(** ** Polling: [TransmissionRequest.get_response] and [Transmission.update] *)

(** What one call of [self.open_request.read()] does: it returns a chunk
    of bytes, or raises [ConnectionResetError] or another exception.  An
    open response is the sequence of these, and [read()] returns [b'']
    once the sequence is used up. *)
Inductive read_event : Type :=
| Chunk (data : list Byte.byte)
| ConnectionReset
| ReadFailure.

(** A decoded response document: [result], and for a reply of the server
    its [tag] and [arguments]. *)
Record response (payload : Type) : Type := {
  result : string;
  tag : option Z;
  arguments : option payload
}.
Arguments result {payload} r.
Arguments tag {payload} r.
Arguments arguments {payload} r.

(** The literal documents [{'result': ...}] that [get_response] returns
    without a reply. *)
Definition local_result {payload} (text : string) : response payload :=
  {| result := text; tag := None; arguments := None |}.

(** A request object as polling sees it. *)
Record polled_request : Type := {
  reads : option (list read_event);      (* self.open_request, None when closed *)
  last_update : Q
}.

(** The [while True] loop of [get_response]: the bytes read up to the end
    of the stream, or the event that ended the read early; and in each
    case what is left of the stream. *)
Inductive read_outcome : Type :=
| Body (bytes : list Byte.byte) (rest : list read_event)
| WasReset (rest : list read_event)
| Failed (rest : list read_event).

Fixpoint read_loop (stream : list read_event) (response : list Byte.byte) : read_outcome :=
  match stream with
  | [] => Body response []
  | Chunk [] :: rest => Body response rest
  | Chunk chunk :: rest => read_loop rest (response ++ chunk)
  | ConnectionReset :: rest => WasReset rest
  | ReadFailure :: rest => Failed rest
  end.

Section Polling.

(** The arguments of a reply, the JSON decoder ([None] for [ValueError],
    which a body that is not UTF-8 raises as well), the caches of
    [Transmission] with [parse_response], and [send_request] on a request
    object ([send]) are taken as they are. *)
Variable payload : Type.
Variable json_loads : list Byte.byte -> option (response payload).
Variable caches : Type.
Variable parse_response : response payload -> caches -> res (caches * Z).
Variable send : polled_request -> res polled_request.

(** [def get_response(self)]: the document returned and the request object
    afterwards. *)
Definition get_response (lastexitcode : Z) (self : polled_request)
  : res (response payload * polled_request) :=
  match reads self with
  | None => Ret (local_result "no open request", self)
  | Some stream =>
      match read_loop stream [] with
      | WasReset rest =>
          Ret (local_result "connection reset by peer",
               {| reads := Some rest; last_update := last_update self |})
      | Failed rest =>
          Ret (local_result "Exception",
               {| reads := Some rest; last_update := last_update self |})
      | Body bytes rest =>
          match json_loads bytes with
          | None => Raise (exit_prog lastexitcode errors.JSON_ERROR)
          | Some data => Ret (data, {| reads := None; last_update := last_update self |})
          end
      end
  end.

(** The body of [for request in list(self.requests.values())] in [update],
    with the reading [now] of the clock: the request, the caches and the
    flag [tag_waiting_for_occurred] afterwards. *)
Definition update_request (lastexitcode : Z) (now delay : Q) (tag_waiting_for : Z)
  (st : caches * bool) (request : polled_request)
  : res (polled_request * (caches * bool)) :=
  if Qle_bool delay (now - last_update request) then
    let request := {| reads := reads request; last_update := now |} in
    let! (response, request) := get_response lastexitcode request in
    if String.eqb (result response) "no open request" then
      let! request := send request in
      Ret (request, st)
    else if String.eqb (result response) "success" then
      let! (cache, tag) := parse_response response (fst st) in
      Ret (request, (cache, if tag =? tag_waiting_for then true else snd st))
    else Ret (request, st)
  else Ret (request, st).

(** [def update(self, delay, tag_waiting_for=0)] over the request objects
    in turn: the requests and caches afterwards, and the returned value. *)
Fixpoint update_loop (lastexitcode : Z) (now delay : Q) (tag_waiting_for : Z)
  (st : caches * bool) (requests : list polled_request)
  : res (list polled_request * (caches * bool)) :=
  match requests with
  | [] => Ret ([], st)
  | request :: rest =>
      let! (request', st') := update_request lastexitcode now delay tag_waiting_for st request in
      let! (rest', st'') := update_loop lastexitcode now delay tag_waiting_for st' rest in
      Ret (request' :: rest', st'')
  end.

Definition update (lastexitcode : Z) (now delay : Q) (tag_waiting_for : Z)
  (cache : caches) (requests : list polled_request)
  : res (list polled_request * caches * option bool) :=
  let! (requests', st) :=
    update_loop lastexitcode now delay tag_waiting_for (cache, false) requests in
  Ret (requests', fst st,
       if tag_waiting_for =? 0 then None else Some (snd st)).

End Polling.

(** A read that is interrupted before the end of the stream. *)
Definition interrupted (stream : list read_event) : Prop :=
  match read_loop stream [] with
  | Body _ _ => False
  | WasReset _ | Failed _ => True
  end.

(** A stream that is read to its end, with a body the decoder rejects. *)
Definition undecodable {payload} (json_loads : list Byte.byte -> option (response payload))
  (stream : list read_event) : Prop :=
  match read_loop stream [] with
  | Body bytes _ => json_loads bytes = None
  | WasReset _ | Failed _ => False
  end.

(** A decoder that rejects the empty document, as [json.loads] does, and
    reads every other body as a successful reply without arguments. *)
Definition loads_nonempty (bytes : list Byte.byte) : option (response unit) :=
  match bytes with
  | [] => None
  | _ => Some {| result := "success"; tag := Some 7; arguments := None |}
  end.

(** ** The peer rate estimator: [Normalizer] and [upgrade_peerlist] *)

(** A peer of [torrent_details_cache['peers']]. *)
Module Peer.
Record t : Type := {
  address : string;
  progress : Q
}.
End Peer.

(** An entry of [peer_progress_cache]. *)
Module PeerEntry.
Record t : Type := {
  last_progress : Q;
  last_update : Q;
  download_speed : Q;
  time_left : Q
}.
Definition set_download_speed (v : Q) (e : t) : t :=
  {| last_progress := last_progress e; last_update := last_update e;
     download_speed := v; time_left := time_left e |}.
Definition set_time_left (v : Q) (e : t) : t :=
  {| last_progress := last_progress e; last_update := last_update e;
     download_speed := download_speed e; time_left := v |}.
Definition set_last_update (v : Q) (e : t) : t :=
  {| last_progress := last_progress e; last_update := v;
     download_speed := download_speed e; time_left := time_left e |}.
Definition set_last_progress (v : Q) (e : t) : t :=
  {| last_progress := v; last_update := last_update e;
     download_speed := download_speed e; time_left := time_left e |}.
End PeerEntry.

(** The objects [upgrade_peerlist] mutates: [self.peer_progress_cache],
    the values of the global [norm], and the number of readings taken from
    the clock so far. *)
Record estimator : Type := {
  peer_progress_cache : gmap string PeerEntry.t;
  norm_values : gmap string (list Q);
  clock_reads : nat
}.

(** Code that mutates these objects and may raise: the objects keep what
    was written before an exception. *)
Module Mut.
Definition t (A : Type) : Type := estimator -> estimator * res A.
Definition ret {A} (a : A) : t A := fun st => (st, Ret a).
Definition bind {A B} (m : t A) (k : A -> t B) : t B :=
  fun st =>
    match m st with
    | (st', Ret a) => k a st'
    | (st', Raise e) => (st', Raise e)
    end.
Definition lift {A} (r : res A) : t A := fun st => (st, r).
Definition get : t estimator := fun st => (st, Ret st).
Definition modify (f : estimator -> estimator) : t unit := fun st => (f st, Ret tt).
End Mut.

Notation "'let*' x ':=' m 'in' k" := (Mut.bind m (fun x => k))
  (at level 10, x pattern, m at level 100, k at level 200, only parsing).

(** [sum(l)] on floats. *)
Definition Qsum (l : list Q) : Q := foldl Qplus 0%Q l.

(** [Normalizer.get(key)] on the dictionary [values]. *)
Definition Normalizer_get (values : gmap string (list Q)) (key : string) : res Q :=
  match values !! key with
  | None => Ret 0%Q
  | Some l => truediv (Qsum l) (inject_Z (Z.of_nat (length l)))
  end.

(** [Normalizer.add(key, value, max_len)]: the dictionary after the call. *)
Definition Normalizer_add (values : gmap string (list Q)) (key : string) (value : Q)
  (max_len : nat) : gmap string (list Q) :=
  match values !! key with
  | None => <[ key := [value] ]> values
  | Some l =>
      let l := if (max_len <=? length l)%nat then drop 1 l else l in   (* pop(0) *)
      <[ key := l ++ [value] ]> values
  end.

Section PeerRates.

(** The successive readings of [time.time()]. *)
Variable time_time : nat -> Q.

(** [self.torrent_details_cache['hashString']] and [['totalSize']]. *)
Variables (hashString : string) (totalSize : Z).

Definition read_clock : Mut.t Q :=
  fun st => ({| peer_progress_cache := peer_progress_cache st;
                norm_values := norm_values st;
                clock_reads := S (clock_reads st) |},
             Ret (time_time (clock_reads st))).

(** [this_peer[...] = ...]: [this_peer] is the dictionary stored in the
    cache under [peerid], so the cache sees the assignment. *)
Definition assign (peerid : string) (set : PeerEntry.t -> PeerEntry.t) : Mut.t unit :=
  Mut.modify (fun st =>
    {| peer_progress_cache := alter set peerid (peer_progress_cache st);
       norm_values := norm_values st;
       clock_reads := clock_reads st |}).

Definition this_peer (peerid : string) : Mut.t PeerEntry.t :=
  let* st := Mut.get in
  Mut.lift (dict_get (peer_progress_cache st) peerid).

(** [norm.add(key, value, 10)] on the global [norm]. *)
Definition norm_add (key : string) (value : Q) (max_len : nat) : Mut.t Q :=
  let* _ := Mut.modify (fun st =>
    {| peer_progress_cache := peer_progress_cache st;
       norm_values := Normalizer_add (norm_values st) key value max_len;
       clock_reads := clock_reads st |}) in
  let* st := Mut.get in
  Mut.lift (Normalizer_get (norm_values st) key).

(** The body of the loop of [upgrade_peerlist] for one peer, up to
    [this_torrent['peers'][index].update(this_peer)], whose argument it
    returns. *)
Definition estimate_peer (peer : Peer.t) : Mut.t PeerEntry.t :=
  let peerid := (Peer.address peer ++ hashString)%string in
  let* st := Mut.get in
  let* _ :=
    match peer_progress_cache st !! peerid with
    | Some _ => Mut.ret tt
    | None =>
        let* now := read_clock in
        Mut.modify (fun st =>
          {| peer_progress_cache :=
               <[ peerid := {| PeerEntry.last_progress := Peer.progress peer;
                               PeerEntry.last_update := now;
                               PeerEntry.download_speed := 0;
                               PeerEntry.time_left := 0 |} ]>
                 (peer_progress_cache st);
             norm_values := norm_values st;
             clock_reads := clock_reads st |})
    end in
  let* _ :=
    if ltb (Peer.progress peer) 1 then
      let* this_time := read_clock in
      let* p := this_peer peerid in
      let time_diff := (this_time - PeerEntry.last_update p)%Q in
      let progress_diff := (Peer.progress peer - PeerEntry.last_progress p)%Q in
      let* _ :=
        if negb (Qeq_bool (PeerEntry.last_progress p) 0)
           && gtb progress_diff 0 && gtb time_diff 5
        then
          let download_left :=
            (inject_Z totalSize - inject_Z totalSize * Peer.progress peer)%Q in
          let downloaded := (inject_Z totalSize * progress_diff)%Q in
          let* sample := Mut.lift (truediv downloaded time_diff) in
          let* speed := norm_add (peerid ++ ":download_speed") sample 10 in
          let* _ := assign peerid (PeerEntry.set_download_speed speed) in
          let* remaining := Mut.lift (truediv download_left speed) in
          let* _ := assign peerid (PeerEntry.set_time_left remaining) in
          assign peerid (PeerEntry.set_last_update this_time)
        else if gtb time_diff 60 then
          let* _ := assign peerid (PeerEntry.set_download_speed 0) in
          let* _ := assign peerid (PeerEntry.set_time_left 0) in
          let* now := read_clock in
          assign peerid (PeerEntry.set_last_update now)
        else Mut.ret tt in
      assign peerid (PeerEntry.set_last_progress (Peer.progress peer))
    else Mut.ret tt in
  this_peer peerid.

(** [def upgrade_peerlist(self)]: the entries merged into the peers. *)
Fixpoint upgrade_peerlist (peers : list Peer.t) : Mut.t (list PeerEntry.t) :=
  match peers with
  | [] => Mut.ret []
  | peer :: rest =>
      let* e := estimate_peer peer in
      let* es := upgrade_peerlist rest in
      Mut.ret (e :: es)
  end.

End PeerRates.

(** The cached rate of a peer, if it has an entry. *)
Definition cached_speed (st : estimator) (peerid : string) : option Q :=
  PeerEntry.download_speed <$> peer_progress_cache st !! peerid.

(** The update condition of the estimator on an entry, a sample and the
    time of the sample. *)
Definition qualifying (e : PeerEntry.t) (peer : Peer.t) (this_time : Q) : Prop :=
  (Peer.progress peer < 1)%Q /\
  ~ (PeerEntry.last_progress e == 0)%Q /\
  (0 < Peer.progress peer - PeerEntry.last_progress e)%Q /\
  (5 < this_time - PeerEntry.last_update e)%Q.

(** ** Sorting the torrent list: [get_torrent_list] *)

(** The decimal digits of a non-negative integer. *)
Definition digit (d : Z) : ascii := ascii_of_nat (48 + Z.to_nat d).

Fixpoint decimal_loop (fuel : nat) (n : Z) : string :=
  match fuel with
  | O => EmptyString
  | S fuel' =>
      if n <? 10 then String (digit n) EmptyString
      else (decimal_loop fuel' (n / 10) ++ String (digit (n mod 10)) EmptyString)%string
  end.

Definition decimal (n : Z) : string := decimal_loop (S (Z.to_nat (Z.log2 n))) n.

Definition zeros (n : nat) : string := Nat.iter n (String "0") EmptyString.

(** ["%027.6f" % value] for an integer [value]: the sign, zeros up to a
    width of 27, the digits, and six decimals.  The conversion of the
    integer to a float is exact up to 2^53 in absolute value, which is
    the range in which this is what Python prints. *)
Definition format_027_6f (value : Z) : string :=
  let sign := if value <? 0 then "-"%string else EmptyString in
  let body := (decimal (Z.abs value) ++ ".000000")%string in
  (sign ++ zeros (27 - String.length sign - String.length body) ++ body)%string.

(** [s.lower()] on ASCII text. *)
Definition lower_char (c : ascii) : ascii :=
  let n := nat_of_ascii c in
  if ((65 <=? n) && (n <=? 90))%nat then ascii_of_nat (n + 32) else c.

Fixpoint lower (s : string) : string :=
  match s with
  | EmptyString => EmptyString
  | String c rest => String (lower_char c) (lower rest)
  end.

(** [def sort_value(value)], local to [get_torrent_list]. *)
Definition sort_value (value : value) : string :=
  match value with
  | VInt z => format_027_6f z
  | VStr s => lower s
  | VOther str => str
  end.

(** An entry of [gconfig.sort_orders]. *)
Module SortOrder.
Record t : Type := {
  name : string;
  reverse : bool
}.
End SortOrder.

(** [list.sort(key=..., reverse=...)]: a stable sort on the keys, which
    are strings here.  An element is put in front of the sorted rest,
    behind the elements that come strictly before it: elements with
    equal keys keep their order, also with [reverse=True]. *)
Fixpoint sort_insert {A} (reverse : bool) (kx : string * A) (sorted : list (string * A))
  : list (string * A) :=
  match sorted with
  | [] => [kx]
  | ky :: rest =>
      if (if reverse then String.ltb (fst kx) (fst ky) else String.ltb (fst ky) (fst kx))
      then ky :: sort_insert reverse kx rest
      else kx :: sorted
  end.

Definition sort_keyed {A} (reverse : bool) (keyed : list (string * A)) : list (string * A) :=
  foldr (sort_insert reverse) [] keyed.

(** The keys are computed for the whole list before it is rearranged. *)
Definition list_sort {A} (key : A -> res string) (reverse : bool) (l : list A)
  : res (list A) :=
  let! keys := comprehension key l in
  Ret (snd <$> sort_keyed reverse (zip keys l)).

(** The [for sort_order in sort_orders] loop of [get_torrent_list] on
    [self.torrent_cache]. *)
Fixpoint sort_loop (sort_orders : list SortOrder.t) (torrent_cache : list torrent)
  : res (list torrent) :=
  match sort_orders with
  | [] => Ret torrent_cache
  | sort_order :: rest =>
      let! torrent_cache :=
        list_sort (fun x => let! v := dict_get x (SortOrder.name sort_order) in
                            Ret (sort_value v))
                  (SortOrder.reverse sort_order) torrent_cache in
      sort_loop rest torrent_cache
  end.

(** [def get_torrent_list(self, sort_orders)] *)
Definition get_torrent_list (sort_orders : list SortOrder.t) (torrent_cache : list torrent)
  : res (list torrent) :=
  match sort_loop sort_orders torrent_cache with
  | Raise IndexError => Ret []
  | other => other
  end.

(** What the sort-order dialog returns: -128 when it is left, or a choice
    with its [inverse] flag. *)
Inductive menu_choice : Type :=
| Cancelled
| Chosen (choice : string) (inverse : bool).

(** [while len(gconfig.sort_orders) > 2: gconfig.sort_orders.pop(0)] *)
Fixpoint pop_loop (fuel : nat) (sort_orders : list SortOrder.t) : list SortOrder.t :=
  match fuel with
  | O => sort_orders
  | S fuel' =>
      if (2 <? length sort_orders)%nat then pop_loop fuel' (drop 1 sort_orders)
      else sort_orders
  end.

(** [def action_show_torrent_sort_order_menu(self)] on [gconfig.sort_orders],
    given what the dialog returned. *)
Definition action_show_torrent_sort_order_menu (selected_torrent : Z) (dialog : menu_choice)
  (sort_orders : list SortOrder.t) : res (list SortOrder.t) :=
  if selected_torrent =? -1 then
    match dialog with
    | Cancelled => Ret sort_orders
    | Chosen choice inverse =>
        if String.eqb choice "reverse" then
          let! last := getitemZ sort_orders (-1) in
          Ret (take (length sort_orders - 1) sort_orders
               ++ [ {| SortOrder.name := SortOrder.name last;
                       SortOrder.reverse := negb (SortOrder.reverse last) |} ])
        else
          let sort_orders :=
            sort_orders ++ [ {| SortOrder.name := choice; SortOrder.reverse := inverse |} ] in
          Ret (pop_loop (length sort_orders) sort_orders)
    end
  else Ret sort_orders.

(** The sort key of a torrent for an attribute (the empty string stands
    for a missing attribute, for which the sort raises). *)
Definition key_of (attribute : string) (t : torrent) : string :=
  match t !! attribute with
  | Some v => sort_value v
  | None => EmptyString
  end.

(** The order of a list sorted by two keys: by the first key, and by the
    second one among equal first keys. *)
Definition by_both {A} (k1 k2 : A -> string) (a b : A) : Prop :=
  String.ltb (k1 a) (k1 b) = true \/
  (k1 a = k1 b /\ String.leb (k2 a) (k2 b) = true).

(** The order of the result on two torrents: by the key of [primary], and
    by the key of [secondary] among equal primary keys. *)
Definition keys_le (primary secondary : string) : torrent -> torrent -> Prop :=
  by_both (key_of primary) (key_of secondary).

(** The [w] low decimal digits of a number, most significant first. *)
Fixpoint fixed_digits (w : nat) (n : Z) : string :=
  match w with
  | O => EmptyString
  | S w' => (fixed_digits w' (n / 10) ++ String (digit (n mod 10)) EmptyString)%string
  end.

(** The same stable insertion on the elements themselves, for a key that
    does not raise and ascending order. *)
Fixpoint insert_by {A} (k : A -> string) (x : A) (sorted : list A) : list A :=
  match sorted with
  | [] => [x]
  | y :: rest =>
      if String.ltb (k y) (k x) then y :: insert_by k x rest else x :: sorted
  end.

Definition sort_by {A} (k : A -> string) (l : list A) : list A :=
  foldr (insert_by k) [] l.

(** Both sort keys of a torrent, the primary one first. *)
Definition keys_of (primary secondary : string) (t : torrent) : string * string :=
  (key_of primary t, key_of secondary t).

(** ** Exceptions of other classes *)

(** The exceptions of [Py.exn], or an exception of another class, by the
    name of its class ([TypeError], [ValueError], [re.error], ...). *)
Module PyExc.

Inductive exn : Type :=
| Builtin (e : Py.exn)
| Class (name : string).

Inductive res (A : Type) : Type :=
| Return (a : A)
| Throw (e : exn).
Arguments Return {A} a.
Arguments Throw {A} e.

Definition bind {A B} (m : res A) (k : A -> res B) : res B :=
  match m with
  | Return a => k a
  | Throw e => Throw e
  end.

(** A computation that raises only exceptions of [Py.exn]. *)
Definition lift {A} (r : Py.res A) : res A :=
  match r with
  | Ret a => Return a
  | Raise e => Throw (Builtin e)
  end.

End PyExc.

Notation "'let?' x ':=' m 'in' k" := (PyExc.bind m (fun x => k))
  (at level 10, x pattern, m at level 100, k at level 200, only parsing).

(** ** Torrents of the list, field by field *)

(** An entry of [trackerStats]. *)
Module Tracker.
Record t : Type := {
  hasAnnounced : bool;
  lastAnnounceSucceeded : bool;
  seederCount : Z;
  leecherCount : Z
}.
End Tracker.

(** The fields of a torrent of [torrent_cache] that the operations below
    read, typed as the server sends them ([percentDone] as
    [parse_response] stores it). *)
Module Torrent.
Record t : Type := {
  id : Z;
  name : string;
  status : Z;
  rateDownload : Z;
  rateUpload : Z;
  percentDone : Q;
  isPrivate : bool;
  peersGettingFromUs : Z;
  peersSendingToUs : Z;
  isIsolated : bool;
  honorsSessionLimits : bool;
  mainTrackerDomain : option string;
  downloadDir : string;
  labels : list string;
  group : string;
  totalSize : Z;
  sizeWhenDone : Z;
  error : Z;
  bandwidthPriority : Z;
  queuePosition : Z;
  metadataPercentComplete : Q;
  trackerStats : list Tracker.t
}.
End Torrent.

(** A JSON value of the arguments of a request. *)
Inductive json : Type :=
| JNull
| JBool (b : bool)
| JInt (z : Z)
| JNum (q : Q)
| JStr (s : string)
| JInts (l : list Z).

(** [TransmissionRequest(self.url, method, 1, arguments)], as it is sent. *)
Module Request.
Record t : Type := {
  method : string;
  arguments : gmap string json
}.
End Request.

(** [while self.torrent_cache[i]['id'] != t_id: i += 1].  The index runs
    off the list after at most [len(torrent_cache)] steps. *)
Fixpoint get_torrent_by_id_loop (fuel : nat) (torrent_cache : list Torrent.t) (t_id : Z)
  (i : nat) : res nat :=
  let! t := getitem torrent_cache i in
  if negb (Torrent.id t =? t_id) then
    match fuel with
    | O => Raise IndexError
    | S fuel' => get_torrent_by_id_loop fuel' torrent_cache t_id (S i)
    end
  else Ret i.

(** [def get_torrent_by_id(self, t_id)] *)
Definition get_torrent_by_id (torrent_cache : list Torrent.t) (t_id : Z)
  : res (option Torrent.t) :=
  let! i := get_torrent_by_id_loop (length torrent_cache) torrent_cache t_id 0 in
  let! t := getitem torrent_cache i in
  if Torrent.id t =? t_id then Ret (Some t) else Ret None.

(** [x[key]] on what [get_torrent_by_id] returned: [None] is not
    subscriptable. *)
Definition subscript {A} (x : option Torrent.t) (key : Torrent.t -> A) : PyExc.res A :=
  match x with
  | Some t => PyExc.Return (key t)
  | None => PyExc.Throw (PyExc.Class "TypeError")
  end.

(** [[self.get_torrent_by_id(t)[key] for t in torrent_ids]] *)
Fixpoint attributes_by_id {A} (torrent_cache : list Torrent.t) (key : Torrent.t -> A)
  (torrent_ids : list Z) : PyExc.res (list A) :=
  match torrent_ids with
  | [] => PyExc.Return []
  | t :: rest =>
      let? x := PyExc.lift (get_torrent_by_id torrent_cache t) in
      let? v := subscript x key in
      let? vs := attributes_by_id torrent_cache key rest in
      PyExc.Return (v :: vs)
  end.

(** [min(l)] and [max(l)] on a list of integers. *)
Definition py_min (l : list Z) : PyExc.res Z :=
  match l with
  | [] => PyExc.Throw (PyExc.Class "ValueError")
  | x :: rest => PyExc.Return (foldl Z.min x rest)
  end.

Definition py_max (l : list Z) : PyExc.res Z :=
  match l with
  | [] => PyExc.Throw (PyExc.Class "ValueError")
  | x :: rest => PyExc.Return (foldl Z.max x rest)
  end.

(** [{'ids': torrent_ids, 'bandwidthPriority': priority}] in a
    [torrent-set] request. *)
Definition bandwidth_request (torrent_ids : list Z) (priority : Z) : Request.t :=
  {| Request.method := "torrent-set";
     Request.arguments := <[ "bandwidthPriority" := JInt priority ]>
                    {[ "ids" := JInts torrent_ids ]} |}.

(** [def increase_bandwidth_priority(self, torrent_ids)]: the request
    sent, if one is. *)
Definition increase_bandwidth_priority (torrent_cache : list Torrent.t)
  (torrent_ids : list Z) : PyExc.res (option Request.t) :=
  if bool_decide (torrent_ids <> []) then
    let? priorities := attributes_by_id torrent_cache Torrent.bandwidthPriority torrent_ids in
    let? current := py_min priorities in
    if current <? 1 then PyExc.Return (Some (bandwidth_request torrent_ids (current + 1)))
    else PyExc.Return None
  else PyExc.Return None.

(** [def decrease_bandwidth_priority(self, torrent_ids)] *)
Definition decrease_bandwidth_priority (torrent_cache : list Torrent.t)
  (torrent_ids : list Z) : PyExc.res (option Request.t) :=
  if bool_decide (torrent_ids <> []) then
    let? priorities := attributes_by_id torrent_cache Torrent.bandwidthPriority torrent_ids in
    let? current := py_max priorities in
    if current >? -1 then PyExc.Return (Some (bandwidth_request torrent_ids (current - 1)))
    else PyExc.Return None
  else PyExc.Return None.

(** The priority a request asks for. *)
Definition requested_priority (r : Request.t) : option json :=
  Request.arguments r !! "bandwidthPriority"%string.

(** [new_position] of [move_queue]: a string or an integer. *)
Inductive position : Type :=
| PosStr (s : string)
| PosInt (z : Z).

(** [def move_queue(self, torrent_id, new_position)] of [Transmission]:
    the request sent. *)
Definition Transmission_move_queue (torrent_cache : list Torrent.t) (torrent_id : Z)
  (new_position : position) : PyExc.res Request.t :=
  let args : gmap string json := {[ "ids" := JInts [torrent_id] ]} in
  match new_position with
  | PosStr s =>
      if bool_decide (s ∈ ["up"; "down"; "top"; "bottom"]%string)
      then PyExc.Return {| Request.method := "queue-move-" ++ s; Request.arguments := args |}
      else PyExc.Throw (PyExc.Class "ValueError")
  | PosInt z =>
      PyExc.Return
        {| Request.method := "torrent-set";
           Request.arguments :=
             <[ "queuePosition" :=
                  JInt (Z.min (Z.max z 0) (Z.of_nat (length torrent_cache) - 1)) ]> args |}
  end.

(** [def move_queue(self, direction)] of [Interface], on the focused
    torrent of [self.torrents]: the request sent, if one is. *)
Definition Interface_move_queue (rpc_version : Z) (torrent_cache torrents : list Torrent.t)
  (focus : Z) (direction : string) : PyExc.res (option Request.t) :=
  if (rpc_version >=? 14) && (focus >? -1) then
    let? new_position :=
      if bool_decide (direction ∈ ["ppage"; "npage"]%string) then
        let? t := PyExc.lift (getitemZ torrents focus) in
        let new_position := Torrent.queuePosition t in
        if String.eqb direction "ppage" then PyExc.Return (PosInt (new_position - 10))
        else PyExc.Return (PosInt (new_position + 10))
      else PyExc.Return (PosStr direction) in
    let? t := PyExc.lift (getitemZ torrents focus) in
    let? r := Transmission_move_queue torrent_cache (Torrent.id t) new_position in
    PyExc.Return (Some r)
  else PyExc.Return None.

(** [def set_seed_ratio(self, ratio, ids=-1)]: the request sent, if one
    is.  [ratio] is a float. *)
Definition set_seed_ratio (ratio : Q) (ids : json) : option Request.t :=
  let send (ratio : json) (mode : Z) :=
    Some {| Request.method := "torrent-set";
            Request.arguments := <[ "seedRatioMode" := JInt mode ]>
                           (<[ "seedRatioLimit" := ratio ]> {[ "ids" := ids ]}) |} in
  if Qeq_bool ratio (-1) then send JNull 0
  else if Qeq_bool ratio 0 then send JNull 2
  else if Qle_bool 0 ratio then send (JNum ratio) 1
  else None.

(** ** Reachability of peers: [can_has_peers] *)

(** [def can_has_peers(self, torrent)], with [dht_enabled] the entry
    ['dht-enabled'] of [self.status_cache], if there is one. *)
Definition can_has_peers (dht_enabled : option bool) (torrent : Torrent.t) : bool :=
  let dht :=
    match dht_enabled with
    | None => true
    | Some enabled => enabled && negb (Torrent.isPrivate torrent)
    end in
  match Torrent.trackerStats torrent with
  | _ :: _ =>
      if existsb Tracker.hasAnnounced (Torrent.trackerStats torrent) then
        if existsb Tracker.lastAnnounceSucceeded (Torrent.trackerStats torrent)
        then true
        else dht
      else true
  | [] => dht
  end.

(** ** Filters of the torrent list *)

(** The status codes of [Transmission], which its [__init__] sets up
    anew for a server that speaks a version of the protocol below 14. *)
Module Transmission.
Record status_codes : Type := {
  STATUS_STOPPED : Z;
  STATUS_CHECK_WAIT : Z;
  STATUS_CHECK : Z;
  STATUS_DOWNLOAD_WAIT : Z;
  STATUS_DOWNLOAD : Z;
  STATUS_SEED_WAIT : Z;
  STATUS_SEED : Z
}.
Definition current : status_codes :=
  {| STATUS_STOPPED := 0; STATUS_CHECK_WAIT := 1; STATUS_CHECK := 2;
     STATUS_DOWNLOAD_WAIT := 3; STATUS_DOWNLOAD := 4;
     STATUS_SEED_WAIT := 5; STATUS_SEED := 6 |}.
Definition before_14 : status_codes :=
  {| STATUS_STOPPED := Z.shiftl 1 4; STATUS_CHECK_WAIT := Z.shiftl 1 0;
     STATUS_CHECK := Z.shiftl 1 1;
     STATUS_DOWNLOAD_WAIT := Z.shiftl 1 2; STATUS_DOWNLOAD := Z.shiftl 1 2;
     STATUS_SEED_WAIT := Z.shiftl 1 3; STATUS_SEED := Z.shiftl 1 3 |}.
Definition codes (rpc_version : Z) : status_codes :=
  if rpc_version <? 14 then before_14 else current.
End Transmission.

(** A filter of [gconfig.filters]: its name, its [inverse] flag, and the
    entries of the dictionary besides these two (the parameter of a
    filter is stored under the name of the filter). *)
Module Filter.
Record t : Type := {
  name : string;
  inverse : bool;
  params : gmap string string
}.
End Filter.

(** The names [filter_torrent] knows. *)
Definition filter_names : list string :=
  ["downloading"; "uploading"; "paused"; "seeding"; "incomplete"; "private"; "active";
   "verifying"; "isolated"; "honors"; "selected"; "tracker"; "regex"; "location";
   "label"; "group"; "partwanted"; "error"]%string.

(** [all(g(x) for x in l)] and [any(g(x) for x in l)]: the generator is
    consumed up to the element that decides. *)
Fixpoint py_all {A} (g : A -> PyExc.res bool) (l : list A) : PyExc.res bool :=
  match l with
  | [] => PyExc.Return true
  | x :: rest => let? b := g x in if b then py_all g rest else PyExc.Return false
  end.

Fixpoint py_any {A} (g : A -> PyExc.res bool) (l : list A) : PyExc.res bool :=
  match l with
  | [] => PyExc.Return false
  | x :: rest => let? b := g x in if b then PyExc.Return true else py_any g rest
  end.

(** [[x for x in l if keep(x)]] *)
Fixpoint comprehension_if {A} (keep : A -> PyExc.res bool) (l : list A) : PyExc.res (list A) :=
  match l with
  | [] => PyExc.Return []
  | x :: rest =>
      let? b := keep x in
      let? xs := comprehension_if keep rest in
      PyExc.Return (if b then x :: xs else xs)
  end.

Section Filters.

(** The status codes in force; [bool(re.search(pattern, text,
    flags=re.I))], which raises [re.error] on a pattern that is not a
    regular expression; and [homedir2tilde], which reads the environment
    and builds a pattern from it. *)
Variable STATUS : Transmission.status_codes.
Variable re_search : string -> string -> PyExc.res bool.
Variable homedir2tilde : string -> PyExc.res string.

(** [def filter_torrent(self, t, filtr)], with [self.selected]. *)
Definition filter_torrent (selected : gset Z) (t : Torrent.t) (filtr : Filter.t)
  : PyExc.res bool :=
  let name := Filter.name filtr in
  let differs (b : bool) : PyExc.res bool :=        (* filtr['inverse'] != b *)
    PyExc.Return (xorb (Filter.inverse filtr) b) in
  let param (key : string) : PyExc.res string :=    (* filtr[key] *)
    PyExc.lift (dict_get (Filter.params filtr) key) in
  let status := Torrent.status t in
  if String.eqb name "downloading" then differs (Torrent.rateDownload t >? 0)
  else if String.eqb name "uploading" then differs (Torrent.rateUpload t >? 0)
  else if String.eqb name "paused" then
    differs (status =? Transmission.STATUS_STOPPED STATUS)
  else if String.eqb name "seeding" then
    differs ((status =? Transmission.STATUS_SEED STATUS)
             || (status =? Transmission.STATUS_SEED_WAIT STATUS))
  else if String.eqb name "incomplete" then differs (ltb (Torrent.percentDone t) 100)
  else if String.eqb name "private" then differs (Torrent.isPrivate t)
  else if String.eqb name "active" then
    differs ((Torrent.peersGettingFromUs t >? 0) || (Torrent.peersSendingToUs t >? 0)
             || (status =? Transmission.STATUS_CHECK STATUS))
  else if String.eqb name "verifying" then
    differs ((status =? Transmission.STATUS_CHECK STATUS)
             || (status =? Transmission.STATUS_CHECK_WAIT STATUS))
  else if String.eqb name "isolated" then differs (Torrent.isIsolated t)
  else if String.eqb name "honors" then differs (Torrent.honorsSessionLimits t)
  else if String.eqb name "selected" then differs (bool_decide (Torrent.id t ∈ selected))
  else if String.eqb name "tracker" then
    let? tracker := param "tracker" in
    differs (bool_decide (Torrent.mainTrackerDomain t = Some tracker))
  else if String.eqb name "regex" then
    let? regex := param "regex" in
    let? found := re_search regex (Torrent.name t) in
    differs found
  else if String.eqb name "location" then
    let? location := homedir2tilde (Torrent.downloadDir t) in
    let? wanted := param "location" in
    differs (bool_decide (location = wanted))
  else if String.eqb name "label" then
    let? label := param "label" in
    differs (bool_decide (label ∈ Torrent.labels t))
  else if String.eqb name "group" then
    let? group := param "group" in
    differs (bool_decide (group = Torrent.group t))
  else if String.eqb name "partwanted" then
    differs (Torrent.totalSize t >? Torrent.sizeWhenDone t)
  else if String.eqb name "error" then differs (Torrent.error t >? 0)
  else PyExc.Return true.

(** The condition of the comprehension of [filter_torrent_list]:
    [any(all(self.filter_torrent(t, f) for f in fs) for fs in gconfig.filters)
     != self.filters_inverted]. *)
Definition shown (filters : list (list Filter.t)) (filters_inverted : bool)
  (selected : gset Z) (t : Torrent.t) : PyExc.res bool :=
  let? matched := py_any (fun fs => py_all (filter_torrent selected t) fs) filters in
  PyExc.Return (xorb matched filters_inverted).

(** [def filter_torrent_list(self)]: [self.torrents] and [self.selected]
    afterwards. *)
Definition filter_torrent_list (filters : list (list Filter.t)) (filters_inverted : bool)
  (torrents : list Torrent.t) (selected : gset Z) : PyExc.res (list Torrent.t * gset Z) :=
  let? torrents := comprehension_if (shown filters filters_inverted selected) torrents in
  PyExc.Return (torrents, selected ∩ list_to_set (Torrent.id <$> torrents)).

End Filters.

(** ** Movement and selection in the torrent list *)

(** [def movement_keys(self, action)] on the focus, the scroll position
    and the focused id of the torrent list; with a torrent opened
    ([selected_torrent > -1]) the three are left as they are. *)
Definition movement_keys (tlist_item_height torrents_per_page selected_torrent : Z)
  (torrents : list Torrent.t) (action : string) (self : interface) : res interface :=
  if (selected_torrent =? -1) && (Z.of_nat (length torrents) >? 0) then
    let list_height := Z.of_nat (length torrents) in
    let! (focus', scrollpos') :=
      if String.eqb action "line_up" then
        move_up (focus self) (scrollpos self) tlist_item_height
      else if String.eqb action "line_down" then
        move_down (focus self) (scrollpos self) tlist_item_height torrents_per_page
                  list_height
      else if String.eqb action "page_up" then
        Ret (move_page_up (focus self) (scrollpos self) tlist_item_height torrents_per_page)
      else if String.eqb action "page_down" then
        Ret (move_page_down (focus self) (scrollpos self) tlist_item_height
                            torrents_per_page list_height)
      else if String.eqb action "home" then Ret move_to_top
      else if String.eqb action "end" then
        Ret (move_to_end tlist_item_height torrents_per_page list_height)
      else Ret (focus self, scrollpos self) in
    let! t := getitemZ torrents focus' in
    Ret {| focus := focus'; scrollpos := scrollpos'; focused_id := VInt (Torrent.id t) |}
  else Ret self.

(** [{x['id'] for x in self.torrents}] *)
Definition ids_of (torrents : list Torrent.t) : gset Z :=
  list_to_set (Torrent.id <$> torrents).

(** [a.symmetric_difference(b)] *)
Definition symmetric_difference (a b : gset Z) : gset Z := (a ∖ b) ∪ (b ∖ a).

(** [def action_select_unselect_torrent(self, all_torrents=False,
    invert=False)]: [self.selected] and the focus afterwards. *)
Definition action_select_unselect_torrent (tlist_item_height torrents_per_page
  selected_torrent : Z) (all_torrents invert : bool) (torrents : list Torrent.t)
  (selected : gset Z) (self : interface) : res (gset Z * interface) :=
  if all_torrents then
    if bool_decide (selected <> ∅) then Ret (∅, self)
    else Ret (ids_of torrents, self)
  else if invert then Ret (symmetric_difference selected (ids_of torrents), self)
  else if negb (focus self =? -1) then
    let! t := getitemZ torrents (focus self) in
    let selected := symmetric_difference selected {[ Torrent.id t ]} in
    let! self := movement_keys tlist_item_height torrents_per_page selected_torrent
                               torrents "line_down" self in
    Ret (selected, self)
  else Ret (selected, self).

(** [def focus_next_after_delete(self)] *)
Definition focus_next_after_delete (torrents : list Torrent.t) (self : interface)
  : res interface :=
  let new_focus := Z.min (focus self + 1) (Z.of_nat (length torrents) - 2) in
  let! t := if negb (new_focus =? focus self) then getitemZ torrents new_focus
            else getitemZ torrents (new_focus + 1) in
  Ret {| focus := focus self; scrollpos := scrollpos self;
         focused_id := VInt (Torrent.id t) |}.

(** ** Movement in the details of a torrent *)

(** [list(range(a, b))] *)
Definition py_range (a b : Z) : list Z := seqZ a (b - a).

(** The visual mode of [movement_keys] in the file list: [selected_files]
    after a movement that left the focus on [focus_detaillist]. *)
Definition visual_mode (vmode_id focus_detaillist : Z) (selected_files : list Z) : list Z :=
  if vmode_id >? -1 then
    if vmode_id <? focus_detaillist then py_range vmode_id (focus_detaillist + 1)
    else py_range focus_detaillist (vmode_id + 1)
  else selected_files.

(** The movement of [movement_keys] in the lists of peers, trackers and
    pieces: [scrollpos_detaillist[details_category_focus]] afterwards,
    given the length of the list, the lines of a page of it, and
    [ppage], as the code before computes them for the category ([list_len
    = 0] and [ppage = 1] for the overview and the files). *)
Definition scroll_detaillist (action : string) (details_category_focus list_len
  lines_per_page ppage detaillines_per_page scrollpos : Z) : Z :=
  let scrollpos :=
    if negb (list_len =? 0) then
      if String.eqb action "line_up" then
        if scrollpos >? 0 then scrollpos - 1 else scrollpos
      else if String.eqb action "line_down" then
        if scrollpos <? list_len - 1 then scrollpos + 1 else scrollpos
      else if String.eqb action "page_up" then Z.max (scrollpos - lines_per_page - ppage) 0
      else if String.eqb action "page_down" then
        Z.min (list_len - 1) (scrollpos + lines_per_page)
      else if String.eqb action "home" then 0
      else if String.eqb action "end" then list_len - 1
      else scrollpos
    else scrollpos in
  if (details_category_focus =? 2) || (details_category_focus =? 4)
  then Z.min scrollpos (Z.max 0 (list_len - detaillines_per_page))
  else scrollpos.

(** The state the two actions below change: the category shown, the
    focus in its list, and whether the file list is to be rebuilt. *)
Record details_view : Type := {
  details_category_focus : Z;
  focus_detaillist : Z;
  filelist_needs_refresh : bool
}.

(** [def action_next_details(self)] *)
Definition action_next_details (self : details_view) : details_view :=
  let category :=
    if details_category_focus self >=? 4 then 0 else details_category_focus self + 1 in
  {| details_category_focus := category;
     focus_detaillist := -1;
     filelist_needs_refresh :=
       if category =? 1 then true else filelist_needs_refresh self |}.

(** [def action_prev_details(self)] *)
Definition action_prev_details (self : details_view) : details_view :=
  let category :=
    if details_category_focus self <=? 0 then 4 else details_category_focus self - 1 in
  {| details_category_focus := category;
     focus_detaillist := focus_detaillist self;
     filelist_needs_refresh :=
       if category =? 1 then true else filelist_needs_refresh self |}.

(** ** The sort orders of the configuration: [parse_sort_str] *)

(** The body of [for i in sort_str.split(',')]. *)
Definition parse_sort_item (orders : list string) (sort_orders : list SortOrder.t)
  (i : string) : res (list SortOrder.t) :=
  let x := split ":" i in
  let! reversed :=
    if (1 <? length x)%nat
    then let! x1 := getitem x 1 in Ret (bool_decide (x1 ∈ orders))
    else Ret false in
  if reversed then
    let! x1 := getitem x 1 in
    Ret (sort_orders ++ [ {| SortOrder.name := x1; SortOrder.reverse := true |} ])
  else
    let! x0 := getitem x 0 in
    if bool_decide (x0 ∈ orders)
    then Ret (sort_orders ++ [ {| SortOrder.name := x0; SortOrder.reverse := false |} ])
    else Ret sort_orders.

Fixpoint parse_sort_loop (orders : list string) (sort_orders : list SortOrder.t)
  (items : list string) : res (list SortOrder.t) :=
  match items with
  | [] => Ret sort_orders
  | i :: rest =>
      let! sort_orders := parse_sort_item orders sort_orders i in
      parse_sort_loop orders sort_orders rest
  end.

(** [def parse_sort_str(sort_str, orders)] *)
Definition parse_sort_str (sort_str : string) (orders : list string)
  : res (list SortOrder.t) :=
  let! sort_orders := parse_sort_loop orders [] (split "," sort_str) in
  match sort_orders with
  | [] => Ret [ {| SortOrder.name := "name"; SortOrder.reverse := false |} ]
  | _ => Ret sort_orders
  end.

(** A torrent with the given id, bandwidth priority and queue position,
    stopped and without trackers, to state examples with. *)
Definition plain_torrent (id bandwidthPriority queuePosition : Z) : Torrent.t :=
  {| Torrent.id := id; Torrent.name := "a"; Torrent.status := 0;
     Torrent.rateDownload := 0; Torrent.rateUpload := 0; Torrent.percentDone := 0;
     Torrent.isPrivate := false; Torrent.peersGettingFromUs := 0;
     Torrent.peersSendingToUs := 0; Torrent.isIsolated := false;
     Torrent.honorsSessionLimits := true; Torrent.mainTrackerDomain := None;
     Torrent.downloadDir := "/"; Torrent.labels := []; Torrent.group := "";
     Torrent.totalSize := 0; Torrent.sizeWhenDone := 0; Torrent.error := 0;
     Torrent.bandwidthPriority := bandwidthPriority;
     Torrent.queuePosition := queuePosition; Torrent.metadataPercentComplete := 1;
     Torrent.trackerStats := [] |}.

(** ** The lines of the file list *)

Section FilelistLines.

Variable create_filelist_line : string -> Z -> Q -> Z -> Z -> string.

(** What [create_filelist] has recorded for the files it went through:
    for the file with index [i], [filelist_cache_pos[i]] directory rows
    stand above its row, which is line [i + filelist_cache_pos[i]] of
    [filelist_cache], and [filelist_cache_pos_dict] leads from that line
    back to [i]. *)
Definition lines_recorded (files : list File.t) (st : filelist_state) : Prop :=
  index st = Z.of_nat (length files) /\
  Z.of_nat (length (filelist_cache st)) = index st + pos st /\
  length (filelist_cache_pos st) = length files /\
  (forall (i : nat) (p : Z), filelist_cache_pos st !! i = Some p -> 0 <= p <= pos st) /\
  forall (i : nat) (file : File.t),
    files !! i = Some file ->
    exists p : Z,
      filelist_cache_pos st !! i = Some p /\
      filelist_cache_pos_dict st !! (Z.of_nat i + p) = Some (Z.of_nat i) /\
      filelist_cache st !! Z.to_nat (Z.of_nat i + p)
      = Some (file_row create_filelist_line (Z.of_nat i) file).

End FilelistLines.

(** The lines of the file list that [create_filelist] returns for
    drawing: [start], [end] and [line_to_show], from the page height, the
    focus and the lists built before. *)
Definition filelist_window (detaillines_per_page focus_detaillist : Z)
  (filelist_cache : list string) (filelist_cache_pos : list Z) : res (Z * Z * Z) :=
  let len := Z.of_nat (length filelist_cache) in
  if focus_detaillist =? -1 then Ret (0, Z.min detaillines_per_page len, -1)
  else
    let! pos_before_focus := getitemZ filelist_cache_pos focus_detaillist in
    let line_to_show := focus_detaillist + pos_before_focus in
    let lines_before := detaillines_per_page / 2 in
    let start := if line_to_show >=? lines_before then line_to_show - lines_before else 0 in
    if len >=? start + detaillines_per_page
    then Ret (start, start + detaillines_per_page, line_to_show)
    else Ret (if len >=? detaillines_per_page then len - detaillines_per_page else 0,
              len, line_to_show).

(** ** The status of a torrent in words: [get_status] *)

(** [str(n)], which is also ['%d' % n], on an integer. *)
Definition str_int (n : Z) : string :=
  if n <? 0 then ("-" ++ decimal (- n))%string else decimal n.

(** [def get_status(self, torrent, narrow)], with the status codes in
    force. *)
Definition get_status (STATUS : Transmission.status_codes) (torrent : Torrent.t)
  (narrow : bool) : string :=
  let status := Torrent.status torrent in
  let metadata (suffix : string) : string :=
    if ltb (Torrent.metadataPercentComplete torrent) 1 then suffix else ""%string in
  if narrow then
    if status =? Transmission.STATUS_STOPPED STATUS then "P"
    else if status =? Transmission.STATUS_CHECK STATUS then "V"
    else if status =? Transmission.STATUS_CHECK_WAIT STATUS then "wV"
    else if Torrent.isIsolated torrent then "X"
    else if status =? Transmission.STATUS_DOWNLOAD STATUS then
      (if Torrent.rateDownload torrent >? 0 then "D" else "I") ++ metadata "M"
    else if status =? Transmission.STATUS_DOWNLOAD_WAIT STATUS then
      "wD" ++ str_int (Torrent.queuePosition torrent)
    else if status =? Transmission.STATUS_SEED STATUS then "S"
    else if status =? Transmission.STATUS_SEED_WAIT STATUS then
      "wS" ++ str_int (Torrent.queuePosition torrent)
    else "?"
  else
    if status =? Transmission.STATUS_STOPPED STATUS then "paused"
    else if status =? Transmission.STATUS_CHECK STATUS then "verifying"
    else if status =? Transmission.STATUS_CHECK_WAIT STATUS then "will verify"
    else if Torrent.isIsolated torrent then "isolated"
    else if status =? Transmission.STATUS_DOWNLOAD STATUS then
      (if Torrent.rateDownload torrent >? 0 then "downloading" else "idle")
      ++ metadata " metadata"
    else if status =? Transmission.STATUS_DOWNLOAD_WAIT STATUS then
      "will download (" ++ str_int (Torrent.queuePosition torrent) ++ ")"
    else if status =? Transmission.STATUS_SEED STATUS then "seeding"
    else if status =? Transmission.STATUS_SEED_WAIT STATUS then
      "will seed (" ++ str_int (Torrent.queuePosition torrent) ++ ")"
    else "unknown state".

(** ** Numbers with thousands separators: [num2str] *)

(** [s[::-1]] *)
Fixpoint string_rev (s : string) : string :=
  match s with
  | EmptyString => EmptyString
  | String c rest => (string_rev rest ++ String c EmptyString)%string
  end.

(** The class [\d] on ASCII text. *)
Definition is_digit (c : ascii) : bool :=
  let n := nat_of_ascii c in ((48 <=? n) && (n <=? 57))%nat.

(** [re.sub(r'(\d{3})', r'\g<1>,', s)]: from the left, each run of three
    digits is followed by a comma; the search goes on behind the run. *)
Fixpoint sub_3digits (s : string) : string :=
  match s with
  | EmptyString => s
  | String a s1 =>
      match s1 with
      | String b (String c rest) =>
          if is_digit a && is_digit b && is_digit c
          then String a (String b (String c (String "," (sub_3digits rest))))
          else String a (sub_3digits s1)
      | _ => s
      end
  end.

(** [s.lstrip(c)] for one character. *)
Fixpoint lstrip (c : ascii) (s : string) : string :=
  match s with
  | EmptyString => EmptyString
  | String x rest => if Ascii.eqb x c then lstrip c rest else s
  end.

(** [def num2str(num, num_format='%s')] on an integer, with the format
    left at its default. *)
Definition num2str (num : Z) : string :=
  if num =? -1 then "?"
  else if num =? -2 then "oo"
  else if num >? 999 then lstrip "," (string_rev (sub_3digits (string_rev (str_int num))))
  else str_int num.

(** * Theorems *)

(** ** Float comparisons against integer bounds *)

Section TrueDivision.

Variables (s k : Z).
Hypothesis k_pos : 0 < k.

Lemma truedivZ_pos : truedivZ s k = Ret (inject_Z s / inject_Z k)%Q.
Proof.
  unfold truedivZ, truediv.
  destruct (Qeq_bool (inject_Z k) 0) eqn:E; [|reflexivity].
  apply Qeq_bool_iff in E. unfold Qeq in E. simpl in E. lia.
Qed.

Lemma mod_pos : mod_ s k = Ret (s mod k).
Proof. unfold mod_. destruct (Z.eqb_spec k 0); [lia | reflexivity]. Qed.

Lemma Qdiv_le_Z (c : Z) :
  (inject_Z s / inject_Z k <= inject_Z c)%Q <-> s <= c * k.
Proof.
  destruct k as [|p|p]; try lia.
  unfold Qle, Qdiv, Qmult, Qinv, inject_Z; simpl. lia.
Qed.

Lemma Z_le_Qdiv (c : Z) :
  (inject_Z c <= inject_Z s / inject_Z k)%Q <-> c * k <= s.
Proof.
  destruct k as [|p|p]; try lia.
  unfold Qle, Qdiv, Qmult, Qinv, inject_Z; simpl. lia.
Qed.

(** [scrollpos / step_size - focus > 0] *)
Lemma gtb_div_minus (f : Z) :
  gtb (inject_Z s / inject_Z k - inject_Z f) 0 = (f * k <? s).
Proof.
  unfold gtb.
  destruct (Z.ltb_spec (f * k) s) as [H|H];
    destruct (Qle_bool _ _) eqn:E; try reflexivity; exfalso.
  - apply Qle_bool_iff in E.
    assert (E' : (inject_Z s / inject_Z k <= inject_Z f)%Q).
    { apply Qplus_le_l with (z := (- inject_Z f)%Q).
      rewrite Qplus_opp_r. exact E. }
    apply Qdiv_le_Z in E'. lia.
  - assert (E' : (inject_Z s / inject_Z k <= inject_Z f)%Q) by (apply Qdiv_le_Z; lia).
    assert (E2 : Qle_bool (inject_Z s / inject_Z k - inject_Z f) 0 = true).
    { apply Qle_bool_iff.
      apply Qplus_le_l with (z := inject_Z f). ring_simplify. exact E'. }
    congruence.
Qed.

(** [focus + 1 - scrollpos / step_size > elements_per_page] *)
Lemma gtb_minus_div (a p : Z) :
  gtb (inject_Z a - inject_Z s / inject_Z k) (inject_Z p) = (s <? (a - p) * k).
Proof.
  unfold gtb.
  assert (R : (inject_Z a - inject_Z s / inject_Z k <= inject_Z p)%Q <->
              (inject_Z (a - p) <= inject_Z s / inject_Z k)%Q).
  { unfold Z.sub at 1. rewrite inject_Z_plus, inject_Z_opp. split; intros H.
    - apply Qplus_le_l with (z := (inject_Z p - inject_Z s / inject_Z k)%Q).
      ring_simplify. ring_simplify in H. exact H.
    - apply Qplus_le_l with (z := (inject_Z s / inject_Z k - inject_Z p)%Q).
      ring_simplify. ring_simplify in H. exact H. }
  destruct (Z.ltb_spec s ((a - p) * k)) as [H|H];
    destruct (Qle_bool _ _) eqn:E; try reflexivity; exfalso.
  - apply Qle_bool_iff, R, Z_le_Qdiv in E. lia.
  - assert (E2 : Qle_bool (inject_Z a - inject_Z s / inject_Z k) (inject_Z p) = true).
    { apply Qle_bool_iff, R, Z_le_Qdiv. lia. }
    congruence.
Qed.

End TrueDivision.

(** ** The scroll and focus primitives *)

(** The [while] loop of [move_up] leaves the loop within [|step_size|]
    iterations: the unrolling in [move_up] is the loop itself. *)
Lemma align_loop_spec (k : Z) (fuel : nat) :
  k <> 0 ->
  forall s, s mod Z.abs k < Z.of_nat fuel ->
  align_loop fuel s k = s - s mod Z.abs k.
Proof.
  intros Hk. induction fuel as [|fuel IH]; intros s Hs.
  - pose proof (Z.mod_pos_bound s (Z.abs k)). lia.
  - cbn [align_loop].
    assert (Hdiv : s mod k = 0 <-> s mod Z.abs k = 0).
    { rewrite !Z.mod_divide by lia. symmetry. apply Z.divide_abs_l. }
    destruct (Z.eqb_spec (s mod k) 0) as [E|E].
    + apply Hdiv in E. lia.
    + assert (E' : s mod Z.abs k <> 0) by (intros X; apply E, Hdiv, X).
      pose proof (Z.mod_pos_bound s (Z.abs k) ltac:(lia)) as B.
      assert (M : (s - 1) mod Z.abs k = s mod Z.abs k - 1).
      { symmetry. apply Z.mod_unique with (q := s / Z.abs k); [lia|].
        pose proof (Z_div_mod_eq_full s (Z.abs k)). lia. }
      rewrite IH by lia. lia.
Qed.

Lemma align_loop_exits (s k : Z) :
  k <> 0 -> align_loop (Z.abs_nat k) s k mod k = 0.
Proof.
  intros Hk.
  pose proof (Z.mod_pos_bound s (Z.abs k) ltac:(lia)) as B.
  rewrite align_loop_spec by lia.
  apply Z.mod_divide; [lia|]. apply Z.divide_abs_l.
  apply Z.mod_divide; [lia|].
  rewrite Zminus_mod, Z.mod_mod, Z.sub_diag by lia. apply Z.mod_0_l. lia.
Qed.

Lemma align_loop_aligned (fuel : nat) (s k : Z) :
  s mod k = 0 -> align_loop fuel s k = s.
Proof. intros H. destruct fuel; cbn; [|rewrite H]; reflexivity. Qed.

Lemma aligned_multiple (s k : Z) : s mod k = 0 -> s = k * (s / k).
Proof. intros H. pose proof (Z_div_mod_eq_full s k). lia. Qed.

Lemma multiple_aligned (q k : Z) : (k * q) mod k = 0.
Proof. rewrite Z.mul_comm. apply Z_mod_mult. Qed.

Section ScrollInvariant.

Variables (step_size elements_per_page list_height : Z).
Hypothesis step_pos : 1 <= step_size.
Hypothesis page_pos : 1 <= elements_per_page.

Local Abbreviation inv := (scroll_inv step_size elements_per_page list_height).

Ltac multiple s :=
  let q := fresh "q" in
  let E := fresh "E" in
  match goal with
  | H : s mod step_size = 0 |- _ =>
      pose proof (aligned_multiple s step_size H) as E;
      set (q := s / step_size) in *; clearbody q; subst s; clear H
  end.

Lemma move_up_inv (focus scrollpos : Z) :
  inv (focus, scrollpos) -> 1 <= focus ->
  exists fs, move_up focus scrollpos step_size = Ret fs /\ inv fs.
Proof.
  intros (Hf & Hm & Hv) H1. unfold move_up.
  destruct (Z.ltb_spec focus 0); [lia|].
  rewrite truedivZ_pos by lia. cbn [bind].
  rewrite gtb_div_minus by lia. rewrite mod_pos by lia. cbn [bind].
  multiple scrollpos.
  destruct (Z.ltb_spec ((focus - 1) * step_size) (step_size * q)) as [L|L].
  - assert (q = focus) by nia. subst q.
    replace (Z.max 0 (step_size * focus - step_size))
      with (step_size * (focus - 1)) by nia.
    rewrite align_loop_aligned by apply multiple_aligned.
    eexists; split; [reflexivity|]. unfold scroll_inv.
    rewrite multiple_aligned. repeat split; nia.
  - rewrite align_loop_aligned by apply multiple_aligned.
    eexists; split; [reflexivity|]. unfold scroll_inv.
    rewrite multiple_aligned. repeat split; nia.
Qed.

Lemma move_up_from_top (scrollpos : Z) :
  inv (0, scrollpos) ->
  exists s', move_up 0 scrollpos step_size = Ret (-1, s').
Proof.
  intros _. unfold move_up. cbn [Z.ltb Z.compare].
  rewrite truedivZ_pos by lia. cbn [bind].
  rewrite mod_pos by lia. cbn [bind]. eexists; reflexivity.
Qed.

Lemma move_down_inv (focus scrollpos : Z) :
  inv (focus, scrollpos) ->
  exists fs, move_down focus scrollpos step_size elements_per_page list_height = Ret fs
             /\ inv fs.
Proof.
  intros (Hf & Hm & Hv). unfold move_down.
  destruct (Z.ltb_spec focus (list_height - 1)).
  - rewrite truedivZ_pos by lia. cbn [bind]. rewrite gtb_minus_div by lia.
    multiple scrollpos.
    destruct (Z.ltb_spec (step_size * q) ((focus + 1 + 1 - elements_per_page) * step_size)).
    + eexists; split; [reflexivity|]. unfold scroll_inv.
      replace (step_size * q + step_size) with (step_size * (q + 1)) by lia.
      rewrite multiple_aligned. repeat split; nia.
    + eexists; split; [reflexivity|]. unfold scroll_inv.
      rewrite multiple_aligned. repeat split; nia.
  - eexists; split; [reflexivity|]. unfold scroll_inv. auto.
Qed.

Lemma move_page_up_inv (focus scrollpos : Z) :
  inv (focus, scrollpos) ->
  inv (move_page_up focus scrollpos step_size elements_per_page).
Proof.
  intros (Hf & Hm & Hv). unfold move_page_up, scroll_inv.
  multiple scrollpos.
  replace (Z.max 0 (step_size * q - (elements_per_page - 1) * step_size))
    with (step_size * Z.max 0 (q - elements_per_page + 1)) by nia.
  rewrite multiple_aligned. repeat split; nia.
Qed.

Lemma move_page_down_inv (focus scrollpos : Z) :
  inv (focus, scrollpos) ->
  inv (move_page_down focus scrollpos step_size elements_per_page list_height).
Proof.
  intros (Hf & Hm & Hv). unfold move_page_down, scroll_inv.
  multiple scrollpos.
  destruct (Z.geb_spec (focus + (elements_per_page - 1)) list_height).
  - replace (step_size * q + (elements_per_page - 1) * step_size -
             (focus + (elements_per_page - 1) - list_height + 1) * step_size)
      with (step_size * (q - focus + list_height - 1)) by lia.
    rewrite multiple_aligned. repeat split; nia.
  - replace (step_size * q + (elements_per_page - 1) * step_size)
      with (step_size * (q + elements_per_page - 1)) by lia.
    rewrite multiple_aligned. repeat split; nia.
Qed.

Lemma move_to_end_inv :
  1 <= list_height ->
  inv (move_to_end step_size elements_per_page list_height).
Proof.
  intros Hn. unfold move_to_end, scroll_inv.
  replace (Z.max 0 ((list_height - elements_per_page) * step_size))
    with (step_size * Z.max 0 (list_height - elements_per_page)) by nia.
  rewrite multiple_aligned. repeat split; nia.
Qed.

End ScrollInvariant.

(** C4, as stated, fails: from the first row [move_up] leaves the list
    (focus [-1]), and a starting state whose focus is outside the visible
    band is not brought back into it by [move_down]. *)
Lemma scroll_invariant_needs_visible_start :
  (valid_start 1 1 (0, 0) /\
   move_up 0 0 1 = Ret (-1, 0) /\
   ~ scroll_inv 1 1 1 (-1, 0)) /\
  (valid_start 1 10 (5, 0) /\
   move_down 5 0 1 2 10 = Ret (6, 1) /\
   ~ scroll_inv 1 2 10 (6, 1)).
Proof.
  unfold valid_start, scroll_inv.
  repeat split; try reflexivity; try lia; cbn; lia.
Qed.

(** C4 (amended): with a step size and a page size of at least one, and a
    starting pair that itself satisfies the invariant, move-down,
    move-page-up, move-page-down and move-to-end return a pair that
    satisfies it; move-up does so from every row but the first, and from
    the first row it returns focus [-1]. *)
Theorem scroll_invariant_preserved :
  forall step_size elements_per_page list_height focus scrollpos : Z,
    1 <= step_size -> 1 <= elements_per_page ->
    scroll_inv step_size elements_per_page list_height (focus, scrollpos) ->
    (1 <= focus ->
     exists fs, move_up focus scrollpos step_size = Ret fs /\
                scroll_inv step_size elements_per_page list_height fs) /\
    (focus = 0 -> exists s', move_up focus scrollpos step_size = Ret (-1, s')) /\
    (exists fs, move_down focus scrollpos step_size elements_per_page list_height = Ret fs /\
                scroll_inv step_size elements_per_page list_height fs) /\
    scroll_inv step_size elements_per_page list_height
      (move_page_up focus scrollpos step_size elements_per_page) /\
    scroll_inv step_size elements_per_page list_height
      (move_page_down focus scrollpos step_size elements_per_page list_height) /\
    scroll_inv step_size elements_per_page list_height
      (move_to_end step_size elements_per_page list_height).
Proof.
  intros k p n f s Hk Hp Hinv.
  refine (conj _ (conj _ (conj _ (conj _ (conj _ _))))).
  - intros Hf. eapply move_up_inv; eauto.
  - intros ->. eapply move_up_from_top; eauto.
  - eapply move_down_inv; eauto.
  - apply move_page_up_inv; auto.
  - apply move_page_down_inv; auto.
  - apply move_to_end_inv; auto. destruct Hinv as [? _]. lia.
Qed.

(** The list view with two rows per item, three items per page and five
    items, focus on the second item. *)
Lemma scroll_invariant_preserved_witness :
  scroll_inv 2 3 5 (1, 0) /\
  scroll_inv 2 3 5 (move_page_down 1 0 2 3 5) /\
  scroll_inv 2 3 5 (move_to_end 2 3 5).
Proof.
  assert (H : scroll_inv 2 3 5 (1, 0)) by (unfold scroll_inv; repeat split; lia).
  split; [exact H|].
  pose proof (scroll_invariant_preserved 2 3 5 1 0 ltac:(lia) ltac:(lia) H)
    as (_ & _ & _ & _ & Hpd & Hend).
  split; assumption.
Defined.

(** ** [percent] *)

Lemma percent_total (full part : Q) : exists p, percent full part = Ret p.
Proof.
  unfold percent, truediv.
  destruct (Qeq_bool part 0); cbn; [eauto|].
  destruct (Qeq_bool (full / part) 0); cbn; eauto.
Qed.

Lemma percent_zero (full part : Q) :
  (full == 0)%Q \/ (part == 0)%Q -> percent full part = Ret 0%Q.
Proof.
  intros H. unfold percent, truediv.
  destruct (Qeq_bool part 0) eqn:Ep; cbn; [reflexivity|].
  destruct H as [H|H].
  - assert (E : Qeq_bool (full / part) 0 = true).
    { apply Qeq_bool_iff. rewrite H. unfold Qdiv. apply Qmult_0_l. }
    rewrite E. reflexivity.
  - apply Qeq_bool_iff in H. congruence.
Qed.


(** ** File priorities *)

Lemma getitem_Some {A} (l : list A) (i : nat) (x : A) :
  l !! i = Some x -> getitem l i = Ret x.
Proof. unfold getitem. now intros ->. Qed.

Section FilePriorities.

Variable c : details_cache.
Variables (n : nat) (w : bool) (p : Z).
Hypothesis wanted_n : wanted c !! n = Some w.
Hypothesis priority_n : priorities c !! n = Some p.

Lemma get_file_priority_n :
  get_file_priority c n =
  Ret (if negb w then "off"%string else if p <=? -1 then "low"%string
       else if p =? 0 then "normal"%string else "high"%string).
Proof.
  unfold get_file_priority.
  rewrite (getitem_Some _ _ _ priority_n), (getitem_Some _ _ _ wanted_n). cbn.
  destruct w; cbn; [|reflexivity].
  destruct (p <=? -1); [reflexivity|]. destruct (p =? 0); reflexivity.
Qed.

(** The encoding of a selected file after the service has applied a
    request of [set_file_priority]. *)
Lemma get_file_priority_after (nums : list nat) (priority : string) :
  n ∈ nums ->
  priority ∈ ["low"; "normal"; "high"; "off"]%string ->
  get_file_priority (rpc_torrent_set (set_file_priority (id c) nums priority) c) n
  = Ret (if String.eqb priority "off" then "off"%string else priority).
Proof.
  intros Hn Hp. unfold get_file_priority, rpc_torrent_set. cbn [wanted priorities].
  erewrite !getitem_Some
    by (rewrite list_lookup_imap; first [rewrite priority_n | rewrite wanted_n]; reflexivity).
  cbn [bind].
  assert (Hin : bool_decide (Z.of_nat n ∈ Z.of_nat <$> nums) = true)
    by (apply bool_decide_eq_true_2, list_elem_of_fmap; eauto).
  repeat (apply elem_of_cons in Hp as [-> | Hp]); [..|inversion Hp];
    unfold listed, set_file_priority; cbn; simplify_map_eq; rewrite ?Hin; reflexivity.
Qed.

(** Raising a single file: unwanted becomes low, low becomes normal, normal
    becomes high, and high stays. *)
Lemma increase_single :
  -1 <= p <= 1 ->
  exists r, increase_file_priority c [n] = Ret r /\
    get_file_priority (after_request c r) n =
    Ret (if negb w then "low"%string
         else if p =? -1 then "normal"%string else "high"%string).
Proof.
  intros Hp. unfold increase_file_priority.
  change (getitem [n] 0%nat) with (Ret n). cbn [bind increase_ref].
  rewrite (getitem_Some _ _ _ wanted_n). cbn [bind].
  destruct (negb w) eqn:Ew; cbn [bind]; cycle 1.
  - rewrite !(getitem_Some _ _ _ priority_n). cbn [bind].
    rewrite Z.ltb_irrefl. cbn [bind].
    rewrite !(getitem_Some _ _ _ priority_n), (getitem_Some _ _ _ wanted_n). cbn [bind].
    rewrite Ew.
    destruct (Z.eqb_spec p (-1)); [|destruct (Z.eqb_spec p 0)];
      eexists; (split; [reflexivity|]); cbn [after_request].
    + apply get_file_priority_after; repeat constructor.
    + apply get_file_priority_after; repeat constructor.
    + rewrite get_file_priority_n, Ew.
      destruct (Z.leb_spec p (-1)); [lia|]. destruct (Z.eqb_spec p 0); [lia|reflexivity].
  - rewrite !(getitem_Some _ _ _ priority_n), (getitem_Some _ _ _ wanted_n). cbn [bind].
    rewrite Ew. eexists; split; [reflexivity|]. cbn [after_request].
    apply get_file_priority_after; repeat constructor.
Qed.

(** Lowering a single file looks at the priority only: high becomes normal,
    normal becomes low and low becomes unwanted, whatever the wanted flag. *)
Lemma decrease_single :
  -1 <= p <= 1 ->
  exists r, decrease_file_priority c [n] = Ret (Some r) /\
    get_file_priority (after_request c (Some r)) n =
    Ret (if p =? 1 then "normal"%string else if p =? 0 then "low"%string
         else "off"%string).
Proof.
  intros Hp. unfold decrease_file_priority.
  change (getitem [n] 0%nat) with (Ret n). cbn [bind decrease_ref].
  rewrite !(getitem_Some _ _ _ priority_n). cbn [bind].
  rewrite Z.gtb_ltb, Z.ltb_irrefl. cbn [bind].
  rewrite !(getitem_Some _ _ _ priority_n). cbn [bind].
  destruct (Z.geb_spec p 1); [|destruct (Z.eqb_spec p 0); [|destruct (Z.eqb_spec p (-1))]];
    try lia; eexists; (split; [reflexivity|]); cbn [after_request];
    rewrite get_file_priority_after by repeat constructor.
  - destruct (Z.eqb_spec p 1); [reflexivity|lia].
  - subst p. reflexivity.
  - subst p. reflexivity.
Qed.

(** The representative of a raise is a selected file; it is unwanted as
    soon as one selected file is, and otherwise no selected file has a
    lower priority. *)
Lemma increase_ref_spec (nums : list nat) :
  forall ref0 : nat,
  (forall m, m ∈ ref0 :: nums ->
             is_Some (wanted c !! m) /\ is_Some (priorities c !! m)) ->
  exists r, increase_ref c nums ref0 = Ret r /\ r ∈ ref0 :: nums /\
    ((exists m, m ∈ nums /\ wanted c !! m = Some false) ->
     wanted c !! r = Some false) /\
    ((forall m, m ∈ nums -> wanted c !! m = Some true) ->
     forall m pm pr, m ∈ ref0 :: nums ->
       priorities c !! m = Some pm -> priorities c !! r = Some pr -> pr <= pm).
Proof.
  induction nums as [|num rest IH]; intros ref0 Hrange.
  - exists ref0. cbn. repeat split.
    + constructor.
    + intros (m & Hm & _). inversion Hm.
    + intros _ m pm pr Hm Em Er. apply list_elem_of_singleton in Hm. subst m.
      rewrite Em in Er. injection Er as <-. lia.
  - destruct (Hrange num) as [[wn Hwn] [pn Hpn]]; [repeat constructor|].
    destruct (Hrange ref0) as [_ [p0 Hp0]]; [constructor|].
    cbn [increase_ref].
    rewrite (getitem_Some _ _ _ Hwn). cbn [bind].
    destruct wn; cbn [negb].
    2:{ exists num. repeat split; [repeat constructor|auto|].
        intros Hall. rewrite (Hall num) in Hwn by constructor. discriminate. }
    rewrite (getitem_Some _ _ _ Hpn), (getitem_Some _ _ _ Hp0). cbn [bind].
    destruct (Z.ltb_spec pn p0) as [Hlt|Hge].
    + destruct (IH num) as (r & Hr & Hin & Hunw & Hmin).
      { intros m Hm. apply Hrange. now constructor. }
      exists r. repeat split; [exact Hr|now constructor| |].
      * intros (m & Hm & Em). apply Hunw. exists m. split; [|exact Em].
        apply elem_of_cons in Hm as [->|Hm]; [congruence|exact Hm].
      * intros Hall m pm pr Hm Em Er.
        assert (Hall' : forall m, m ∈ rest -> wanted c !! m = Some true)
          by (intros; apply Hall; now constructor).
        apply elem_of_cons in Hm as [->|Hm].
        -- pose proof (Hmin Hall' num pn pr ltac:(constructor) Hpn Er).
           rewrite Hp0 in Em. injection Em as <-. lia.
        -- eapply Hmin; eauto.
    + destruct (IH ref0) as (r & Hr & Hin & Hunw & Hmin).
      { intros m Hm. apply Hrange.
        apply elem_of_cons in Hm as [->|Hm]; [constructor|now do 2 constructor]. }
      exists r. repeat split; [exact Hr| | |].
      * apply elem_of_cons in Hin as [->|Hin]; [constructor|now do 2 constructor].
      * intros (m & Hm & Em). apply Hunw. exists m. split; [|exact Em].
        apply elem_of_cons in Hm as [->|Hm]; [congruence|exact Hm].
      * intros Hall m pm pr Hm Em Er.
        assert (Hall' : forall m, m ∈ rest -> wanted c !! m = Some true)
          by (intros; apply Hall; now constructor).
        apply elem_of_cons in Hm as [->|Hm];
          [exact (Hmin Hall' ref0 pm pr ltac:(constructor) Em Er)|].
        apply elem_of_cons in Hm as [->|Hm];
          [|exact (Hmin Hall' m pm pr ltac:(now constructor) Em Er)].
        pose proof (Hmin Hall' ref0 p0 pr ltac:(constructor) Hp0 Er).
        rewrite Hpn in Em. injection Em as <-. lia.
Qed.

End FilePriorities.

(** C6: lowering the priority of a file that is unwanted with a stored
    priority of normal sends [files-wanted] and [priority-low]: the file,
    shown as ["off"] before, is wanted again with low priority after. *)
Theorem decrease_unwanted_file_makes_it_wanted :
  let c := {| id := 1; wanted := [false]; priorities := [0] |} in
  get_file_priority c 0 = Ret "off"%string /\
  decrease_file_priority c [0%nat] = Ret (Some (set_file_priority 1 [0%nat] "low")) /\
  set_file_priority 1 [0%nat] "low" !! "files-wanted"%string = Some [0] /\
  after_request c (Some (set_file_priority 1 [0%nat] "low"))
    = {| id := 1; wanted := [true]; priorities := [-1] |} /\
  get_file_priority (after_request c (Some (set_file_priority 1 [0%nat] "low"))) 0
    = Ret "low"%string.
Proof. repeat split; vm_compute; reflexivity. Qed.


(** ** Directory rows of the file list *)

Lemma split_length (sep : ascii) (s : string) : (1 <= length (split sep s))%nat.
Proof.
  induction s as [|ch s IH]; cbn; [lia|].
  destruct (Ascii.eqb ch sep); cbn; [lia|].
  destruct (split sep s); cbn in *; lia.
Qed.

Lemma folder_of_length (f : list string) :
  (1 <= length f)%nat -> Z.of_nat (length (folder_of f)) = f_len f.
Proof. intros H. unfold folder_of, f_len. rewrite length_take. lia. Qed.

Lemma folder_of_lookup (f : list string) (i : nat) :
  (i < length (folder_of f))%nat -> f !! i = folder_of f !! i.
Proof.
  intros H. unfold folder_of in *. rewrite lookup_take_lt; [reflexivity|].
  rewrite length_take in H. lia.
Qed.

Lemma getitemZ_last (f : list string) :
  (1 <= length f)%nat -> getitemZ f (-1) = Ret (List.last f EmptyString).
Proof.
  intros H. unfold getitemZ. cbn [Z.ltb Z.compare].
  destruct (Z.leb_spec 0 (Z.of_nat (length f) + -1)); [|lia].
  destruct (Z.ltb_spec (Z.of_nat (length f) + -1) (Z.of_nat (length f))); [|lia].
  cbn [andb]. unfold getitem.
  replace (Z.to_nat (Z.of_nat (length f) + -1)) with (pred (length f)) by lia.
  rewrite <- last_lookup.
  destruct (last f) as [x|] eqn:E.
  - apply last_Some in E as [l' ->]. now rewrite List.last_last.
  - apply last_None in E. subst f. cbn in H. lia.
Qed.

Lemma shared_segments_nil_r (folder : list string) : shared_segments folder [] = O.
Proof. destruct folder; reflexivity. Qed.

Lemma shared_segments_le (folder previous : list string) :
  (shared_segments folder previous <= length folder)%nat /\
  (shared_segments folder previous <= length previous)%nat.
Proof.
  revert previous. induction folder as [|x folder IH]; intros [|y previous]; cbn; try lia.
  destruct (String.eqb x y); [|lia]. specialize (IH previous). lia.
Qed.

Lemma shared_segments_diag (folder : list string) :
  shared_segments folder folder = length folder.
Proof.
  induction folder as [|x folder IH]; cbn; [reflexivity|].
  now rewrite String.eqb_refl, IH.
Qed.

Lemma shared_segments_prefix (folder rest : list string) :
  shared_segments folder (folder ++ rest) = length folder.
Proof.
  induction folder as [|x folder IH]; cbn; [reflexivity|].
  now rewrite String.eqb_refl, IH.
Qed.

(** The counting loop computes the number of shared leading segments. *)
Lemma same_loop_spec (f previous : list string) (fuel : nat) :
  (1 <= length f)%nat ->
  forall same : nat,
    (length previous - same <= fuel)%nat ->
    same_loop fuel f previous same
    = (same + shared_segments (drop same (folder_of f)) (drop same previous))%nat.
Proof.
  intros Hf. pose proof (folder_of_length f Hf) as Hlen.
  induction fuel as [|fuel IH]; intros same Hfuel; cbn [same_loop].
  - rewrite (drop_ge previous) by lia. rewrite shared_segments_nil_r. lia.
  - destruct (Nat.ltb_spec same (length previous)) as [Hp|Hp]; cbn [andb].
    2:{ rewrite (drop_ge previous) by lia. rewrite shared_segments_nil_r. lia. }
    destruct (Z.ltb_spec (Z.of_nat same) (f_len f)) as [Hd|Hd]; cbn [andb].
    2:{ rewrite (drop_ge (folder_of f)) by lia. cbn. lia. }
    assert (Hd' : (same < length (folder_of f))%nat) by lia.
    rewrite (folder_of_lookup f same Hd').
    destruct (lookup_lt_is_Some_2 _ _ Hd') as [x Hx].
    destruct (lookup_lt_is_Some_2 _ _ Hp) as [y Hy].
    rewrite (drop_S _ _ _ Hx), (drop_S _ _ _ Hy). cbn [shared_segments].
    rewrite Hx, Hy.
    destruct (String.eqb_spec x y) as [->|Hne].
    + rewrite bool_decide_eq_true_2 by reflexivity.
      rewrite IH by lia. lia.
    + rewrite bool_decide_eq_false_2 by congruence. lia.
Qed.

(** The appending loop adds one row for each remaining segment. *)
Lemma header_loop_spec (f : list string) (fuel : nat) :
  (1 <= length f)%nat ->
  forall (depth : nat) (filelist : list string) (pos : Z),
    (depth <= length (folder_of f))%nat ->
    (length (folder_of f) - depth <= fuel)%nat ->
    header_loop fuel f filelist (Z.of_nat depth) pos
    = Ret (filelist ++ imap (fun j seg => directory_row (Z.of_nat (depth + j)) seg)
                            (drop depth (folder_of f)),
           f_len f,
           pos + (f_len f - Z.of_nat depth)).
Proof.
  intros Hf. pose proof (folder_of_length f Hf) as Hlen.
  induction fuel as [|fuel IH]; intros depth filelist pos Hd Hfuel; cbn [header_loop].
  - rewrite drop_ge by lia. cbn. rewrite app_nil_r. repeat f_equal; lia.
  - destruct (Z.ltb_spec (Z.of_nat depth) (f_len f)) as [Hlt|Hge].
    + assert (Hd' : (depth < length (folder_of f))%nat) by lia.
      destruct (lookup_lt_is_Some_2 _ _ Hd') as [x Hx].
      assert (Hget : getitemZ f (Z.of_nat depth) = Ret x).
      { unfold getitemZ. destruct (Z.ltb_spec (Z.of_nat depth) 0); [lia|].
        destruct (Z.leb_spec 0 (Z.of_nat depth)); [|lia].
        destruct (Z.ltb_spec (Z.of_nat depth) (Z.of_nat (length f)));
          [|unfold f_len in *; lia].
        cbn [andb]. rewrite Nat2Z.id. unfold getitem.
        now rewrite (folder_of_lookup f depth Hd'), Hx. }
      rewrite Hget. cbn [bind].
      replace (Z.of_nat depth + 1) with (Z.of_nat (S depth)) by lia.
      rewrite IH by lia.
      rewrite (drop_S _ _ _ Hx). cbn [imap]. rewrite <- app_assoc. cbn [app].
      rewrite Nat.add_0_r.
      f_equal. f_equal; [|lia]. f_equal. f_equal. f_equal.
      apply imap_ext. intros j seg _. cbn. f_equal. lia.
    + rewrite drop_ge by lia. cbn. rewrite app_nil_r. repeat f_equal; lia.
Qed.

Lemma entered_rows_length (previous folder : list string) :
  length (entered_rows previous folder)
  = (length folder - shared_segments folder previous)%nat.
Proof. unfold entered_rows. now rewrite length_imap, length_drop. Qed.

(** A transition from a folder at its own depth appends exactly the rows
    of the segments entered, and ends at the depth of the new folder. *)
Lemma create_filelist_transition_spec (f previous filelist : list string) (pos : Z) :
  (1 <= length f)%nat ->
  create_filelist_transition f previous filelist (Z.of_nat (length previous)) pos
  = Ret (filelist ++ entered_rows previous (folder_of f),
         f_len f,
         pos + Z.of_nat (length (entered_rows previous (folder_of f)))).
Proof.
  intros Hf. pose proof (folder_of_length f Hf) as Hlen.
  unfold create_filelist_transition.
  rewrite same_loop_spec by (auto; lia). rewrite !drop_0. cbn [Nat.add].
  pose proof (shared_segments_le (folder_of f) previous) as [Hs1 Hs2].
  rewrite entered_rows_length. unfold entered_rows.
  set (same := shared_segments (folder_of f) previous) in *.
  replace (Z.of_nat (length previous)
           - Z.max 0 (Z.of_nat (length previous) - Z.of_nat same))
    with (Z.of_nat same) by lia.
  destruct (Z.ltb_spec (f_len f) (Z.of_nat (length previous))) as [H1|H1];
    destruct (Z.eqb_spec (f_len f) (Z.of_nat same)) as [H2|H2]; cbn [andb].
  - rewrite drop_ge by lia. cbn. rewrite app_nil_r. repeat f_equal; lia.
  - rewrite header_loop_spec by (auto; lia). repeat f_equal; lia.
  - rewrite header_loop_spec by (auto; lia). repeat f_equal; lia.
  - rewrite header_loop_spec by (auto; lia). repeat f_equal; lia.
Qed.

(** Leaving folders without entering a new one adds no row. *)
Lemma entered_rows_leaving (folder left : list string) :
  entered_rows (folder ++ left) folder = [].
Proof.
  unfold entered_rows. rewrite shared_segments_prefix, drop_all. reflexivity.
Qed.

Section FilelistRowsFacts.

Variable create_filelist_line : string -> Z -> Q -> Z -> Z -> string.

Lemma create_filelist_step_spec (st : filelist_state) (file : File.t) :
  current_depth st = Z.of_nat (length (current_folder st)) ->
  exists st',
    create_filelist_step create_filelist_line st file = Ret st' /\
    filelist_cache st' =
      filelist_cache st
      ++ entered_rows (current_folder st) (folder_of (split "/" (File.name file)))
      ++ [file_row create_filelist_line (index st) file] /\
    current_folder st' = folder_of (split "/" (File.name file)) /\
    current_depth st' = Z.of_nat (length (current_folder st')) /\
    index st' = index st + 1.
Proof.
  intros Hdepth. unfold create_filelist_step, file_row.
  pose proof (split_length "/" (File.name file)) as Hf.
  set (f := split "/" (File.name file)) in *.
  rewrite getitemZ_last by exact Hf.
  destruct (percent_total (inject_Z (File.length file))
              (inject_Z (File.bytesCompleted file))) as [pc ->].
  destruct (decide (folder_of f = current_folder st)) as [E|E].
  - rewrite bool_decide_eq_false_2 by tauto. cbn [bind].
    eexists; split; [reflexivity|]. cbn.
    rewrite Hdepth, <- E. unfold entered_rows.
    rewrite shared_segments_diag, drop_all. cbn [imap app].
    rewrite folder_of_length by exact Hf. auto.
  - rewrite bool_decide_eq_true_2 by exact E.
    rewrite Hdepth, create_filelist_transition_spec by exact Hf. cbn [bind].
    eexists; split; [reflexivity|]. cbn.
    rewrite <- app_assoc, folder_of_length by exact Hf. auto.
Qed.

Lemma create_filelist_loop_spec (files : list File.t) :
  forall st : filelist_state,
    current_depth st = Z.of_nat (length (current_folder st)) ->
    exists st',
      create_filelist_loop create_filelist_line st files = Ret st' /\
      filelist_cache st' =
        filelist_cache st
        ++ rows_from create_filelist_line (current_folder st) (index st) files.
Proof.
  induction files as [|file rest IH]; intros st Hdepth; cbn [create_filelist_loop rows_from].
  - exists st. now rewrite app_nil_r.
  - destruct (create_filelist_step_spec st file Hdepth)
      as (st1 & -> & Hcache & Hfolder & Hdepth1 & Hindex).
    cbn [bind].
    destruct (IH st1 Hdepth1) as (st' & -> & Hcache').
    exists st'. split; [reflexivity|].
    rewrite Hcache', Hcache, Hfolder, Hindex, <- !app_assoc. reflexivity.
Qed.

End FilelistRowsFacts.


(** ** Focus tracking *)

Section FollowLoops.

Variables (h : Z).
Hypothesis h_pos : 1 <= h.

Lemma ltb_focus_div (f s : Z) :
  ltb (inject_Z f) (inject_Z s / inject_Z h) = (f * h <? s).
Proof.
  unfold ltb.
  destruct (Z.ltb_spec (f * h) s) as [H|H];
    destruct (Qle_bool _ _) eqn:E; try reflexivity; exfalso.
  - apply Qle_bool_iff in E. apply (Qdiv_le_Z s h ltac:(lia) f) in E. lia.
  - assert (E2 : Qle_bool (inject_Z s / inject_Z h) (inject_Z f) = true)
      by (apply Qle_bool_iff, (Qdiv_le_Z s h ltac:(lia) f); lia).
    congruence.
Qed.

Lemma gtb_focus_div (f s p : Z) :
  gtb (inject_Z f) (inject_Z s / inject_Z h + inject_Z p - 1)
  = (s <? (f - p + 1) * h).
Proof.
  unfold gtb.
  assert (R : (inject_Z f <= inject_Z s / inject_Z h + inject_Z p - 1)%Q <->
              (inject_Z (f - p + 1) <= inject_Z s / inject_Z h)%Q).
  { unfold Z.sub. rewrite !inject_Z_plus, inject_Z_opp.
    change (inject_Z 1) with 1%Q.
    set (q := (inject_Z s / inject_Z h)%Q). clearbody q. split; intros H; lra. }
  destruct (Z.ltb_spec s ((f - p + 1) * h)) as [H|H];
    destruct (Qle_bool _ _) eqn:E; try reflexivity; exfalso.
  - apply Qle_bool_iff, R in E. apply (Z_le_Qdiv s h ltac:(lia)) in E. lia.
  - assert (E2 : Qle_bool (inject_Z f) (inject_Z s / inject_Z h + inject_Z p - 1) = true)
      by (apply Qle_bool_iff, R, (Z_le_Qdiv s h ltac:(lia)); lia).
    congruence.
Qed.

(** The first loop stops after the least number of steps that bring the
    window start to the focus or above it. *)
Lemma above_loop_spec (f : Z) (fuel : nat) :
  forall s : Z,
    s - f * h <= Z.of_nat fuel * h ->
    exists j : nat,
      above_loop fuel f s h = Ret (s - Z.of_nat j * h) /\
      least_steps (fun j => s - Z.of_nat j * h <= f * h) j.
Proof.
  induction fuel as [|fuel IH]; intros s Hfuel; cbn [above_loop];
    [|rewrite Nat2Z.inj_succ, Z.mul_succ_l in Hfuel].
  - exists O. split; [f_equal; lia|]. split; [lia|]. intros i Hi. lia.
  - rewrite truedivZ_pos by lia. cbn [bind]. rewrite ltb_focus_div.
    destruct (Z.ltb_spec (f * h) s) as [Hlt|Hge].
    + destruct (IH (s - h)) as (j & Hj & Hok & Hleast); [lia|].
      exists (S j). rewrite Nat2Z.inj_succ, Z.mul_succ_l.
      split; [rewrite Hj; f_equal; lia|]. split; [lia|].
      intros [|i] Hi; [lia|]. specialize (Hleast i ltac:(lia)).
      rewrite Nat2Z.inj_succ, Z.mul_succ_l. lia.
    + exists O. split; [f_equal; lia|]. split; [lia|]. intros i Hi. lia.
Qed.

(** The second loop stops after the least number of steps that bring the
    window end to the focus or below it. *)
Lemma below_loop_spec (f p : Z) (fuel : nat) :
  forall s : Z,
    (f - p + 1) * h - s <= Z.of_nat fuel * h ->
    exists j : nat,
      below_loop fuel f s h p = Ret (s + Z.of_nat j * h) /\
      least_steps (fun j => f * h <= s + Z.of_nat j * h + (p - 1) * h) j.
Proof.
  induction fuel as [|fuel IH]; intros s Hfuel; cbn [below_loop];
    [|rewrite Nat2Z.inj_succ, Z.mul_succ_l in Hfuel].
  - exists O. split; [f_equal; lia|]. split; [lia|]. intros i Hi. lia.
  - rewrite truedivZ_pos by lia. cbn [bind]. rewrite gtb_focus_div.
    destruct (Z.ltb_spec s ((f - p + 1) * h)) as [Hlt|Hge].
    + destruct (IH (s + h)) as (j & Hj & Hok & Hleast); [lia|].
      exists (S j). rewrite Nat2Z.inj_succ, Z.mul_succ_l.
      split; [rewrite Hj; f_equal; lia|]. split; [lia|].
      intros [|i] Hi; [lia|]. specialize (Hleast i ltac:(lia)).
      rewrite Nat2Z.inj_succ, Z.mul_succ_l. lia.
    + exists O. split; [f_equal; lia|]. split; [lia|]. intros i Hi. lia.
Qed.

Lemma above_fuel_enough (f s : Z) : s - f * h <= Z.of_nat (above_fuel f s) * h.
Proof. unfold above_fuel. nia. Qed.

Lemma below_fuel_enough (f s p : Z) :
  (f - p + 1) * h - s <= Z.of_nat (below_fuel f s p) * h.
Proof. unfold below_fuel. nia. Qed.

End FollowLoops.

Lemma dict_get_Some {V} (d : gmap string V) (key : string) (v : V) :
  d !! key = Some v -> dict_get d key = Ret v.
Proof. unfold dict_get. now intros ->. Qed.

Lemma comprehension_ids (torrents : list torrent) :
  with_ids torrents ->
  exists ids, comprehension (fun t => dict_get t "id") torrents = Ret ids /\
              forall x, x ∈ ids <-> present x torrents.
Proof.
  induction 1 as [|t torrents [v Hv] _ (ids & IH & Hids)]; cbn [comprehension].
  - exists []. split; [reflexivity|]. intros x. split.
    + intros Hx. inversion Hx.
    + intros (i & t & Hi & _). rewrite lookup_nil in Hi. discriminate.
  - rewrite (dict_get_Some _ _ _ Hv), IH. cbn [bind].
    exists (v :: ids). split; [reflexivity|]. intros x.
    rewrite elem_of_cons, Hids. split.
    + intros [->|(i & t' & Hi & Ht')].
      * exists O, t. auto.
      * exists (S i), t'. auto.
    + intros ([|i] & t' & Hi & Ht'); cbn in Hi.
      * injection Hi as <-. left. congruence.
      * right. exists i, t'. auto.
Qed.

Lemma find_focused_spec (x : value) (torrents : list torrent) :
  with_ids torrents -> present x torrents ->
  forall i focus0 : Z,
  exists (k : nat) (t : torrent),
    find_focused torrents x i focus0 = Ret (i + Z.of_nat k) /\
    torrents !! k = Some t /\ t !! "id"%string = Some x.
Proof.
  induction 1 as [|t torrents [v Hv] Hwf IH]; intros Hpres i focus0.
  - destruct Hpres as (k & t & Hk & _). rewrite lookup_nil in Hk. discriminate.
  - cbn [find_focused]. rewrite (dict_get_Some _ _ _ Hv). cbn [bind].
    destruct (decide (v = x)) as [->|Hne].
    + rewrite bool_decide_eq_true_2 by reflexivity.
      exists O, t. split; [f_equal; lia|]. auto.
    + rewrite bool_decide_eq_false_2 by exact Hne.
      assert (Hpres' : present x torrents).
      { destruct Hpres as ([|k] & t' & Hk & Ht'); cbn in Hk.
        - injection Hk as <-. congruence.
        - exists k, t'. auto. }
      destruct (IH Hpres' (i + 1) focus0) as (k & t' & Hfind & Hk & Ht').
      exists (S k), t'. split; [rewrite Hfind; f_equal; lia|]. auto.
Qed.

Section FollowListFocus.

Variables (h p : Z).
Hypothesis h_pos : 1 <= h.

Variable torrents : list torrent.
Hypothesis torrents_ids : with_ids torrents.

Lemma follow_absent (self : interface) :
  ~ present (focused_id self) torrents ->
  exists self',
    follow_list_focus h p torrents self = Ret self' /\
    focus self' = -1 /\
    focused_id self' = focused_id self /\
    (focus self <> -1 -> scrollpos self' = 0).
Proof.
  intros Habs. unfold follow_list_focus.
  destruct (Z.eqb_spec (focus self) (-1)) as [E|E].
  - exists self. repeat split; auto. intros; congruence.
  - destruct (comprehension_ids torrents torrents_ids) as (ids & -> & Hids).
    cbn [bind].
    rewrite (bool_decide_eq_false_2 (focused_id self ∈ ids))
      by (rewrite Hids; exact Habs).
    cbn [negb]. rewrite orb_true_r.
    eexists; split; [reflexivity|]. cbn. auto.
Qed.

Lemma follow_present (self : interface) :
  0 <= focus self ->
  present (focused_id self) torrents ->
  exists (self' : interface) (j1 j2 : nat),
    follow_list_focus h p torrents self = Ret self' /\
    focused_id self' = focused_id self /\
    focus_on torrents self' (focused_id self) /\
    least_steps (fun j => scrollpos self - Z.of_nat j * h <= focus self' * h) j1 /\
    least_steps (fun j => focus self' * h
                          <= scrollpos self - Z.of_nat j1 * h + Z.of_nat j * h
                             + (p - 1) * h) j2 /\
    scrollpos self' =
      Z.max 0 (Z.min (scrollpos self - Z.of_nat j1 * h + Z.of_nat j2 * h)
                     ((Z.of_nat (length torrents) - p) * h)).
Proof.
  intros Hfocus Hpres. unfold follow_list_focus.
  destruct (Z.eqb_spec (focus self) (-1)) as [E|_]; [lia|].
  destruct (comprehension_ids torrents torrents_ids) as (ids & -> & Hids).
  cbn [bind].
  rewrite (bool_decide_eq_true_2 (focused_id self ∈ ids))
    by (rewrite Hids; exact Hpres).
  assert (Hlen : (1 <= length torrents)%nat).
  { destruct Hpres as (i & t & Hi & _). apply lookup_lt_Some in Hi. lia. }
  destruct (Z.eqb_spec (Z.of_nat (length torrents)) 0) as [E|_]; [lia|].
  cbn [negb orb].
  set (focus0 := Z.min (focus self) (Z.of_nat (length torrents) - 1)).
  assert (Hf0 : 0 <= focus0 < Z.of_nat (length torrents)) by lia.
  destruct (lookup_lt_is_Some_2 torrents (Z.to_nat focus0) ltac:(lia)) as [t0 Ht0].
  assert (Hget : getitemZ torrents focus0 = Ret t0).
  { unfold getitemZ. destruct (Z.ltb_spec focus0 0); [lia|].
    destruct (Z.leb_spec 0 focus0); [|lia].
    destruct (Z.ltb_spec focus0 (Z.of_nat (length torrents))); [|lia].
    cbn [andb]. unfold getitem. now rewrite Ht0. }
  rewrite Hget. cbn [bind].
  destruct (proj1 (Forall_lookup _ _) torrents_ids _ _ Ht0) as [v0 Hv0].
  rewrite (dict_get_Some _ _ _ Hv0). cbn [bind].
  assert (Hfound : exists focus1 : Z,
    (if negb (bool_decide (v0 = focused_id self))
     then find_focused torrents (focused_id self) 0 focus0
     else Ret focus0) = Ret focus1 /\
    0 <= focus1 /\
    exists t, torrents !! Z.to_nat focus1 = Some t /\
              t !! "id"%string = Some (focused_id self)).
  { destruct (decide (v0 = focused_id self)) as [Ev|Ev].
    - rewrite bool_decide_eq_true_2 by exact Ev. cbn [negb].
      exists focus0. split; [reflexivity|]. split; [lia|].
      exists t0. split; [exact Ht0|congruence].
    - rewrite bool_decide_eq_false_2 by exact Ev. cbn [negb].
      destruct (find_focused_spec _ _ torrents_ids Hpres 0 focus0)
        as (k & t & Hfind & Hk & Ht).
      exists (Z.of_nat k). split; [exact Hfind|]. split; [lia|].
      exists t. rewrite Nat2Z.id. auto. }
  destruct Hfound as (focus1 & -> & Hf1 & Hon). cbn [bind].
  destruct (above_loop_spec h h_pos focus1 _ (scrollpos self)
              (above_fuel_enough h h_pos focus1 (scrollpos self)))
    as (j1 & -> & Hj1).
  cbn [bind].
  destruct (below_loop_spec h h_pos focus1 p _ (scrollpos self - Z.of_nat j1 * h)
              (below_fuel_enough h h_pos focus1 _ p))
    as (j2 & -> & Hj2).
  cbn [bind].
  eexists _, j1, j2. split; [reflexivity|]. cbn [focus scrollpos focused_id].
  unfold focus_on. cbn [focus]. auto 10.
Qed.

End FollowListFocus.

Lemma follow_refreshes_spec (h p : Z) (refreshes : list (list torrent)) :
  1 <= h ->
  Forall with_ids refreshes ->
  forall self : interface,
    0 <= focus self ->
    Forall (present (focused_id self)) refreshes ->
    exists self',
      follow_refreshes h p refreshes self = Ret self' /\
      focused_id self' = focused_id self /\
      0 <= focus self' /\
      forall torrents, last refreshes = Some torrents ->
                       focus_on torrents self' (focused_id self).
Proof.
  intros Hh Hwf. induction Hwf as [|torrents rest Hids _ IH]; intros self Hf Hpres.
  - exists self. split; [reflexivity|]. split; [reflexivity|]. split; [exact Hf|].
    intros ts Hts. discriminate Hts.
  - apply Forall_cons in Hpres as [Hp1 Hprest]. cbn [follow_refreshes].
    destruct (follow_present h p Hh torrents Hids self Hf Hp1)
      as (self1 & j1 & j2 & -> & Hid1 & Hon1 & _).
    cbn [bind].
    destruct (IH self1) as (self' & Hrun & Hid' & Hf' & Hlast).
    { destruct Hon1; assumption. }
    { now rewrite Hid1. }
    rewrite Hrun.
    exists self'. split; [reflexivity|]. split; [congruence|]. split; [exact Hf'|].
    intros ts Hts. destruct rest as [|r rest'].
    + cbn in Hts, Hrun. injection Hts as <-. injection Hrun as <-. exact Hon1.
    + rewrite last_cons_cons in Hts. rewrite <- Hid1. now apply Hlast.
Qed.

Lemma visible_after_follow (h p s f n : Z) (j1 j2 : nat) :
  1 <= h -> 1 <= p -> s mod h = 0 -> 0 <= f < n ->
  least_steps (fun j => s - Z.of_nat j * h <= f * h) j1 ->
  least_steps (fun j => f * h <= s - Z.of_nat j1 * h + Z.of_nat j * h + (p - 1) * h) j2 ->
  let s' := Z.max 0 (Z.min (s - Z.of_nat j1 * h + Z.of_nat j2 * h) ((n - p) * h)) in
  s' <= f * h <= s' + (p - 1) * h.
Proof.
  intros Hh Hp Hal Hf [H1 _] [H2 L2] s'.
  assert (Hs2 : s - Z.of_nat j1 * h + Z.of_nat j2 * h <= f * h).
  { destruct j2 as [|j]; [lia|]. specialize (L2 j ltac:(lia)).
    rewrite (aligned_multiple s h Hal) in *. set (q := s / h) in *. clearbody q.
    rewrite Nat2Z.inj_succ, Z.mul_succ_l.
    set (a := q - Z.of_nat j1 + Z.of_nat j) in *.
    assert (L : ~ f * h <= (a + p - 1) * h) by (intros X; apply L2; subst a; lia).
    assert (Hfa : a + p <= f) by nia.
    replace (h * q - Z.of_nat j1 * h + (Z.of_nat j * h + h)) with ((a + 1) * h)
      by (subst a; lia).
    nia. }
  subst s'. nia.
Qed.

(** C8: when the focused id is absent from the refreshed list the focus
    index is cleared to -1; when it is present the focus index points at a
    row with that id, after one refresh and after any sequence of
    refreshes that keep it present, and the scroll offset is moved by the
    least number of item heights that brings the focus into the window,
    then clamped by [min] with the maximal scroll and [max] with 0. *)
Theorem focus_follows_focused_id :
  forall h p : Z,
    1 <= h ->
    (forall (torrents : list torrent) (self : interface),
        with_ids torrents ->
        ~ present (focused_id self) torrents ->
        exists self',
          follow_list_focus h p torrents self = Ret self' /\
          focus self' = -1 /\
          focused_id self' = focused_id self /\
          (focus self <> -1 -> scrollpos self' = 0)) /\
    (forall (torrents : list torrent) (self : interface),
        with_ids torrents ->
        0 <= focus self ->
        present (focused_id self) torrents ->
        exists (self' : interface) (j1 j2 : nat),
          follow_list_focus h p torrents self = Ret self' /\
          focused_id self' = focused_id self /\
          focus_on torrents self' (focused_id self) /\
          least_steps (fun j => scrollpos self - Z.of_nat j * h <= focus self' * h) j1 /\
          least_steps (fun j => focus self' * h
                                <= scrollpos self - Z.of_nat j1 * h + Z.of_nat j * h
                                   + (p - 1) * h) j2 /\
          scrollpos self' =
            Z.max 0 (Z.min (scrollpos self - Z.of_nat j1 * h + Z.of_nat j2 * h)
                           ((Z.of_nat (length torrents) - p) * h)) /\
          0 <= scrollpos self' <= Z.max 0 ((Z.of_nat (length torrents) - p) * h) /\
          (scrollpos self mod h = 0 -> 1 <= p ->
           scrollpos self' <= focus self' * h <= scrollpos self' + (p - 1) * h)) /\
    (forall (refreshes : list (list torrent)) (self : interface),
        Forall with_ids refreshes ->
        0 <= focus self ->
        Forall (present (focused_id self)) refreshes ->
        exists self',
          follow_refreshes h p refreshes self = Ret self' /\
          focused_id self' = focused_id self /\
          forall torrents, last refreshes = Some torrents ->
                           focus_on torrents self' (focused_id self)).
Proof.
  intros h p Hh. refine (conj _ (conj _ _)).
  - intros torrents self Hids Habs. now apply follow_absent.
  - intros torrents self Hids Hf Hpres.
    destruct (follow_present h p Hh torrents Hids self Hf Hpres)
      as (self' & j1 & j2 & Hrun & Hid & Hon & Hj1 & Hj2 & Hscroll).
    exists self', j1, j2. repeat (split; [assumption|]).
    split; [rewrite Hscroll; lia|].
    intros Hal Hp. rewrite Hscroll.
    eapply visible_after_follow; eauto.
    destruct Hon as (? & t & Ht & _). apply lookup_lt_Some in Ht. lia.
  - intros refreshes self Hwf Hf Hpres.
    destruct (follow_refreshes_spec h p refreshes Hh Hwf self Hf Hpres)
      as (self' & Hrun & Hid & _ & Hlast).
    exists self'. auto.
Qed.

(** Two torrents, the focus on the first row and the focused id on the
    second: one refresh moves the focus to it. *)
Lemma focus_follows_focused_id_witness :
  let torrents : list torrent :=
    [ {[ "id"%string := VInt 5 ]}; {[ "id"%string := VInt 7 ]} ] in
  let self := {| focus := 0; scrollpos := 0; focused_id := VInt 7 |} in
  exists self',
    follow_refreshes 2 3 [torrents] self = Ret self' /\
    focused_id self' = VInt 7 /\
    forall ts, last [torrents] = Some ts -> focus_on ts self' (VInt 7).
Proof.
  intros torrents self.
  apply (proj2 (proj2 (focus_follows_focused_id 2 3 ltac:(lia))) [torrents] self).
  - repeat constructor; eexists; reflexivity.
  - cbn. lia.
  - repeat constructor. exists 1%nat, {[ "id"%string := VInt 7 ]}.
    split; reflexivity.
Defined.

(** ** The authentication retry of [send_request] *)

Lemma match_session_id_nonempty (s w : string) :
  match_session_id s = Some w -> w <> ""%string.
Proof.
  unfold match_session_id.
  destruct (strip_prefix _ s) as [rest|]; [|discriminate].
  destruct (span is_word _) as [w' r].
  destruct (String.eqb_spec w' ""); [discriminate|]. congruence.
Qed.

Lemma search_session_id_nonempty (msg w : string) :
  search_session_id msg = Some w -> w <> ""%string.
Proof.
  induction msg as [|c msg IH]; cbn [search_session_id].
  - destruct (match_session_id "") eqn:E; [|discriminate].
    intros [= <-]. eapply match_session_id_nonempty, E.
  - destruct (match_session_id (String c msg)) eqn:E; [|exact IH].
    intros [= <-]. eapply match_session_id_nonempty, E.
Qed.

Lemma exit_prog_connection_error (last : Z) :
  exit_prog last errors.CONNECTION_ERROR = SystemExit errors.CONNECTION_ERROR.
Proof. unfold exit_prog. destruct (last =? -1); reflexivity. Qed.

Section SendRequest.

Variable urlopen : service.
Variables (self : session) (hdrs : headers).
Hypothesis request_set : http_request self = Some hdrs.

Lemma send_request_opened (depth : nat) :
  urlopen (urlopen_calls self) (sent_headers self hdrs) = Opened ->
  send_request urlopen (S depth) self = Ret (opened self hdrs).
Proof.
  intros H. cbn [send_request]. rewrite request_set.
  fold (sent_headers self hdrs). rewrite H. reflexivity.
Qed.

Lemma send_request_retries (depth : nat) (msg token : string) :
  urlopen (urlopen_calls self) (sent_headers self hdrs) = HTTPError msg ->
  search_session_id msg = Some token ->
  send_request urlopen (S depth) self
  = send_request urlopen depth (retried self hdrs token).
Proof.
  intros H Hm. cbn [send_request]. rewrite request_set.
  fold (sent_headers self hdrs). rewrite H, Hm. reflexivity.
Qed.

Lemma send_request_no_token (depth : nat) (msg : string) :
  urlopen (urlopen_calls self) (sent_headers self hdrs) = HTTPError msg ->
  search_session_id msg = None ->
  send_request urlopen (S depth) self = Raise (SystemExit errors.CONNECTION_ERROR).
Proof.
  intros H Hm. cbn [send_request]. rewrite request_set.
  fold (sent_headers self hdrs). rewrite H, Hm.
  now rewrite exit_prog_connection_error.
Qed.

Lemma send_request_unreachable (depth : nat) (reason : string) :
  urlopen (urlopen_calls self) (sent_headers self hdrs) = URLError reason ->
  send_request urlopen (S depth) self = Raise (SystemExit errors.CONNECTION_ERROR).
Proof.
  intros H. cbn [send_request]. rewrite request_set.
  fold (sent_headers self hdrs). rewrite H.
  now rewrite exit_prog_connection_error.
Qed.

(** The retry sends the request again with the token as the header. *)
Lemma retried_headers (token : string) :
  token <> ""%string ->
  sent_headers (retried self hdrs token) (sent_headers self hdrs)
  = <[ "X-Transmission-Session-Id"%string := VStr token ]> (sent_headers self hdrs).
Proof.
  intros Hne. unfold sent_headers at 1. cbn [retried session_id truthy].
  destruct (String.eqb_spec token ""); [contradiction|reflexivity].
Qed.

End SendRequest.




(** A challenge without a token is fatal on the first exchange as well, and
    a request whose data is not set yet is left alone. *)
Lemma first_exchange_failures (urlopen : service) (self : session) (depth : nat) :
  (forall hdrs msg,
      http_request self = Some hdrs ->
      urlopen (urlopen_calls self) (sent_headers self hdrs) = HTTPError msg ->
      search_session_id msg = None ->
      send_request urlopen (S depth) self = Raise (SystemExit errors.CONNECTION_ERROR)) /\
  (forall hdrs reason,
      http_request self = Some hdrs ->
      urlopen (urlopen_calls self) (sent_headers self hdrs) = URLError reason ->
      send_request urlopen (S depth) self = Raise (SystemExit errors.CONNECTION_ERROR)) /\
  (http_request self = None -> send_request urlopen (S depth) self = Ret self).
Proof.
  repeat split.
  - intros. eapply send_request_no_token; eauto.
  - intros. eapply send_request_unreachable; eauto.
  - intros H. cbn [send_request]. now rewrite H.
Qed.

(** ** Polling: interrupted reads and undecodable bodies *)

Lemma exit_prog_json_error (last : Z) :
  exit_prog last errors.JSON_ERROR = SystemExit errors.JSON_ERROR.
Proof. unfold exit_prog. destruct (last =? -1); reflexivity. Qed.

Section PollingFacts.

Variable payload : Type.
Variable json_loads : list Byte.byte -> option (response payload).
Variable caches : Type.
Variable parse_response : response payload -> caches -> res (caches * Z).
Variable send : polled_request -> res polled_request.

Variables (lastexitcode : Z) (now delay : Q) (tag_waiting_for : Z).

Local Abbreviation get_response' := (get_response payload json_loads lastexitcode).
Local Abbreviation update_request' :=
  (update_request payload json_loads caches parse_response send
                  lastexitcode now delay tag_waiting_for).
Local Abbreviation update_loop' :=
  (update_loop payload json_loads caches parse_response send
               lastexitcode now delay tag_waiting_for).

(** An interrupted read returns a document that is neither a success nor
    "no open request", and leaves the request open. *)
Lemma get_response_interrupted (self : polled_request) (stream : list read_event) :
  reads self = Some stream -> interrupted stream ->
  exists text rest,
    get_response' self
    = Ret (local_result text, {| reads := Some rest; last_update := last_update self |}) /\
    text <> "no open request"%string /\ text <> "success"%string.
Proof.
  intros Hopen Hint. unfold get_response, interrupted in *. rewrite Hopen.
  destruct (read_loop stream []) as [bytes rest|rest|rest]; [contradiction| |].
  - exists "connection reset by peer"%string, rest. repeat split; discriminate.
  - exists "Exception"%string, rest. repeat split; discriminate.
Qed.

Lemma get_response_undecodable (self : polled_request) (stream : list read_event) :
  reads self = Some stream -> undecodable json_loads stream ->
  get_response' self = Raise (SystemExit errors.JSON_ERROR).
Proof.
  intros Hopen Hund. unfold get_response, undecodable in *. rewrite Hopen.
  destruct (read_loop stream []) as [bytes rest|rest|rest]; try contradiction.
  rewrite Hund. now rewrite exit_prog_json_error.
Qed.

Lemma update_request_interrupted (st : caches * bool) (request : polled_request)
  (stream : list read_event) :
  reads request = Some stream -> interrupted stream ->
  exists request',
    update_request' st request = Ret (request', st) /\ is_Some (reads request').
Proof.
  intros Hopen Hint. unfold update_request.
  destruct (Qle_bool delay (now - last_update request)).
  - destruct (get_response_interrupted
                {| reads := reads request; last_update := now |} stream Hopen Hint)
      as (text & rest & -> & Hno & Hsucc).
    cbn [bind local_result result].
    destruct (String.eqb_spec text "no open request"); [contradiction|].
    destruct (String.eqb_spec text "success"); [contradiction|].
    eexists; split; [reflexivity|]. cbn. eauto.
  - exists request. split; [reflexivity|]. rewrite Hopen. eauto.
Qed.

Lemma update_loop_interrupted (requests : list polled_request) :
  Forall (fun r => exists stream, reads r = Some stream /\ interrupted stream) requests ->
  forall st : caches * bool,
  exists requests',
    update_loop' st requests = Ret (requests', st) /\
    Forall (fun r => is_Some (reads r)) requests'.
Proof.
  induction 1 as [|request rest (stream & Hopen & Hint) _ IH]; intros st.
  - exists []. split; [reflexivity|constructor].
  - cbn [update_loop].
    destruct (update_request_interrupted st request stream Hopen Hint)
      as (request' & -> & Hstill).
    cbn [bind]. destruct (IH st) as (rest' & -> & Hrest). cbn [bind].
    exists (request' :: rest'). split; [reflexivity|]. now constructor.
Qed.

End PollingFacts.




(** ** The peer rate estimator *)

Lemma ltb_lt (a b : Q) : ltb a b = true <-> (a < b)%Q.
Proof.
  unfold ltb. rewrite negb_true_iff, <- not_true_iff_false, Qle_bool_iff.
  split; [apply Qnot_le_lt | apply Qlt_not_le].
Qed.

Lemma gtb_lt (a b : Q) : gtb a b = true <-> (b < a)%Q.
Proof. apply ltb_lt. Qed.

Lemma gtb_le (a b : Q) : gtb a b = false <-> (a <= b)%Q.
Proof.
  unfold gtb. rewrite negb_false_iff. apply Qle_bool_iff.
Qed.

(** After [add], the window of a key ends with the new sample, holds at
    most [max_len] samples if it did before, and [get] is its average. *)
Lemma Normalizer_add_get (values : gmap string (list Q)) (key : string) (value : Q)
  (max_len : nat) :
  exists window,
    Normalizer_add values key value max_len !! key = Some window /\
    last window = Some value /\
    Normalizer_get (Normalizer_add values key value max_len) key
    = Ret (Qsum window / inject_Z (Z.of_nat (length window)))%Q /\
    ((1 <= max_len)%nat ->
     (forall l, values !! key = Some l -> (length l <= max_len)%nat) ->
     (length window <= max_len)%nat).
Proof.
  assert (Hget : forall window,
    Normalizer_add values key value max_len !! key = Some (window ++ [value]) ->
    Normalizer_get (Normalizer_add values key value max_len) key
    = Ret (Qsum (window ++ [value])
           / inject_Z (Z.of_nat (length (window ++ [value]))))%Q).
  { intros window Hw. unfold Normalizer_get. rewrite Hw. unfold truediv.
    destruct (Qeq_bool _ 0) eqn:E; [|reflexivity].
    apply Qeq_bool_iff in E. unfold Qeq in E. cbn in E.
    rewrite length_app in E. cbn in E. lia. }
  unfold Normalizer_add in *. destruct (values !! key) as [l|] eqn:El.
  - eexists. split; [apply lookup_insert_eq|]. split; [apply last_snoc|].
    split; [apply Hget, lookup_insert_eq|].
    intros Hmax Hlen. specialize (Hlen l eq_refl). rewrite length_app. cbn.
    destruct (Nat.leb_spec max_len (length l)).
    + rewrite length_drop. lia.
    + lia.
  - exists [value]. split; [apply lookup_insert_eq|]. split; [reflexivity|].
    split; [apply (Hget []), lookup_insert_eq|].
    intros Hmax _. cbn. lia.
Qed.

Section PeerRatesFacts.

Variable time_time : nat -> Q.
Variables (hashString : string) (totalSize : Z).

Variable st : estimator.
Variable peer : Peer.t.
Variable e : PeerEntry.t.

Local Abbreviation peerid := (Peer.address peer ++ hashString)%string.
Local Abbreviation this_time := (time_time (clock_reads st)).
Local Abbreviation run := (estimate_peer time_time hashString totalSize peer st).

Hypothesis cached : peer_progress_cache st !! peerid = Some e.

Ltac run_estimator :=
  unfold estimate_peer, this_peer, assign, read_clock, norm_add,
    Mut.bind, Mut.get, Mut.ret, Mut.lift, Mut.modify;
  cbn [peer_progress_cache norm_values clock_reads fst snd];
  rewrite ?cached.

(** A complete peer is not estimated. *)
Lemma estimate_complete_peer :
  ltb (Peer.progress peer) 1 = false -> run = (st, Ret e).
Proof.
  intros Hp. run_estimator. rewrite Hp. unfold dict_get. rewrite cached.
  reflexivity.
Qed.

(** Neither an update nor a reset: only the progress is remembered. *)
Lemma estimate_quiet :
  ltb (Peer.progress peer) 1 = true ->
  negb (Qeq_bool (PeerEntry.last_progress e) 0)
  && gtb (Peer.progress peer - PeerEntry.last_progress e) 0
  && gtb (this_time - PeerEntry.last_update e) 5 = false ->
  gtb (this_time - PeerEntry.last_update e) 60 = false ->
  snd run = Ret (PeerEntry.set_last_progress (Peer.progress peer) e) /\
  peer_progress_cache (fst run) !! peerid
  = Some (PeerEntry.set_last_progress (Peer.progress peer) e).
Proof.
  intros Hp Hq H60. run_estimator. rewrite Hp. unfold dict_get. rewrite cached.
  cbn [PeerEntry.last_progress PeerEntry.last_update]. rewrite Hq, H60.
  cbn [peer_progress_cache fst snd].
  rewrite lookup_alter_eq, cached. cbn. split; reflexivity.
Qed.

(** The reset after more than 60 seconds without an update. *)
Lemma estimate_reset :
  ltb (Peer.progress peer) 1 = true ->
  negb (Qeq_bool (PeerEntry.last_progress e) 0)
  && gtb (Peer.progress peer - PeerEntry.last_progress e) 0
  && gtb (this_time - PeerEntry.last_update e) 5 = false ->
  gtb (this_time - PeerEntry.last_update e) 60 = true ->
  exists e',
    snd run = Ret e' /\
    peer_progress_cache (fst run) !! peerid = Some e' /\
    PeerEntry.download_speed e' = 0%Q /\ PeerEntry.time_left e' = 0%Q.
Proof.
  intros Hp Hq H60. run_estimator. rewrite Hp. unfold dict_get. rewrite cached.
  cbn [PeerEntry.last_progress PeerEntry.last_update]. rewrite Hq, H60.
  cbn [peer_progress_cache fst snd].
  rewrite !lookup_alter_eq, cached. cbn.
  eexists. split; [reflexivity|]. split; [reflexivity|]. split; reflexivity.
Qed.

(** A qualifying update: the cached rate becomes the average of the
    window that now ends with the new sample, also when the time left
    cannot be computed from it. *)
Lemma estimate_update :
  ltb (Peer.progress peer) 1 = true ->
  negb (Qeq_bool (PeerEntry.last_progress e) 0)
  && gtb (Peer.progress peer - PeerEntry.last_progress e) 0
  && gtb (this_time - PeerEntry.last_update e) 5 = true ->
  let sample :=
    (inject_Z totalSize * (Peer.progress peer - PeerEntry.last_progress e)
     / (this_time - PeerEntry.last_update e))%Q in
  let key := (peerid ++ ":download_speed")%string in
  exists window,
    norm_values (fst run) !! key = Some window /\
    last window = Some sample /\
    ((forall l, norm_values st !! key = Some l -> (length l <= 10)%nat) ->
     (length window <= 10)%nat) /\
    cached_speed (fst run) peerid
    = Some (Qsum window / inject_Z (Z.of_nat (length window)))%Q /\
    (snd run = Raise ZeroDivisionError \/
     exists e', snd run = Ret e' /\
                peer_progress_cache (fst run) !! peerid = Some e' /\
                PeerEntry.download_speed e'
                = (Qsum window / inject_Z (Z.of_nat (length window)))%Q /\
                PeerEntry.last_update e' = this_time).
Proof.
  intros Hp Hq sample key.
  assert (Htd : Qeq_bool (this_time - PeerEntry.last_update e) 0 = false).
  { apply andb_true_iff in Hq as [_ H5]. apply gtb_lt in H5.
    apply not_true_iff_false. intros E. apply Qeq_bool_iff in E.
    rewrite E in H5. revert H5. apply Qle_not_lt. discriminate. }
  destruct (Normalizer_add_get (norm_values st) key sample 10)
    as (window & Hw & Hlast & Hget & Hlen).
  exists window. unfold cached_speed.
  remember run as r eqn:Er.
  unfold estimate_peer, this_peer, assign, read_clock, norm_add,
    Mut.bind, Mut.get, Mut.ret, Mut.lift, Mut.modify in Er.
  cbn [peer_progress_cache norm_values clock_reads fst snd] in Er.
  rewrite cached, Hp in Er. unfold dict_get in Er. rewrite cached in Er.
  cbn [PeerEntry.last_progress PeerEntry.last_update] in Er. rewrite Hq in Er.
  unfold truediv at 1 in Er. rewrite Htd in Er.
  cbn [peer_progress_cache norm_values fst snd] in Er.
  fold key in Er. fold sample in Er. rewrite Hget in Er.
  cbn [peer_progress_cache norm_values fst snd] in Er.
  destruct (truediv _ (Qsum window / _)) as [remaining|ex] eqn:Ediv;
    cbn [peer_progress_cache norm_values fst snd] in Er;
    rewrite ?lookup_alter_eq, ?cached in Er; subst r;
    cbn [peer_progress_cache norm_values fst snd];
    rewrite ?lookup_alter_eq, ?cached; cbn.
  - split; [exact Hw|]. split; [exact Hlast|]. split; [intros; apply Hlen; [lia|auto]|].
    split; [reflexivity|]. right. eexists. repeat split; reflexivity.
  - split; [exact Hw|]. split; [exact Hlast|]. split; [intros; apply Hlen; [lia|auto]|].
    split; [reflexivity|]. left. f_equal.
    unfold truediv in Ediv. revert Ediv.
    case (Qeq_bool _ 0); intros Ediv; [injection Ediv as <-; reflexivity|discriminate].
Qed.

End PeerRatesFacts.

Lemma qualifying_iff (e : PeerEntry.t) (peer : Peer.t) (t : Q) :
  qualifying e peer t <->
  ltb (Peer.progress peer) 1 = true /\
  negb (Qeq_bool (PeerEntry.last_progress e) 0)
  && gtb (Peer.progress peer - PeerEntry.last_progress e) 0
  && gtb (t - PeerEntry.last_update e) 5 = true.
Proof.
  unfold qualifying.
  rewrite !andb_true_iff, negb_true_iff, <- not_true_iff_false, Qeq_bool_iff,
    ltb_lt, !gtb_lt.
  tauto.
Qed.




(** ** The canonical sort value of a number *)

Lemma append_cons (x : ascii) (a b : string) :
  (String x a ++ b = String x (a ++ b))%string.
Proof. reflexivity. Qed.

Lemma append_nil (b : string) : (EmptyString ++ b = b)%string.
Proof. reflexivity. Qed.

Ltac string_app := rewrite ?append_cons, ?append_nil in *.

Lemma string_app_assoc (a b c : string) : ((a ++ b) ++ c = a ++ (b ++ c))%string.
Proof. induction a as [|x a IH]; string_app; [reflexivity | now f_equal]. Qed.

Lemma string_app_length (a b : string) :
  String.length (a ++ b) = (String.length a + String.length b)%nat.
Proof. induction a as [|x a IH]; string_app; cbn; [reflexivity | now f_equal]. Qed.

Lemma ascii_compare_refl (c : ascii) : Ascii.compare c c = Eq.
Proof. apply N.compare_refl. Qed.

Lemma string_compare_refl (a : string) : String.compare a a = Eq.
Proof.
  induction a as [|x a IH]; cbn; [reflexivity|]. now rewrite ascii_compare_refl.
Qed.

(** Strings of equal length are compared before what is appended to them. *)
Lemma string_compare_app (a b s t : string) :
  String.length a = String.length b ->
  String.compare (a ++ s) (b ++ t)
  = match String.compare a b with
    | Eq => String.compare s t
    | other => other
    end.
Proof.
  revert b. induction a as [|x a IH]; intros [|y b] Hlen; string_app; cbn in *;
    try discriminate.
  - reflexivity.
  - destruct (Ascii.compare x y); [apply IH; congruence | reflexivity | reflexivity].
Qed.

Lemma digit_compare (a b : Z) :
  0 <= a < 10 -> 0 <= b < 10 -> Ascii.compare (digit a) (digit b) = (a ?= b).
Proof.
  intros Ha Hb.
  assert (Ea : a = 0 \/ a = 1 \/ a = 2 \/ a = 3 \/ a = 4 \/ a = 5 \/ a = 6 \/ a = 7
               \/ a = 8 \/ a = 9) by lia.
  assert (Eb : b = 0 \/ b = 1 \/ b = 2 \/ b = 3 \/ b = 4 \/ b = 5 \/ b = 6 \/ b = 7
               \/ b = 8 \/ b = 9) by lia.
  repeat (destruct Ea as [->|Ea]); try subst a;
    repeat (destruct Eb as [->|Eb]); try subst b; reflexivity.
Qed.

Lemma minus_before_digit (d : Z) :
  0 <= d < 10 -> Ascii.compare "-" (digit d) = Lt.
Proof.
  intros Hd.
  assert (Ed : d = 0 \/ d = 1 \/ d = 2 \/ d = 3 \/ d = 4 \/ d = 5 \/ d = 6 \/ d = 7
               \/ d = 8 \/ d = 9) by lia.
  repeat (destruct Ed as [->|Ed]); try subst d; reflexivity.
Qed.

Lemma fixed_digits_length (w : nat) (n : Z) : String.length (fixed_digits w n) = w.
Proof.
  revert n. induction w as [|w IH]; intros n; cbn; [reflexivity|].
  rewrite string_app_length, IH. cbn. lia.
Qed.

Lemma zeros_snoc (w : nat) : (zeros w ++ "0")%string = zeros (S w).
Proof.
  induction w as [|w IH]; [reflexivity|].
  change (zeros (S w)) with (String "0" (zeros w)) at 1. string_app. now rewrite IH.
Qed.

Lemma fixed_digits_zero (w : nat) : fixed_digits w 0 = zeros w.
Proof.
  induction w as [|w IH]; [reflexivity|].
  cbn [fixed_digits]. change (0 / 10) with 0. rewrite IH. apply zeros_snoc.
Qed.

(** On numbers of at most [w] digits the lexical order of the fixed-width
    digits is the numeric order. *)
Lemma fixed_digits_compare (w : nat) :
  forall x y : Z,
    0 <= x < 10 ^ Z.of_nat w -> 0 <= y < 10 ^ Z.of_nat w ->
    String.compare (fixed_digits w x) (fixed_digits w y) = (x ?= y).
Proof.
  induction w as [|w IH]; intros x y Hx Hy.
  - cbn in *. assert (x = 0) by lia. assert (y = 0) by lia. subst. reflexivity.
  - rewrite Nat2Z.inj_succ, Z.pow_succ_r in Hx, Hy by lia.
    cbn [fixed_digits].
    rewrite string_compare_app by now rewrite !fixed_digits_length.
    pose proof (Z_div_mod_eq_full x 10) as Ex.
    pose proof (Z_div_mod_eq_full y 10) as Ey.
    pose proof (Z.mod_pos_bound x 10 ltac:(lia)) as Bx.
    pose proof (Z.mod_pos_bound y 10 ltac:(lia)) as By.
    rewrite IH by (split; [apply Z.div_pos; lia | apply Z.div_lt_upper_bound; lia]).
    cbn [String.compare]. rewrite digit_compare by assumption.
    destruct (Z.compare_spec (x / 10) (y / 10)) as [E|L|G].
    + destruct (Z.compare_spec (x mod 10) (y mod 10)); symmetry.
      * apply Z.compare_eq_iff. lia.
      * apply Z.compare_lt_iff. lia.
      * apply Z.compare_gt_iff. lia.
    + symmetry. apply Z.compare_lt_iff. lia.
    + symmetry. apply Z.compare_gt_iff. lia.
Qed.

(** The digits of a number, padded with zeros, are its fixed-width digits. *)
Lemma decimal_loop_padded (fuel : nat) :
  forall (n : Z) (w : nat),
    0 <= n < 2 ^ Z.of_nat fuel -> n < 10 ^ Z.of_nat w -> (1 <= w)%nat ->
    (zeros (w - String.length (decimal_loop fuel n)) ++ decimal_loop fuel n)%string
    = fixed_digits w n.
Proof.
  induction fuel as [|fuel IH]; intros n w Hn Hw Hw1.
  - cbn in Hn. assert (n = 0) by lia. subst n. cbn [decimal_loop String.length].
    rewrite Nat.sub_0_r, fixed_digits_zero.
    induction (zeros w) as [|c z IHz]; string_app; [reflexivity | now rewrite IHz].
  - rewrite Nat2Z.inj_succ, Z.pow_succ_r in Hn by lia.
    destruct w as [|w]; [lia|]. cbn [decimal_loop fixed_digits].
    destruct (Z.ltb_spec n 10) as [Hsmall|Hbig].
    + rewrite Z.div_small, Z.mod_small, fixed_digits_zero by lia.
      cbn [String.length]. replace (S w - 1)%nat with w by lia. reflexivity.
    + rewrite Nat2Z.inj_succ, Z.pow_succ_r in Hw by lia.
      assert (Hw' : (1 <= w)%nat).
      { destruct w; [cbn in Hw; lia | lia]. }
      rewrite string_app_length. cbn [String.length].
      replace (S w - (String.length (decimal_loop fuel (n / 10)) + 1))%nat
        with (w - String.length (decimal_loop fuel (n / 10)))%nat by lia.
      rewrite <- string_app_assoc. rewrite IH; [reflexivity| |  |exact Hw'].
      * split; [apply Z.div_pos; lia | apply Z.div_lt_upper_bound; lia].
      * apply Z.div_lt_upper_bound; lia.
Qed.

Lemma decimal_length_le (fuel : nat) :
  forall (n : Z) (w : nat),
    0 <= n < 10 ^ Z.of_nat w -> (1 <= w)%nat ->
    (String.length (decimal_loop fuel n) <= w)%nat.
Proof.
  induction fuel as [|fuel IH]; intros n w Hn Hw; cbn [decimal_loop]; [cbn; lia|].
  destruct (Z.ltb_spec n 10) as [Hsmall|Hbig]; [cbn; lia|].
  destruct w as [|w]; [lia|].
  rewrite Nat2Z.inj_succ, Z.pow_succ_r in Hn by lia.
  rewrite string_app_length. cbn [String.length].
  assert (Hw' : (1 <= w)%nat).
  { destruct w; [cbn in Hn; lia | lia]. }
  specialize (IH (n / 10) w
    ltac:(split; [apply Z.div_pos; lia | apply Z.div_lt_upper_bound; lia]) Hw').
  lia.
Qed.

(** A non-negative number below 10^20 is printed with 20 integer digits. *)
Lemma format_nonnegative (z : Z) :
  0 <= z < 10 ^ 20 ->
  format_027_6f z = (fixed_digits 20 z ++ ".000000")%string.
Proof.
  intros Hz. unfold format_027_6f.
  destruct (Z.ltb_spec z 0); [lia|]. rewrite Z.abs_eq by lia.
  string_app. cbn [String.length]. rewrite string_app_length.
  unfold decimal.
  set (fuel := S (Z.to_nat (Z.log2 z))).
  assert (Hfuel : 0 <= z < 2 ^ Z.of_nat fuel).
  { split; [lia|]. unfold fuel.
    destruct (Z.eq_dec z 0) as [->|Hnz]; [reflexivity|].
    rewrite Nat2Z.inj_succ, Z2Nat.id by apply Z.log2_nonneg.
    apply Z.log2_spec. lia. }
  pose proof (decimal_length_le fuel z 20 ltac:(lia) ltac:(lia)) as Hlen.
  replace (27 - 0 - (String.length (decimal_loop fuel z) + String.length ".000000"))%nat
    with (20 - String.length (decimal_loop fuel z))%nat by (cbn; lia).
  rewrite <- string_app_assoc.
  now rewrite (decimal_loop_padded fuel z 20 Hfuel) by lia.
Qed.

Lemma format_negative (z : Z) :
  z < 0 -> exists rest, format_027_6f z = String "-" rest.
Proof.
  intros Hz. unfold format_027_6f. destruct (Z.ltb_spec z 0); [|lia].
  string_app. eauto.
Qed.

Lemma fixed_digits_head (w : nat) (n : Z) :
  0 <= n ->
  exists d rest, 0 <= d < 10 /\ fixed_digits (S w) n = String (digit d) rest.
Proof.
  revert n. induction w as [|w IH]; intros n Hn.
  - exists (n mod 10), EmptyString. split; [apply Z.mod_pos_bound; lia | reflexivity].
  - destruct (IH (n / 10) ltac:(apply Z.div_pos; lia)) as (d & rest & Hd & E).
    exists d, (rest ++ String (digit (n mod 10)) EmptyString)%string.
    split; [exact Hd|]. change (fixed_digits (S (S w)) n)
      with (fixed_digits (S w) (n / 10) ++ String (digit (n mod 10)) EmptyString)%string.
    rewrite E. now string_app.
Qed.




(** ** Sorting by several keys *)

Lemma ltb_compare (a b : string) : String.ltb a b = true <-> String.compare a b = Lt.
Proof. unfold String.ltb. destruct (String.compare a b); split; congruence. Qed.

Lemma leb_compare (a b : string) : String.leb a b = true <-> String.compare a b <> Gt.
Proof. unfold String.leb. destruct (String.compare a b); split; congruence. Qed.

Lemma leb_refl (a : string) : String.leb a a = true.
Proof. apply leb_compare. rewrite string_compare_refl. discriminate. Qed.

Lemma ltb_leb (a b : string) : String.ltb a b = true -> String.leb a b = true.
Proof. rewrite ltb_compare, leb_compare. congruence. Qed.

Lemma not_ltb_leb (a b : string) : String.ltb b a = false -> String.leb a b = true.
Proof.
  rewrite <- not_true_iff_false, ltb_compare, leb_compare.
  rewrite (String.compare_antisym b a). destruct (String.compare a b); cbn; congruence.
Qed.

Lemma leb_cases (a b : string) :
  String.leb a b = true -> String.ltb a b = true \/ a = b.
Proof.
  rewrite ltb_compare, leb_compare. destruct (String.compare a b) eqn:E; intros H.
  - right. now apply String.compare_eq_iff.
  - now left.
  - contradiction.
Qed.

Lemma leb_trans (a b c : string) :
  String.leb a b = true -> String.leb b c = true -> String.leb a c = true.
Proof.
  intros H1 H2. apply Is_true_true. apply Is_true_true in H1, H2.
  change (String.le a c). transitivity b; assumption.
Qed.

Lemma ltb_irrefl (a : string) : String.ltb a a = false.
Proof.
  apply not_true_iff_false. rewrite ltb_compare, string_compare_refl. discriminate.
Qed.

Lemma ltb_leb_contra (a b : string) :
  String.ltb a b = true -> String.leb b a = true -> False.
Proof.
  rewrite ltb_compare, leb_compare, (String.compare_antisym b a).
  intros ->. cbn. congruence.
Qed.

Section StableSort.

Context {A : Type}.

Lemma insert_by_perm (k : A -> string) (x : A) (l : list A) :
  Permutation (insert_by k x l) (x :: l).
Proof.
  induction l as [|y l IH]; cbn; [reflexivity|].
  destruct (String.ltb (k y) (k x)); [|reflexivity].
  rewrite IH. apply perm_swap.
Qed.

Lemma sort_by_perm (k : A -> string) (l : list A) : Permutation (sort_by k l) l.
Proof.
  induction l as [|x l IH]; cbn; [reflexivity|].
  rewrite insert_by_perm. now constructor.
Qed.

(** The model of [list.sort] on keyed pairs is the insertion on elements. *)
Lemma sort_insert_keyed (k : A -> string) (x : A) (l : list A) :
  sort_insert false (k x, x) ((fun y => (k y, y)) <$> l)
  = (fun y => (k y, y)) <$> insert_by k x l.
Proof.
  induction l as [|y l IH]; cbn; [reflexivity|].
  destruct (String.ltb (k y) (k x)); cbn; [now rewrite IH|reflexivity].
Qed.

Lemma sort_keyed_keyed (k : A -> string) (l : list A) :
  sort_keyed false ((fun y => (k y, y)) <$> l) = (fun y => (k y, y)) <$> sort_by k l.
Proof.
  induction l as [|x l IH]; cbn; [reflexivity|].
  unfold sort_keyed in IH. rewrite IH. apply sort_insert_keyed.
Qed.

Lemma comprehension_total (key : A -> res string) (k : A -> string) (l : list A) :
  Forall (fun x => key x = Ret (k x)) l ->
  comprehension key l = Ret (k <$> l).
Proof.
  induction 1 as [|x l Hx _ IH]; cbn; [reflexivity|]. now rewrite Hx, IH.
Qed.

Lemma list_sort_sort_by (key : A -> res string) (k : A -> string) (l : list A) :
  Forall (fun x => key x = Ret (k x)) l ->
  list_sort key false l = Ret (sort_by k l).
Proof.
  intros Hkey. unfold list_sort. rewrite (comprehension_total key k l Hkey). cbn [bind].
  replace (zip (k <$> l) l) with ((fun y => (k y, y)) <$> l).
  - rewrite sort_keyed_keyed. f_equal.
    induction (sort_by k l) as [|y s IHs]; cbn; [reflexivity | now rewrite IHs].
  - clear Hkey. induction l as [|x l IH]; cbn; [reflexivity | now rewrite IH].
Qed.

(** A sort by one key leaves the list in the order of that key. *)
Lemma insert_by_sorted (k : A -> string) (x : A) (l : list A) :
  StronglySorted (fun a b => String.leb (k a) (k b) = true) l ->
  StronglySorted (fun a b => String.leb (k a) (k b) = true) (insert_by k x l).
Proof.
  induction 1 as [|y l Hs IH Hy]; cbn; [repeat constructor|].
  destruct (String.ltb (k y) (k x)) eqn:E.
  - constructor; [exact IH|]. rewrite insert_by_perm. constructor; [|exact Hy].
    now apply ltb_leb.
  - apply not_ltb_leb in E. constructor; [now constructor|].
    constructor; [exact E|]. eapply Forall_impl; [exact Hy|].
    intros z Hz. cbn in Hz. eapply leb_trans; eauto.
Qed.

Lemma sort_by_sorted (k : A -> string) (l : list A) :
  StronglySorted (fun a b => String.leb (k a) (k b) = true) (sort_by k l).
Proof.
  induction l as [|x l IH]; cbn; [constructor|]. now apply insert_by_sorted.
Qed.

(** A second, stable, sort makes its key the primary one and keeps the
    order of the first key among equal keys. *)
Variables (k1 k2 : A -> string).

Local Abbreviation by_both := (by_both k1 k2).

Lemma by_both_primary (a b : A) : by_both a b -> String.leb (k1 a) (k1 b) = true.
Proof. intros [H|[-> _]]; [now apply ltb_leb | apply leb_refl]. Qed.

Lemma insert_by_both (x : A) (l : list A) :
  StronglySorted by_both l ->
  Forall (fun y => String.leb (k2 x) (k2 y) = true) l ->
  StronglySorted by_both (insert_by k1 x l).
Proof.
  induction 1 as [|y l Hs IH Hy]; intros Hx; cbn; [repeat constructor|].
  apply Forall_cons in Hx as [Hxy Hxl].
  destruct (String.ltb (k1 y) (k1 x)) eqn:E.
  - constructor; [now apply IH|]. rewrite insert_by_perm.
    constructor; [now left | exact Hy].
  - apply not_ltb_leb in E. constructor; [now constructor|].
    assert (Hall : Forall (fun z => String.leb (k1 x) (k1 z) = true
                                    /\ String.leb (k2 x) (k2 z) = true) (y :: l)).
    { constructor; [now split|].
      apply Forall_and. split; [|exact Hxl].
      eapply Forall_impl; [exact Hy|]. intros z Hz. cbn in Hz.
      eapply leb_trans; [exact E|]. now apply by_both_primary. }
    eapply Forall_impl; [exact Hall|]. intros z [H1 H2]. cbn.
    destruct (leb_cases _ _ H1) as [Hlt|Heq]; [now left | now right].
Qed.

Lemma sort_by_both (l : list A) :
  StronglySorted (fun a b => String.leb (k2 a) (k2 b) = true) l ->
  StronglySorted by_both (sort_by k1 l).
Proof.
  induction 1 as [|x l Hs IH Hx]; [constructor|].
  change (sort_by k1 (x :: l)) with (insert_by k1 x (sort_by k1 l)).
  apply insert_by_both; [exact IH|]. now rewrite sort_by_perm.
Qed.

End StableSort.

(** Two sorted lists with the same elements are equal when the order is
    antisymmetric. *)
Lemma sorted_perm_unique {B} (R : B -> B -> Prop) :
  (forall a b, R a b -> R b a -> a = b) ->
  forall l1 l2 : list B,
    StronglySorted R l1 -> StronglySorted R l2 -> Permutation l1 l2 -> l1 = l2.
Proof.
  intros Hanti. induction l1 as [|a l1 IH]; intros l2 H1 H2 Hp.
  - now apply Permutation_nil in Hp.
  - destruct l2 as [|b l2]; [now apply Permutation_sym, Permutation_nil in Hp|].
    apply StronglySorted_inv in H1 as [H1 Ha], H2 as [H2 Hb].
    assert (a = b) as <-.
    { assert (Hin1 : In a (b :: l2)) by (eapply Permutation_in; [exact Hp|now left]).
      assert (Hin2 : In b (a :: l1))
        by (eapply Permutation_in; [symmetry; exact Hp|now left]).
      destruct Hin1 as [->|Hin1]; [reflexivity|].
      destruct Hin2 as [->|Hin2]; [reflexivity|].
      rewrite List.Forall_forall in Ha, Hb. apply Hanti; auto. }
    f_equal. apply IH; auto. eapply Permutation_cons_inv, Hp.
Qed.

Lemma by_both_antisym (a b : string * string) :
  by_both fst snd a b -> by_both fst snd b a -> a = b.
Proof.
  destruct a as [a1 a2], b as [b1 b2]. unfold by_both. cbn.
  intros [H1|[E1 L1]] [H2|[E2 L2]].
  - exfalso. eapply ltb_leb_contra; [exact H1|]. now apply ltb_leb.
  - subst. now rewrite ltb_irrefl in H1.
  - subst. now rewrite ltb_irrefl in H2.
  - subst. f_equal. now apply String.leb_antisym.
Qed.

Lemma sorted_keys {A} (k1 k2 : A -> string) (l : list A) :
  StronglySorted (by_both k1 k2) l ->
  StronglySorted (by_both fst snd) ((fun x => (k1 x, k2 x)) <$> l).
Proof.
  induction 1 as [|x l Hs IH Hx]; cbn; constructor; [exact IH|].
  apply Forall_fmap. eapply Forall_impl; [exact Hx|]. now intros y Hy.
Qed.

Lemma fmap_inj_on {A B} (f : A -> B) (l1 l2 : list A) :
  f <$> l1 = f <$> l2 ->
  (forall a b, In a l1 -> In b l2 -> f a = f b -> a = b) ->
  l1 = l2.
Proof.
  revert l2. induction l1 as [|a l1 IH]; intros [|b l2] E Hinj; cbn in E;
    try discriminate; [reflexivity|].
  injection E as Eh Et. f_equal.
  - apply Hinj; [now left | now left | exact Eh].
  - apply IH; [exact Et|]. intros x y Hx Hy. apply Hinj; now right.
Qed.

Lemma pop_loop_spec (fuel : nat) :
  forall l : list SortOrder.t,
    (length l - 2 <= fuel)%nat -> pop_loop fuel l = drop (length l - 2) l.
Proof.
  induction fuel as [|fuel IH]; intros l Hl; cbn [pop_loop].
  - replace (length l - 2)%nat with O by lia. reflexivity.
  - destruct (Nat.ltb_spec 2 (length l)) as [H|H].
    + rewrite IH by (rewrite length_drop; lia).
      rewrite length_drop, drop_drop. f_equal. lia.
    + replace (length l - 2)%nat with O by lia. reflexivity.
Qed.

(** Adding a key keeps the last key before it and drops the older ones. *)
Lemma append_sort_order (sort_orders : list SortOrder.t) (a : SortOrder.t) :
  let l := sort_orders ++ [a] in
  pop_loop (length l) l = [a] \/ exists z, pop_loop (length l) l = [z; a].
Proof.
  cbn zeta. rewrite pop_loop_spec by lia. rewrite length_app. cbn [length].
  destruct (list_eq_nil_dec sort_orders) as [->|Hne]; [now left|]. right.
  assert (Hlen : (1 <= length sort_orders)%nat)
    by (destruct sort_orders; [contradiction | cbn; lia]).
  replace (length sort_orders + 1 - 2)%nat with (length sort_orders - 1)%nat by lia.
  rewrite drop_app_le by lia.
  destruct (drop (length sort_orders - 1) sort_orders) as [|z [|z' r]] eqn:E.
  - apply (f_equal length) in E. rewrite length_drop in E. cbn in E. lia.
  - now exists z.
  - apply (f_equal length) in E. rewrite length_drop in E. cbn in E. lia.
Qed.

Section TwoKeys.

Let by_status := {| SortOrder.name := "status"; SortOrder.reverse := false |}.
Let by_name := {| SortOrder.name := "name"; SortOrder.reverse := false |}.

Lemma configure_status_then_name (sort_orders : list SortOrder.t) :
  exists configured,
    action_show_torrent_sort_order_menu (-1) (Chosen "status" false) sort_orders
    = Ret configured /\
    action_show_torrent_sort_order_menu (-1) (Chosen "name" false) configured
    = Ret [by_status; by_name].
Proof.
  exists (pop_loop (length (sort_orders ++ [by_status])) (sort_orders ++ [by_status])).
  split; [reflexivity|].
  destruct (append_sort_order sort_orders by_status) as [E|[z E]];
    cbn zeta in E; rewrite E; reflexivity.
Qed.

Lemma sort_key_total (attribute : string) (l : list torrent) :
  Forall (fun t => is_Some (t !! attribute)) l ->
  Forall (fun x => (let! v := dict_get x attribute in Ret (sort_value v))
                   = Ret (key_of attribute x)) l.
Proof.
  intros H. eapply Forall_impl; [exact H|]. intros t [v Hv]. unfold key_of.
  rewrite (dict_get_Some _ _ _ Hv), Hv. reflexivity.
Qed.

Lemma get_torrent_list_two_keys (torrent_cache : list torrent) :
  Forall (fun t => is_Some (t !! "status"%string)) torrent_cache ->
  Forall (fun t => is_Some (t !! "name"%string)) torrent_cache ->
  get_torrent_list [by_status; by_name] torrent_cache
  = Ret (sort_by (key_of "name") (sort_by (key_of "status") torrent_cache)).
Proof.
  intros Hs Hn. unfold get_torrent_list.
  cbn [sort_loop SortOrder.name SortOrder.reverse by_status by_name].
  rewrite (list_sort_sort_by _ (key_of "status")) by now apply sort_key_total.
  cbn [bind].
  rewrite (list_sort_sort_by _ (key_of "name")); [reflexivity|].
  apply sort_key_total. now rewrite sort_by_perm.
Qed.

End TwoKeys.




(** ** Torrents by id, bandwidth priorities and the queue *)

(** The loop stops at the first torrent with the id, or leaves the list. *)
Lemma get_torrent_by_id_loop_spec (torrent_cache : list Torrent.t) (t_id : Z) :
  forall (fuel i : nat),
    (length torrent_cache <= i + fuel)%nat ->
    get_torrent_by_id_loop fuel torrent_cache t_id i
    = match list_find (fun t => Torrent.id t = t_id) (drop i torrent_cache) with
      | Some (k, _) => Ret (i + k)%nat
      | None => Raise IndexError
      end.
Proof.
  induction fuel as [|fuel IH]; intros i Hlen.
  - cbn [get_torrent_by_id_loop]. unfold getitem.
    destruct (torrent_cache !! i) as [t|] eqn:Ht.
    + apply lookup_lt_Some in Ht. lia.
    + rewrite drop_ge by (apply lookup_ge_None; exact Ht). reflexivity.
  - cbn [get_torrent_by_id_loop]. unfold getitem.
    destruct (torrent_cache !! i) as [t|] eqn:Ht.
    + cbn [bind]. rewrite (drop_S _ _ _ Ht). cbn [list_find].
      destruct (Z.eqb_spec (Torrent.id t) t_id) as [E|E]; cbn [negb].
      * rewrite decide_True by exact E. f_equal. lia.
      * rewrite decide_False by exact E. rewrite IH by lia.
        destruct (list_find _ (drop (S i) torrent_cache)) as [[k x]|]; cbn.
        -- f_equal. lia.
        -- reflexivity.
    + rewrite drop_ge by (apply lookup_ge_None; exact Ht). reflexivity.
Qed.

(** X1: get_torrent_by_id returns the first torrent of the cache that has
    the id; when no torrent has it, the scan runs off the list and raises
    IndexError, so None is never returned. *)
Theorem get_torrent_by_id_first (torrent_cache : list Torrent.t) (t_id : Z) :
  get_torrent_by_id torrent_cache t_id
  = match list_find (fun t => Torrent.id t = t_id) torrent_cache with
    | Some (_, t) => Ret (Some t)
    | None => Raise IndexError
    end.
Proof.
  unfold get_torrent_by_id.
  rewrite get_torrent_by_id_loop_spec by lia. rewrite drop_0.
  destruct (list_find _ torrent_cache) as [[k t]|] eqn:E; [|reflexivity].
  apply list_find_Some in E as (Hk & Hid & _).
  cbn [bind Nat.add]. unfold getitem. rewrite Hk. cbn [bind].
  destruct (Z.eqb_spec (Torrent.id t) t_id); [reflexivity|contradiction].
Qed.

(** A torrent of the cache is found by its id. *)
Lemma get_torrent_by_id_present (torrent_cache : list Torrent.t) (t : Torrent.t) :
  t ∈ torrent_cache ->
  exists t', get_torrent_by_id torrent_cache (Torrent.id t) = Ret (Some t') /\
             t' ∈ torrent_cache.
Proof.
  intros Hin. unfold get_torrent_by_id.
  rewrite get_torrent_by_id_loop_spec by lia. rewrite drop_0.
  destruct (list_find (fun t0 => Torrent.id t0 = Torrent.id t) torrent_cache)
    as [[k t']|] eqn:E.
  - apply list_find_Some in E as (Hk & Hid & _).
    cbn [bind Nat.add]. unfold getitem. rewrite Hk. cbn [bind].
    destruct (Z.eqb_spec (Torrent.id t') (Torrent.id t)); [|contradiction].
    exists t'. split; [reflexivity|]. eapply list_elem_of_lookup_2, Hk.
  - apply list_find_None in E. rewrite Forall_forall in E.
    exfalso. exact (E t Hin eq_refl).
Qed.

Lemma foldl_min_range (lo hi : Z) (l : list Z) :
  forall x, lo <= x <= hi -> Forall (fun y => lo <= y <= hi) l ->
            lo <= foldl Z.min x l <= hi.
Proof.
  induction l as [|y l IH]; intros x Hx Hl; cbn [foldl]; [exact Hx|].
  inversion Hl; subst. apply IH; [lia|assumption].
Qed.

Lemma foldl_max_range (lo hi : Z) (l : list Z) :
  forall x, lo <= x <= hi -> Forall (fun y => lo <= y <= hi) l ->
            lo <= foldl Z.max x l <= hi.
Proof.
  induction l as [|y l IH]; intros x Hx Hl; cbn [foldl]; [exact Hx|].
  inversion Hl; subst. apply IH; [lia|assumption].
Qed.

(** The attributes of the torrents found for a list of ids that are all
    in the cache. *)
Lemma attributes_by_id_present {A} (torrent_cache : list Torrent.t) (key : Torrent.t -> A)
  (P : A -> Prop) (torrent_ids : list Z) :
  Forall (fun t => P (key t)) torrent_cache ->
  Forall (fun i => exists t, t ∈ torrent_cache /\ Torrent.id t = i) torrent_ids ->
  exists vs, attributes_by_id torrent_cache key torrent_ids = PyExc.Return vs /\
             length vs = length torrent_ids /\ Forall P vs.
Proof.
  intros HP Hids. induction Hids as [|i rest (t & Hin & Hid) _ IH]; cbn [attributes_by_id].
  - exists []. auto.
  - destruct (get_torrent_by_id_present torrent_cache t Hin) as (t' & Hget & Hin').
    rewrite Hid in Hget. rewrite Hget.
    destruct IH as (vs & -> & Hlen & Hvs). cbn.
    exists (key t' :: vs). split; [reflexivity|]. split; [cbn; lia|].
    constructor; [|exact Hvs].
    rewrite Forall_forall in HP. now apply HP.
Qed.

(** X2: When every cached bandwidth priority is within -1..1 and every
    selected id is in the cache, increase_bandwidth_priority and
    decrease_bandwidth_priority return without raising, and a request they
    send asks for a priority within 0..1 and within -1..0 respectively. *)
Theorem bandwidth_priority_in_range (torrent_cache : list Torrent.t) (torrent_ids : list Z) :
  Forall (fun t => -1 <= Torrent.bandwidthPriority t <= 1) torrent_cache ->
  Forall (fun i => exists t, t ∈ torrent_cache /\ Torrent.id t = i) torrent_ids ->
  exists up down : option Request.t,
    increase_bandwidth_priority torrent_cache torrent_ids = PyExc.Return up /\
    decrease_bandwidth_priority torrent_cache torrent_ids = PyExc.Return down /\
    (forall r, up = Some r ->
               exists p, requested_priority r = Some (JInt p) /\ 0 <= p <= 1) /\
    (forall r, down = Some r ->
               exists p, requested_priority r = Some (JInt p) /\ -1 <= p <= 0).
Proof.
  intros Hrange Hids.
  unfold increase_bandwidth_priority, decrease_bandwidth_priority.
  destruct (decide (torrent_ids = [])) as [E|E].
  - rewrite bool_decide_eq_false_2 by tauto.
    exists None, None. repeat split; intros; discriminate.
  - rewrite bool_decide_eq_true_2 by exact E.
    destruct (attributes_by_id_present torrent_cache Torrent.bandwidthPriority
                (fun p => -1 <= p <= 1) torrent_ids Hrange Hids) as (vs & -> & Hlen & Hvs).
    cbn [PyExc.bind].
    destruct vs as [|v vs]; [destruct torrent_ids; [contradiction|discriminate]|].
    inversion Hvs as [|? ? Hv Hrest]; subst.
    pose proof (foldl_min_range (-1) 1 vs v Hv Hrest) as Hmin.
    pose proof (foldl_max_range (-1) 1 vs v Hv Hrest) as Hmax.
    cbn [py_min py_max PyExc.bind].
    exists (if foldl Z.min v vs <? 1
            then Some (bandwidth_request torrent_ids (foldl Z.min v vs + 1)) else None),
           (if foldl Z.max v vs >? -1
            then Some (bandwidth_request torrent_ids (foldl Z.max v vs - 1)) else None).
    split; [now destruct (foldl Z.min v vs <? 1)|].
    split; [now destruct (foldl Z.max v vs >? -1)|]. split.
    + intros r Hr. destruct (Z.ltb_spec (foldl Z.min v vs) 1); [|discriminate].
      injection Hr as <-. eexists. split; [reflexivity|]. lia.
    + intros r Hr. destruct (Z.gtb_spec (foldl Z.max v vs) (-1)); [|discriminate].
      injection Hr as <-. eexists. split; [reflexivity|]. lia.
Qed.

(** Two torrents at priorities 0 and 1, both selected. *)
Lemma bandwidth_priority_in_range_witness :
  let torrent_cache := [plain_torrent 1 0 0; plain_torrent 2 1 1] in
  exists up down : option Request.t,
    increase_bandwidth_priority torrent_cache [1; 2] = PyExc.Return up /\
    decrease_bandwidth_priority torrent_cache [1; 2] = PyExc.Return down /\
    (forall r, up = Some r ->
               exists p, requested_priority r = Some (JInt p) /\ 0 <= p <= 1) /\
    (forall r, down = Some r ->
               exists p, requested_priority r = Some (JInt p) /\ -1 <= p <= 0).
Proof.
  intros torrent_cache.
  apply (bandwidth_priority_in_range torrent_cache [1; 2]).
  - repeat constructor; cbn; lia.
  - repeat constructor.
    + exists (plain_torrent 1 0 0). split; [apply list_elem_of_here|reflexivity].
    + exists (plain_torrent 2 1 1).
      split; [apply list_elem_of_further, list_elem_of_here|reflexivity].
Defined.

(** X3: With protocol version 14 or later and a focused torrent, a page move
    in the queue ('ppage' or 'npage') sends torrent-set with a queuePosition
    within 0..len(torrent_cache)-1, which is the position of the torrent
    minus or plus 10 whenever that lies in the range. *)
Theorem page_moves_stay_in_queue (rpc_version focus : Z)
  (torrent_cache torrents : list Torrent.t) (t : Torrent.t) (direction : string) :
  14 <= rpc_version -> 0 <= focus ->
  torrents !! Z.to_nat focus = Some t ->
  torrent_cache <> [] ->
  direction = "ppage"%string \/ direction = "npage"%string ->
  exists (r : Request.t) (q : Z),
    Interface_move_queue rpc_version torrent_cache torrents focus direction
    = PyExc.Return (Some r) /\
    Request.method r = "torrent-set"%string /\
    Request.arguments r !! "queuePosition"%string = Some (JInt q) /\
    0 <= q <= Z.of_nat (length torrent_cache) - 1 /\
    let target := if String.eqb direction "ppage" then Torrent.queuePosition t - 10
                  else Torrent.queuePosition t + 10 in
    (0 <= target <= Z.of_nat (length torrent_cache) - 1 -> q = target).
Proof.
  intros Hv Hf Ht Hne Hdir. unfold Interface_move_queue.
  destruct (Z.geb_spec rpc_version 14); [|lia].
  destruct (Z.gtb_spec focus (-1)); [|lia]. cbn [andb].
  assert (Hget : getitemZ torrents focus = Ret t).
  { unfold getitemZ. pose proof (lookup_lt_Some _ _ _ Ht) as Hlt.
    destruct (Z.ltb_spec focus 0); [lia|].
    destruct (Z.leb_spec 0 focus); [|lia].
    destruct (Z.ltb_spec focus (Z.of_nat (length torrents))); [|lia].
    cbn [andb]. unfold getitem. now rewrite Ht. }
  assert (Hlen : 1 <= Z.of_nat (length torrent_cache))
    by (destruct torrent_cache; [contradiction|cbn [length]; lia]).
  rewrite Hget.
  destruct Hdir as [-> | ->]; cbn;
    eexists _, _; (split; [reflexivity|]); (split; [reflexivity|]);
    (split; [reflexivity|]); split; lia.
Qed.

(** A page up from the third place of a queue of three. *)
Lemma page_moves_stay_in_queue_witness :
  let torrents := [plain_torrent 1 0 0; plain_torrent 2 0 1; plain_torrent 3 0 2] in
  exists (r : Request.t) (q : Z),
    Interface_move_queue 17 torrents torrents 2 "ppage" = PyExc.Return (Some r) /\
    Request.method r = "torrent-set"%string /\
    Request.arguments r !! "queuePosition"%string = Some (JInt q) /\
    0 <= q <= 2 /\
    (0 <= 2 - 10 <= 2 -> q = 2 - 10).
Proof.
  intros torrents.
  apply (page_moves_stay_in_queue 17 2 torrents torrents (plain_torrent 3 0 2) "ppage").
  - lia.
  - lia.
  - reflexivity.
  - discriminate.
  - left. reflexivity.
Defined.

(** X4: set_seed_ratio sends mode 0 for a ratio of -1, mode 2 for 0, both
    with a null limit, and mode 1 with the ratio as limit only for a
    positive ratio; for any other negative ratio it sends nothing. *)
Theorem seed_ratio_limit_is_positive (ratio : Q) (ids : json) :
  match set_seed_ratio ratio ids with
  | None => (ratio < 0)%Q /\ ~ (ratio == -1)%Q
  | Some r =>
      Request.method r = "torrent-set"%string /\
      Request.arguments r !! "ids"%string = Some ids /\
      ((ratio == -1)%Q /\ Request.arguments r !! "seedRatioMode"%string = Some (JInt 0)
                       /\ Request.arguments r !! "seedRatioLimit"%string = Some JNull
       \/ (ratio == 0)%Q /\ Request.arguments r !! "seedRatioMode"%string = Some (JInt 2)
                         /\ Request.arguments r !! "seedRatioLimit"%string = Some JNull
       \/ (0 < ratio)%Q /\ Request.arguments r !! "seedRatioMode"%string = Some (JInt 1)
                        /\ Request.arguments r !! "seedRatioLimit"%string = Some (JNum ratio))
  end.
Proof.
  unfold set_seed_ratio.
  destruct (Qeq_bool ratio (-1)) eqn:E1.
  { apply Qeq_bool_iff in E1. cbn. repeat split; auto. }
  destruct (Qeq_bool ratio 0) eqn:E2.
  { apply Qeq_bool_iff in E2. cbn. repeat split; auto. }
  apply Qeq_bool_neq in E1, E2.
  destruct (Qle_bool 0 ratio) eqn:E3.
  - apply Qle_bool_iff in E3. cbn. repeat split; auto.
    right; right. repeat split; auto.
    apply Qle_lteq in E3 as [H|H]; [exact H|]. symmetry in H. contradiction.
  - split; [|exact E1].
    apply Qnot_le_lt. intros H. apply Qle_bool_iff in H. congruence.
Qed.

(** ** Reachability of peers *)

(** X5: can_has_peers is false exactly when 'dht-enabled' is known and DHT
    is off or the torrent is private, and the torrent has no trackers or
    some tracker has announced while none has succeeded. A torrent whose
    trackers have not announced yet is therefore never isolated. *)
Theorem isolated_iff (dht_enabled : option bool) (torrent : Torrent.t) :
  can_has_peers dht_enabled torrent = false <->
  (exists enabled, dht_enabled = Some enabled /\
                   (enabled = false \/ Torrent.isPrivate torrent = true)) /\
  (Torrent.trackerStats torrent = [] \/
   (exists tracker, tracker ∈ Torrent.trackerStats torrent /\
                    Tracker.hasAnnounced tracker = true) /\
   (forall tracker, tracker ∈ Torrent.trackerStats torrent ->
                    Tracker.lastAnnounceSucceeded tracker = false)).
Proof.
  unfold can_has_peers.
  set (trackers := Torrent.trackerStats torrent).
  assert (Hdht : match dht_enabled with
                 | Some enabled => enabled && negb (Torrent.isPrivate torrent)
                 | None => true
                 end = false <->
                 exists enabled, dht_enabled = Some enabled /\
                   (enabled = false \/ Torrent.isPrivate torrent = true)).
  { destruct dht_enabled as [enabled|].
    - destruct enabled, (Torrent.isPrivate torrent); cbn; split;
        try discriminate; eauto.
      + intros (e & [= <-] & [H|H]); discriminate.
    - split; [discriminate|]. intros (e & H & _). discriminate. }
  assert (Hann : existsb Tracker.hasAnnounced trackers = true <->
                 exists tracker, tracker ∈ trackers /\ Tracker.hasAnnounced tracker = true).
  { rewrite existsb_exists. split; intros (x & Hx & H); exists x; split; auto;
      apply list_elem_of_In; auto. }
  assert (Hsucc : existsb Tracker.lastAnnounceSucceeded trackers = false <->
                  forall tracker, tracker ∈ trackers ->
                                  Tracker.lastAnnounceSucceeded tracker = false).
  { rewrite <- not_true_iff_false, existsb_exists. split.
    - intros H x Hx. apply not_true_iff_false. intros Hs. apply H. exists x.
      split; [apply list_elem_of_In; exact Hx|exact Hs].
    - intros H (x & Hx & Hs). apply list_elem_of_In in Hx. rewrite (H x Hx) in Hs.
      discriminate. }
  destruct trackers as [|tr rest] eqn:Etr.
  - rewrite Hdht. split; [intros H; split; [exact H|left; reflexivity]|tauto].
  - destruct (existsb Tracker.hasAnnounced (tr :: rest)) eqn:Ea.
    + destruct (existsb Tracker.lastAnnounceSucceeded (tr :: rest)) eqn:Es.
      * split; [discriminate|]. intros (_ & [H|[_ H]]); [discriminate|].
        apply Hsucc in H. discriminate.
      * rewrite Hdht. split.
        -- intros H. split; [exact H|]. right. split; [apply Hann|apply Hsucc]; auto.
        -- tauto.
    + split; [discriminate|]. intros (_ & [H|[H _]]); [discriminate|].
      apply Hann in H. discriminate.
Qed.

(** ** Filters of the torrent list *)

Section FilterFacts.

Variable STATUS : Transmission.status_codes.
Variable re_search : string -> string -> PyExc.res bool.
Variable homedir2tilde : string -> PyExc.res string.

Local Abbreviation filter_torrent' := (filter_torrent STATUS re_search homedir2tilde).
Local Abbreviation shown' := (shown STATUS re_search homedir2tilde).
Local Abbreviation filter_torrent_list' :=
  (filter_torrent_list STATUS re_search homedir2tilde).

(** X6: A filter whose name filter_torrent does not know lets every torrent
    through, whatever its inverse flag. *)
Theorem unknown_filter_shows_everything (selected : gset Z) (t : Torrent.t)
  (filtr : Filter.t) :
  Filter.name filtr ∉ filter_names ->
  filter_torrent' selected t filtr = PyExc.Return true.
Proof.
  intros Hname. unfold filter_torrent.
  repeat match goal with
         | |- context [String.eqb (Filter.name filtr) ?s] =>
             destruct (String.eqb_spec (Filter.name filtr) s) as [E|_];
             [exfalso; apply Hname; rewrite E; unfold filter_names;
              repeat first [apply list_elem_of_here | apply list_elem_of_further]|]
         end.
  reflexivity.
Qed.

(** X7: For each of the eighteen filter names that filter_torrent knows,
    negating the inverse flag of the filter negates the result; an exception
    (a missing parameter, a failing regular expression) is raised either
    way. *)
Theorem inverse_flag_flips_a_known_filter (selected : gset Z) (t : Torrent.t)
  (name : string) (inverse : bool) (params : gmap string string) :
  name ∈ filter_names ->
  filter_torrent' selected t
    {| Filter.name := name; Filter.inverse := negb inverse; Filter.params := params |}
  = PyExc.bind
      (filter_torrent' selected t
         {| Filter.name := name; Filter.inverse := inverse; Filter.params := params |})
      (fun b => PyExc.Return (negb b)).
Proof.
  intros Hname. unfold filter_names in Hname.
  repeat (apply elem_of_cons in Hname; destruct Hname as [-> | Hname];
          [unfold filter_torrent; cbn;
           repeat match goal with
                  | |- context [PyExc.bind ?m _] =>
                      match m with
                      | PyExc.bind _ _ => fail 1
                      | _ => destruct m; cbn
                      end
                  end;
           try rewrite negb_xorb_l; try reflexivity|]).
  inversion Hname.
Qed.

Lemma comprehension_if_elem {A} (keep : A -> PyExc.res bool) (l : list A) :
  forall xs, comprehension_if keep l = PyExc.Return xs ->
             xs `sublist_of` l /\
             forall x, x ∈ xs <-> x ∈ l /\ keep x = PyExc.Return true.
Proof.
  induction l as [|y l IH]; cbn [comprehension_if]; intros xs Hrun.
  - injection Hrun as <-. split; [constructor|]. intros x. split.
    + intros H. inversion H.
    + intros [H _]. inversion H.
  - destruct (keep y) as [b|e] eqn:Hy; [|discriminate]. cbn [PyExc.bind] in Hrun.
    destruct (comprehension_if keep l) as [ys|e]; [|discriminate].
    cbn [PyExc.bind] in Hrun. injection Hrun as <-.
    destruct (IH ys eq_refl) as [Hsub Hin].
    destruct b.
    + split; [now constructor|]. intros x. rewrite !elem_of_cons, Hin.
      split; [intros [->|[H1 H2]]; auto|intros [[->|H1] H2]; auto].
    + split; [now constructor|]. intros x. rewrite elem_of_cons, Hin.
      split; [intros [H1 H2]; auto|intros [[->|H1] H2]; auto]. congruence.
Qed.

Lemma comprehension_if_complement {A} (keep keep' : A -> PyExc.res bool) (l : list A) :
  (forall x, keep' x = PyExc.bind (keep x) (fun b => PyExc.Return (negb b))) ->
  forall xs, comprehension_if keep l = PyExc.Return xs ->
             exists ys, comprehension_if keep' l = PyExc.Return ys /\ xs ++ ys ≡ₚ l.
Proof.
  intros Hneg. induction l as [|y l IH]; cbn [comprehension_if]; intros xs Hrun.
  - injection Hrun as <-. exists []. auto.
  - rewrite Hneg. destruct (keep y) as [b|e]; [|discriminate]. cbn [PyExc.bind] in *.
    destruct (comprehension_if keep l) as [xs'|e]; [|discriminate].
    cbn [PyExc.bind] in Hrun. injection Hrun as <-.
    destruct (IH xs' eq_refl) as (ys & -> & Hperm). cbn [PyExc.bind].
    destruct b; cbn [negb].
    + exists ys. split; [reflexivity|]. cbn. now constructor.
    + exists (y :: ys). split; [reflexivity|].
      rewrite <- Permutation_middle. now constructor.
Qed.

(** X8: When filter_torrent_list returns, the list holds, in their order,
    exactly the torrents for which the filter condition is true, and the
    selection holds exactly the ids that were selected and belong to a
    torrent still listed. *)
Theorem filter_torrent_list_selection (filters : list (list Filter.t))
  (filters_inverted : bool) (torrents torrents' : list Torrent.t)
  (selected selected' : gset Z) :
  filter_torrent_list' filters filters_inverted torrents selected
  = PyExc.Return (torrents', selected') ->
  torrents' `sublist_of` torrents /\
  (forall t, t ∈ torrents' <->
             t ∈ torrents /\
             shown' filters filters_inverted selected t = PyExc.Return true) /\
  (forall i, i ∈ selected' <->
             i ∈ selected /\ exists t, t ∈ torrents' /\ Torrent.id t = i).
Proof.
  unfold filter_torrent_list. intros Hrun.
  destruct (comprehension_if _ torrents) as [ts|e] eqn:Hts; [|discriminate].
  cbn [PyExc.bind] in Hrun. injection Hrun as <- <-.
  destruct (comprehension_if_elem _ _ _ Hts) as [Hsub Hin].
  split; [exact Hsub|]. split; [exact Hin|].
  intros i. rewrite elem_of_intersection, elem_of_list_to_set, list_elem_of_fmap.
  split; intros [H1 (t & H2 & H3)]; split; eauto.
Qed.

(** X9: When filter_torrent_list returns without inversion it also returns
    with filters_inverted set, and the two lists partition the torrents:
    together they are a permutation of the list, and no torrent is in both. *)
Theorem inverted_filters_show_the_rest (filters : list (list Filter.t))
  (torrents shown_torrents : list Torrent.t) (selected selected' : gset Z) :
  filter_torrent_list' filters false torrents selected
  = PyExc.Return (shown_torrents, selected') ->
  exists (hidden_torrents : list Torrent.t) (selected'' : gset Z),
    filter_torrent_list' filters true torrents selected
    = PyExc.Return (hidden_torrents, selected'') /\
    shown_torrents ++ hidden_torrents ≡ₚ torrents /\
    (forall t, t ∈ shown_torrents -> t ∉ hidden_torrents).
Proof.
  unfold filter_torrent_list. intros Hrun.
  destruct (comprehension_if (shown' filters false selected) torrents) as [ts|e] eqn:Hts;
    [|discriminate].
  cbn [PyExc.bind] in Hrun. injection Hrun as <- <-.
  assert (Hneg : forall t, shown' filters true selected t
                           = PyExc.bind (shown' filters false selected t)
                                        (fun b => PyExc.Return (negb b))).
  { intros t. unfold shown. destruct (py_any _ filters) as [b|e]; [|reflexivity].
    cbn. now destruct b. }
  destruct (comprehension_if_complement _ _ torrents Hneg ts Hts) as (ys & Hys & Hperm).
  rewrite Hys. cbn [PyExc.bind]. eexists _, _. split; [reflexivity|].
  split; [exact Hperm|].
  intros t H1 H2.
  apply (comprehension_if_elem _ _ _ Hts) in H1 as [_ H1].
  apply (comprehension_if_elem _ _ _ Hys) in H2 as [_ H2].
  rewrite Hneg, H1 in H2. discriminate.
Qed.

End FilterFacts.

(** The empty name, which is the filter of a fresh configuration. *)
Lemma unknown_filter_shows_everything_witness :
  filter_torrent Transmission.current (fun _ _ => PyExc.Return false)
                 (fun path => PyExc.Return path) ∅ (plain_torrent 1 0 0)
                 {| Filter.name := ""; Filter.inverse := true; Filter.params := ∅ |}
  = PyExc.Return true.
Proof.
  apply (unknown_filter_shows_everything Transmission.current
           (fun _ _ => PyExc.Return false) (fun path => PyExc.Return path)).
  cbn. unfold filter_names. intros H.
  repeat (apply elem_of_cons in H; destruct H as [H|H]; [discriminate|]).
  inversion H.
Defined.

(** The filter on the tracker, whose parameter is missing here: both
    sides raise [KeyError]. *)
Lemma inverse_flag_flips_a_known_filter_witness :
  filter_torrent Transmission.current (fun _ _ => PyExc.Return false)
                 (fun path => PyExc.Return path) ∅ (plain_torrent 1 0 0)
                 {| Filter.name := "tracker"; Filter.inverse := negb false;
                    Filter.params := ∅ |}
  = PyExc.bind
      (filter_torrent Transmission.current (fun _ _ => PyExc.Return false)
                      (fun path => PyExc.Return path) ∅ (plain_torrent 1 0 0)
                      {| Filter.name := "tracker"; Filter.inverse := false;
                         Filter.params := ∅ |})
      (fun b => PyExc.Return (negb b)).
Proof.
  apply (inverse_flag_flips_a_known_filter Transmission.current
           (fun _ _ => PyExc.Return false) (fun path => PyExc.Return path)).
  unfold filter_names.
  repeat first [apply list_elem_of_here | apply list_elem_of_further].
Defined.

(** Two stopped torrents, both selected, and the filter on downloads: the
    list and the selection become empty. *)
Lemma filter_torrent_list_selection_witness :
  let torrents := [plain_torrent 1 0 0; plain_torrent 2 0 1] in
  let downloading :=
    {| Filter.name := "downloading"; Filter.inverse := false; Filter.params := ∅ |} in
  let shown_here :=
    shown Transmission.current (fun _ _ => PyExc.Return false)
          (fun path => PyExc.Return path) [[downloading]] false {[ 1; 2 ]} in
  [] `sublist_of` torrents /\
  (forall t, t ∈ [] <-> t ∈ torrents /\ shown_here t = PyExc.Return true) /\
  (forall i, i ∈ ({[ 1; 2 ]} ∩ ∅ : gset Z) <->
             i ∈ ({[ 1; 2 ]} : gset Z) /\ exists t, t ∈ [] /\ Torrent.id t = i).
Proof.
  intros torrents downloading shown_here.
  apply (filter_torrent_list_selection Transmission.current
           (fun _ _ => PyExc.Return false) (fun path => PyExc.Return path)
           [[downloading]] false torrents [] {[ 1; 2 ]} ({[ 1; 2 ]} ∩ ∅)).
  reflexivity.
Defined.

(** With the same two torrents, the inverted filter shows both. *)
Lemma inverted_filters_show_the_rest_witness :
  let torrents := [plain_torrent 1 0 0; plain_torrent 2 0 1] in
  let downloading :=
    {| Filter.name := "downloading"; Filter.inverse := false; Filter.params := ∅ |} in
  exists (hidden_torrents : list Torrent.t) (selected'' : gset Z),
    filter_torrent_list Transmission.current (fun _ _ => PyExc.Return false)
                        (fun path => PyExc.Return path) [[downloading]] true torrents ∅
    = PyExc.Return (hidden_torrents, selected'') /\
    [] ++ hidden_torrents ≡ₚ torrents /\
    (forall t, t ∈ [] -> t ∉ hidden_torrents).
Proof.
  intros torrents downloading.
  apply (inverted_filters_show_the_rest Transmission.current
           (fun _ _ => PyExc.Return false) (fun path => PyExc.Return path)
           [[downloading]] torrents [] ∅ (∅ ∩ ∅)).
  reflexivity.
Defined.

(** ** Selection and movement in the torrent list *)

Lemma symmetric_difference_elem (a b : gset Z) (i : Z) :
  i ∈ symmetric_difference a b <-> (i ∈ a /\ i ∉ b) \/ (i ∈ b /\ i ∉ a).
Proof. unfold symmetric_difference. rewrite elem_of_union, !elem_of_difference. tauto. Qed.

Lemma symmetric_difference_twice (a b : gset Z) :
  symmetric_difference (symmetric_difference a b) b = a.
Proof.
  apply set_eq. intros i. rewrite !symmetric_difference_elem.
  destruct (decide (i ∈ a)), (decide (i ∈ b)); tauto.
Qed.

(** X10: action_select_unselect_torrent with invert puts into the selection
    exactly the ids that are either selected or listed, but not both, and
    leaves the focus alone; inverting again over the same list restores the
    selection. *)
Theorem inverting_the_selection_twice (h p selected_torrent : Z)
  (torrents : list Torrent.t) (selected : gset Z) (self : interface) :
  exists inverted : gset Z,
    action_select_unselect_torrent h p selected_torrent false true torrents selected self
    = Ret (inverted, self) /\
    (forall i, i ∈ inverted <->
               (i ∈ selected /\ i ∉ ids_of torrents) \/
               (i ∈ ids_of torrents /\ i ∉ selected)) /\
    action_select_unselect_torrent h p selected_torrent false true torrents inverted self
    = Ret (selected, self).
Proof.
  exists (symmetric_difference selected (ids_of torrents)).
  split; [reflexivity|]. split; [apply symmetric_difference_elem|].
  cbn. now rewrite symmetric_difference_twice.
Qed.

Lemma getitemZ_nonneg {A} (l : list A) (i : Z) (x : A) :
  0 <= i -> l !! Z.to_nat i = Some x -> getitemZ l i = Ret x.
Proof.
  intros Hi Hx. unfold getitemZ. pose proof (lookup_lt_Some _ _ _ Hx) as Hlt.
  destruct (Z.ltb_spec i 0); [lia|].
  destruct (Z.leb_spec 0 i); [|lia].
  destruct (Z.ltb_spec i (Z.of_nat (length l))); [|lia].
  cbn [andb]. unfold getitem. now rewrite Hx.
Qed.

Lemma getitemZ_minus_one {A} (l : list A) (x : A) :
  last l = Some x -> getitemZ l (-1) = Ret x.
Proof.
  intros Hx. unfold getitemZ.
  assert (Hlen : (1 <= length l)%nat) by (destruct l; [discriminate|cbn; lia]).
  change (-1 <? 0) with true. cbn match.
  destruct (Z.leb_spec 0 (Z.of_nat (length l) + -1)); [|lia].
  destruct (Z.ltb_spec (Z.of_nat (length l) + -1) (Z.of_nat (length l))); [|lia].
  cbn [andb]. unfold getitem.
  rewrite last_lookup in Hx.
  replace (Z.to_nat (Z.of_nat (length l) + -1)) with (Init.Nat.pred (length l)) by lia.
  now rewrite Hx.
Qed.

(** X11: focus_next_after_delete sets focused_id to the id of the torrent
    after the focused one, or to that of the torrent before it when the
    focused torrent is the last of at least two; with a single torrent
    listed, focused_id stays the id of that torrent. *)
Theorem focus_after_delete_is_a_neighbour (torrents : list Torrent.t) (self : interface) :
  0 <= focus self < Z.of_nat (length torrents) ->
  exists (j : nat) (t : Torrent.t),
    focus_next_after_delete torrents self
    = Ret {| focus := focus self; scrollpos := scrollpos self;
             focused_id := VInt (Torrent.id t) |} /\
    torrents !! j = Some t /\
    (focus self + 1 < Z.of_nat (length torrents) -> Z.of_nat j = focus self + 1) /\
    (focus self + 1 = Z.of_nat (length torrents) -> 2 <= Z.of_nat (length torrents) ->
     Z.of_nat j = focus self - 1) /\
    (length torrents = 1%nat -> j = 0%nat).
Proof.
  intros Hf. unfold focus_next_after_delete.
  set (n := Z.of_nat (length torrents)) in *. set (f := focus self) in *.
  destruct (Z.eqb_spec (Z.min (f + 1) (n - 2)) f) as [E|E]; cbn [negb].
  - (* the focused torrent is the last but one: the last is taken *)
    assert (Hn : f = n - 2) by lia.
    destruct (lookup_lt_is_Some_2 torrents (Z.to_nat (f + 1)) ltac:(lia)) as [t Ht].
    exists (Z.to_nat (f + 1)), t. rewrite E.
    rewrite (getitemZ_nonneg torrents (f + 1) t) by (auto; lia).
    repeat split; auto; lia.
  - destruct (Z.ltb_spec (f + 1) (n - 1)) as [Hlt|Hge].
    + destruct (lookup_lt_is_Some_2 torrents (Z.to_nat (f + 1)) ltac:(lia)) as [t Ht].
      exists (Z.to_nat (f + 1)), t.
      replace (Z.min (f + 1) (n - 2)) with (f + 1) by lia.
      rewrite (getitemZ_nonneg torrents (f + 1) t) by (auto; lia).
      repeat split; auto; lia.
    + assert (Hlast : f = n - 1) by lia.
      replace (Z.min (f + 1) (n - 2)) with (n - 2) by lia.
      destruct (Z.eq_dec n 1) as [H1|H1].
      * destruct torrents as [|t [|? ?]]; cbn in n; try lia.
        exists 0%nat, t. subst n. cbn. repeat split; auto; lia.
      * destruct (lookup_lt_is_Some_2 torrents (Z.to_nat (n - 2)) ltac:(lia)) as [t Ht].
        exists (Z.to_nat (n - 2)), t.
        rewrite (getitemZ_nonneg torrents (n - 2) t) by (auto; lia).
        repeat split; auto; lia.
Qed.

(** The last of three torrents is deleted: the one before it is focused. *)
Lemma focus_after_delete_is_a_neighbour_witness :
  let torrents := [plain_torrent 1 0 0; plain_torrent 2 0 1; plain_torrent 3 0 2] in
  let self := {| focus := 2; scrollpos := 0; focused_id := VInt 3 |} in
  exists (j : nat) (t : Torrent.t),
    focus_next_after_delete torrents self
    = Ret {| focus := 2; scrollpos := 0; focused_id := VInt (Torrent.id t) |} /\
    torrents !! j = Some t /\
    (2 + 1 < 3 -> Z.of_nat j = 2 + 1) /\
    (2 + 1 = 3 -> 2 <= 3 -> Z.of_nat j = 2 - 1) /\
    (3%nat = 1%nat -> j = 0%nat).
Proof.
  intros torrents self.
  apply (focus_after_delete_is_a_neighbour torrents self).
  cbn. lia.
Defined.

(** X12: In the torrent list, line_up from the first row leaves the focus at
    -1 and sets focused_id to the id of the last torrent, since the index -1
    counts from the end of the list. *)
Theorem line_up_from_the_first_row (h p : Z) (torrents : list Torrent.t)
  (self : interface) :
  1 <= h -> 1 <= p ->
  focus self = 0 ->
  scroll_inv h p (Z.of_nat (length torrents)) (focus self, scrollpos self) ->
  exists (s' : Z) (t : Torrent.t),
    last torrents = Some t /\
    movement_keys h p (-1) torrents "line_up" self
    = Ret {| focus := -1; scrollpos := s'; focused_id := VInt (Torrent.id t) |}.
Proof.
  intros Hh Hp Hf Hinv. rewrite Hf in Hinv.
  assert (Hlen : (1 <= length torrents)%nat) by (destruct Hinv as [? _]; lia).
  assert (Hup : exists s', move_up 0 (scrollpos self) h = Ret (-1, s'))
    by (eapply move_up_from_top; eauto).
  destruct Hup as [s' Hup].
  assert (Hlast : is_Some (last torrents))
    by (rewrite last_is_Some; intros ->; cbn in Hlen; lia).
  destruct Hlast as [t Hlast].
  exists s', t. split; [exact Hlast|].
  unfold movement_keys. change (-1 =? -1) with true.
  destruct (Z.gtb_spec (Z.of_nat (length torrents)) 0); [|lia]. cbn [andb].
  change (String.eqb "line_up" "line_up") with true. cbn match.
  rewrite Hf, Hup. cbn [bind].
  rewrite (getitemZ_minus_one torrents t Hlast). reflexivity.
Qed.

(** Three torrents, the focus on the first. *)
Lemma line_up_from_the_first_row_witness :
  let torrents := [plain_torrent 1 0 0; plain_torrent 2 0 1; plain_torrent 3 0 2] in
  let self := {| focus := 0; scrollpos := 0; focused_id := VInt 1 |} in
  exists (s' : Z) (t : Torrent.t),
    last torrents = Some t /\
    movement_keys 2 5 (-1) torrents "line_up" self
    = Ret {| focus := -1; scrollpos := s'; focused_id := VInt (Torrent.id t) |}.
Proof.
  intros torrents self.
  apply (line_up_from_the_first_row 2 5 torrents self).
  - lia.
  - lia.
  - reflexivity.
  - unfold scroll_inv. cbn. repeat split; lia.
Defined.

(** X13: From a focus and scroll position that satisfy the view invariant,
    every action of movement_keys in the torrent list (line_up only from a
    row other than the first) returns a state that satisfies it again, with
    focused_id the id of the torrent under the focus. *)
Theorem movement_focuses_a_listed_torrent (h p : Z) (torrents : list Torrent.t)
  (action : string) (self : interface) :
  1 <= h -> 1 <= p ->
  scroll_inv h p (Z.of_nat (length torrents)) (focus self, scrollpos self) ->
  (action = "line_up"%string -> 1 <= focus self) ->
  exists (self' : interface) (t : Torrent.t),
    movement_keys h p (-1) torrents action self = Ret self' /\
    scroll_inv h p (Z.of_nat (length torrents)) (focus self', scrollpos self') /\
    torrents !! Z.to_nat (focus self') = Some t /\
    focused_id self' = VInt (Torrent.id t).
Proof.
  intros Hh Hp Hinv Hup.
  set (n := Z.of_nat (length torrents)) in *.
  assert (Hn : 1 <= n) by (destruct Hinv as [? _]; lia).
  assert (Hmove : exists fs,
    (if String.eqb action "line_up" then move_up (focus self) (scrollpos self) h
     else if String.eqb action "line_down" then
       move_down (focus self) (scrollpos self) h p n
     else if String.eqb action "page_up" then
       Ret (move_page_up (focus self) (scrollpos self) h p)
     else if String.eqb action "page_down" then
       Ret (move_page_down (focus self) (scrollpos self) h p n)
     else if String.eqb action "home" then Ret move_to_top
     else if String.eqb action "end" then Ret (move_to_end h p n)
     else Ret (focus self, scrollpos self)) = Ret fs /\ scroll_inv h p n fs).
  { destruct (String.eqb_spec action "line_up") as [E|_];
      [eapply move_up_inv; eauto|].
    destruct (String.eqb action "line_down"); [eapply move_down_inv; eauto|].
    destruct (String.eqb action "page_up");
      [eexists; split; [reflexivity|apply move_page_up_inv; auto]|].
    destruct (String.eqb action "page_down");
      [eexists; split; [reflexivity|apply move_page_down_inv; auto]|].
    destruct (String.eqb action "home").
    { eexists; split; [reflexivity|]. unfold move_to_top, scroll_inv.
      rewrite Z.mod_0_l by lia. repeat split; nia. }
    destruct (String.eqb action "end");
      [eexists; split; [reflexivity|apply move_to_end_inv; auto]|].
    eexists; split; [reflexivity|exact Hinv]. }
  destruct Hmove as ([f' s'] & Hmove & Hinv').
  assert (Hf' : 0 <= f' <= n - 1) by (destruct Hinv' as [? _]; lia).
  destruct (lookup_lt_is_Some_2 torrents (Z.to_nat f') ltac:(lia)) as [t Ht].
  exists {| focus := f'; scrollpos := s'; focused_id := VInt (Torrent.id t) |}, t.
  split; [|cbn; auto].
  unfold movement_keys. change (-1 =? -1) with true.
  destruct (Z.gtb_spec (Z.of_nat (length torrents)) 0); [|lia]. cbn [andb].
  fold n. rewrite Hmove. cbn [bind].
  rewrite (getitemZ_nonneg torrents f' t) by (auto; lia). reflexivity.
Qed.

(** A page down in a list of three. *)
Lemma movement_focuses_a_listed_torrent_witness :
  let torrents := [plain_torrent 1 0 0; plain_torrent 2 0 1; plain_torrent 3 0 2] in
  let self := {| focus := 0; scrollpos := 0; focused_id := VInt 1 |} in
  exists (self' : interface) (t : Torrent.t),
    movement_keys 2 5 (-1) torrents "page_down" self = Ret self' /\
    scroll_inv 2 5 3 (focus self', scrollpos self') /\
    torrents !! Z.to_nat (focus self') = Some t /\
    focused_id self' = VInt (Torrent.id t).
Proof.
  intros torrents self.
  apply (movement_focuses_a_listed_torrent 2 5 torrents "page_down" self).
  - lia.
  - lia.
  - unfold scroll_inv. cbn. repeat split; lia.
  - discriminate.
Defined.

(** ** Movement in the details of a torrent *)

Lemma elem_of_py_range (a b i : Z) : i ∈ py_range a b <-> a <= i < b.
Proof. unfold py_range. rewrite elem_of_seqZ. lia. Qed.

(** X14: In visual mode the selected files after a movement are exactly the
    indices between the row where the mode was started and the focused row,
    both included, each once. *)
Theorem visual_mode_selects_the_span (vmode_id focus_detaillist : Z)
  (selected_files : list Z) :
  -1 < vmode_id ->
  let span_of := visual_mode vmode_id focus_detaillist selected_files in
  (forall i, i ∈ span_of <->
             Z.min vmode_id focus_detaillist <= i <= Z.max vmode_id focus_detaillist) /\
  NoDup span_of /\
  Z.of_nat (length span_of) = Z.abs (vmode_id - focus_detaillist) + 1.
Proof.
  intros Hv. unfold visual_mode. destruct (Z.gtb_spec vmode_id (-1)); [|lia].
  destruct (Z.ltb_spec vmode_id focus_detaillist); cbn zeta.
  - split; [intros i; rewrite elem_of_py_range; lia|].
    split; [apply NoDup_seqZ|]. unfold py_range. rewrite length_seqZ. lia.
  - split; [intros i; rewrite elem_of_py_range; lia|].
    split; [apply NoDup_seqZ|]. unfold py_range. rewrite length_seqZ. lia.
Qed.

(** The visual mode was started on file 5, and the focus went up to 2. *)
Lemma visual_mode_selects_the_span_witness :
  (forall i, i ∈ visual_mode 5 2 [5] <-> Z.min 5 2 <= i <= Z.max 5 2) /\
  NoDup (visual_mode 5 2 [5]) /\
  Z.of_nat (length (visual_mode 5 2 [5])) = Z.abs (5 - 2) + 1.
Proof.
  apply (visual_mode_selects_the_span 5 2 [5]). lia.
Defined.

(** X15: In the lists of peers, trackers and pieces a movement keeps the
    scroll position within 0..max(0, list_len-1), and for peers and pieces
    at most max(0, list_len - detaillines_per_page). *)
Theorem detail_scroll_stays_in_the_list (action : string) (details_category_focus list_len
  lines_per_page ppage detaillines_per_page scrollpos : Z) :
  0 <= list_len -> 0 <= lines_per_page -> 0 <= ppage ->
  0 <= scrollpos <= Z.max 0 (list_len - 1) ->
  let scrollpos' :=
    scroll_detaillist action details_category_focus list_len lines_per_page ppage
                      detaillines_per_page scrollpos in
  0 <= scrollpos' <= Z.max 0 (list_len - 1) /\
  (details_category_focus = 2 \/ details_category_focus = 4 ->
   scrollpos' <= Z.max 0 (list_len - detaillines_per_page)).
Proof.
  intros Hlen Hl Hpp Hs. unfold scroll_detaillist.
  destruct (Z.eqb_spec list_len 0) as [E0|E0]; cbn [negb];
    destruct (Z.eqb_spec details_category_focus 2) as [E2|E2];
    destruct (Z.eqb_spec details_category_focus 4) as [E4|E4]; cbn [orb];
    repeat match goal with
           | |- context [String.eqb action ?s] => destruct (String.eqb action s)
           | |- context [?a >? ?b] => destruct (Z.gtb_spec a b)
           | |- context [?a <? ?b] => destruct (Z.ltb_spec a b)
           end; cbn zeta; lia.
Qed.

(** A page down near the end of a list of twelve peers, ten to a page. *)
Lemma detail_scroll_stays_in_the_list_witness :
  0 <= scroll_detaillist "page_down" 2 12 10 1 10 1 <= Z.max 0 (12 - 1) /\
  (2 = 2 \/ 2 = 4 -> scroll_detaillist "page_down" 2 12 10 1 10 1 <= Z.max 0 (12 - 10)).
Proof.
  apply (detail_scroll_stays_in_the_list "page_down" 2 12 10 1 10 1); lia.
Defined.

(** X16: action_next_details and action_prev_details keep the category
    within 0..4 and undo each other on it, and five steps forward return to
    the category; the step forward resets the focus of the list to -1, the
    step back keeps it. *)
Theorem details_tabs_cycle (self : details_view) :
  0 <= details_category_focus self <= 4 ->
  0 <= details_category_focus (action_next_details self) <= 4 /\
  0 <= details_category_focus (action_prev_details self) <= 4 /\
  details_category_focus (action_prev_details (action_next_details self))
  = details_category_focus self /\
  details_category_focus (action_next_details (action_prev_details self))
  = details_category_focus self /\
  details_category_focus (Nat.iter 5 action_next_details self)
  = details_category_focus self /\
  focus_detaillist (action_next_details self) = -1 /\
  focus_detaillist (action_prev_details self) = focus_detaillist self.
Proof.
  intros Hc. unfold action_next_details, action_prev_details. cbn.
  set (c := details_category_focus self) in *.
  assert (Hcases : c = 0 \/ c = 1 \/ c = 2 \/ c = 3 \/ c = 4) by lia.
  destruct Hcases as [E|[E|[E|[E|E]]]]; rewrite E; cbn; repeat split; lia.
Qed.

(** From the last category. *)
Lemma details_tabs_cycle_witness :
  let self := {| details_category_focus := 4; focus_detaillist := 3;
                 filelist_needs_refresh := false |} in
  0 <= details_category_focus (action_next_details self) <= 4 /\
  0 <= details_category_focus (action_prev_details self) <= 4 /\
  details_category_focus (action_prev_details (action_next_details self)) = 4 /\
  details_category_focus (action_next_details (action_prev_details self)) = 4 /\
  details_category_focus (Nat.iter 5 action_next_details self) = 4 /\
  focus_detaillist (action_next_details self) = -1 /\
  focus_detaillist (action_prev_details self) = 3.
Proof.
  intros self. apply (details_tabs_cycle self). cbn. lia.
Defined.

(** ** The sort orders of the configuration *)

Lemma parse_sort_item_spec (orders : list string) (sort_orders : list SortOrder.t)
  (i : string) :
  exists sort_orders',
    parse_sort_item orders sort_orders i = Ret sort_orders' /\
    (sort_orders' = sort_orders \/
     exists o, sort_orders' = sort_orders ++ [o] /\ SortOrder.name o ∈ orders).
Proof.
  unfold parse_sort_item. pose proof (split_length ":" i) as Hx.
  destruct (split ":" i) as [|x0 [|x1 rest]]; [cbn in Hx; lia| |].
  - cbn. destruct (decide (x0 ∈ orders)) as [H|H].
    + rewrite bool_decide_eq_true_2 by exact H. eauto 6.
    + rewrite bool_decide_eq_false_2 by exact H. eauto.
  - cbn. destruct (decide (x1 ∈ orders)) as [H1|H1].
    + rewrite bool_decide_eq_true_2 by exact H1. cbn. eauto 6.
    + rewrite bool_decide_eq_false_2 by exact H1. cbn.
      destruct (decide (x0 ∈ orders)) as [H|H].
      * rewrite bool_decide_eq_true_2 by exact H. eauto 6.
      * rewrite bool_decide_eq_false_2 by exact H. eauto.
Qed.

Lemma parse_sort_loop_spec (orders : list string) (items : list string) :
  forall sort_orders,
    Forall (fun o => SortOrder.name o ∈ orders) sort_orders ->
    exists sort_orders',
      parse_sort_loop orders sort_orders items = Ret sort_orders' /\
      Forall (fun o => SortOrder.name o ∈ orders) sort_orders' /\
      (length sort_orders' <= length sort_orders + length items)%nat.
Proof.
  induction items as [|i rest IH]; intros acc Hacc; cbn [parse_sort_loop].
  - exists acc. split; [reflexivity|]. split; [exact Hacc|lia].
  - destruct (parse_sort_item_spec orders acc i) as (acc' & -> & Hstep). cbn [bind].
    assert (Hacc' : Forall (fun o => SortOrder.name o ∈ orders) acc' /\
                    (length acc' <= S (length acc))%nat).
    { destruct Hstep as [->|(o & -> & Ho)]; [split; [exact Hacc|lia]|].
      split; [apply Forall_app; split; [exact Hacc|repeat constructor; exact Ho]|].
      rewrite length_app. cbn. lia. }
    destruct (IH acc' (proj1 Hacc')) as (res & -> & Hres & Hlen).
    exists res. split; [reflexivity|]. split; [exact Hres|]. cbn [length]. lia.
Qed.

(** X17: parse_sort_str never raises and never returns an empty list: it
    returns at most one order for each comma-separated item, all with names
    among the orders given, or else the single default order by name. *)
Theorem parse_sort_str_never_empty (sort_str : string) (orders : list string) :
  exists sort_orders,
    parse_sort_str sort_str orders = Ret sort_orders /\
    sort_orders <> [] /\
    (length sort_orders <= length (split "," sort_str))%nat /\
    (Forall (fun o => SortOrder.name o ∈ orders) sort_orders \/
     sort_orders = [ {| SortOrder.name := "name"; SortOrder.reverse := false |} ]).
Proof.
  unfold parse_sort_str.
  destruct (parse_sort_loop_spec orders (split "," sort_str) [] ltac:(constructor))
    as (res & -> & Hres & Hlen).
  cbn [bind]. pose proof (split_length "," sort_str) as Hitems.
  destruct res as [|o res].
  - eexists. split; [reflexivity|]. split; [discriminate|]. split; [cbn; lia|auto].
  - eexists. split; [reflexivity|]. split; [discriminate|]. split; [cbn in *; lia|auto].
Qed.

(** ** The windows of the normalizer *)

(** X18: Normalizer.add with max_len of at least 1 keeps every window at
    most max_len long when all were before, leaves the windows of the other
    keys as they are, and puts the new value last in the window of its key. *)
Theorem normalizer_windows_stay_bounded (values : gmap string (list Q)) (key : string)
  (value : Q) (max_len : nat) :
  (1 <= max_len)%nat ->
  (forall k l, values !! k = Some l -> (length l <= max_len)%nat) ->
  let values' := Normalizer_add values key value max_len in
  (forall k l, values' !! k = Some l -> (length l <= max_len)%nat) /\
  (forall k, k <> key -> values' !! k = values !! k) /\
  (exists window, values' !! key = Some window /\ last window = Some value).
Proof.
  intros Hmax Hbound values'.
  destruct (Normalizer_add_get values key value max_len) as (window & Hw & Hlast & _ & Hlen).
  assert (Hother : forall k, k <> key -> values' !! k = values !! k).
  { intros k Hk. unfold values', Normalizer_add.
    destruct (values !! key); now rewrite lookup_insert_ne. }
  split; [|split; [exact Hother|eauto]].
  intros k l Hl. destruct (decide (k = key)) as [->|Hk].
  - fold values' in Hw. rewrite Hw in Hl. injection Hl as <-.
    apply Hlen; [exact Hmax|apply Hbound].
  - rewrite (Hother k Hk) in Hl. eapply Hbound, Hl.
Qed.

(** A full window of two samples. *)
Lemma normalizer_windows_stay_bounded_witness :
  let values : gmap string (list Q) := {[ "a"%string := [1%Q; 2%Q] ]} in
  let values' := Normalizer_add values "a" 3 2 in
  (forall k l, values' !! k = Some l -> (length l <= 2)%nat) /\
  (forall k, k <> "a"%string -> values' !! k = values !! k) /\
  (exists window, values' !! "a"%string = Some window /\ last window = Some 3%Q).
Proof.
  intros values.
  apply (normalizer_windows_stay_bounded values "a" 3 2).
  - lia.
  - intros k l Hl. destruct (decide (k = "a"%string)) as [->|Hk].
    + unfold values in Hl. rewrite lookup_singleton_eq in Hl. injection Hl as <-.
      cbn. lia.
    + unfold values in Hl. rewrite lookup_singleton_ne in Hl by congruence.
      discriminate.
Defined.

(** ** Sorting by any orders *)

Lemma sort_insert_perm {A} (reverse : bool) (kx : string * A) (sorted : list (string * A)) :
  sort_insert reverse kx sorted ≡ₚ kx :: sorted.
Proof.
  induction sorted as [|ky rest IH]; cbn [sort_insert]; [reflexivity|].
  destruct (if reverse then _ else _); [|reflexivity].
  rewrite IH. apply perm_swap.
Qed.

Lemma sort_keyed_perm {A} (reverse : bool) (keyed : list (string * A)) :
  sort_keyed reverse keyed ≡ₚ keyed.
Proof.
  unfold sort_keyed. induction keyed as [|kx rest IH]; cbn [foldr]; [reflexivity|].
  rewrite sort_insert_perm. now constructor.
Qed.

Lemma comprehension_length {A B} (g : A -> res B) (l : list A) :
  forall ys, comprehension g l = Ret ys -> length ys = length l.
Proof.
  induction l as [|x l IH]; cbn [comprehension]; intros ys Hrun.
  - now injection Hrun as <-.
  - destruct (g x); [|discriminate]. cbn [bind] in Hrun.
    destruct (comprehension g l) as [ys'|]; [|discriminate].
    cbn [bind] in Hrun. injection Hrun as <-. cbn. f_equal. now apply IH.
Qed.

(** [lambda x: sort_value(x[attribute])] *)
Local Abbreviation sort_key attribute :=
  (fun x : gmap string value => let! v := dict_get x attribute in Ret (sort_value v)).

Lemma dict_get_None {V} (d : gmap string V) (key : string) :
  d !! key = None -> dict_get d key = Raise KeyError.
Proof. intros H. unfold dict_get. now rewrite H. Qed.

(** The keys of a sort are computed, or a torrent lacks the attribute. *)
Lemma sort_keys_cases (attribute : string) (l : list (gmap string value)) :
  (exists keys, comprehension (sort_key attribute) l = Ret keys) /\
  Forall (fun t => is_Some (t !! attribute)) l
  \/ comprehension (sort_key attribute) l = Raise KeyError /\
     exists t, t ∈ l /\ t !! attribute = None.
Proof.
  induction l as [|t l IH]; cbn [comprehension].
  - left. split; [eauto|constructor].
  - destruct (t !! attribute) as [v|] eqn:Ht;
      [rewrite (dict_get_Some _ _ _ Ht)|rewrite (dict_get_None _ _ Ht)]; cbn [bind].
    + destruct IH as [[[keys ->] Hall]|[-> (t' & Hin & Hnone)]]; cbn [bind].
      * left. split; [eauto|]. constructor; [rewrite Ht; eauto|exact Hall].
      * right. split; [reflexivity|]. exists t'. split; [now right|exact Hnone].
    + right. split; [reflexivity|]. exists t. split; [now left|exact Ht].
Qed.

Lemma list_sort_cases (attribute : string) (reverse : bool)
  (l : list (gmap string value)) :
  (exists l', list_sort (sort_key attribute) reverse l = Ret l' /\ l' ≡ₚ l) /\
  Forall (fun t => is_Some (t !! attribute)) l
  \/ list_sort (sort_key attribute) reverse l = Raise KeyError /\
     exists t, t ∈ l /\ t !! attribute = None.
Proof.
  unfold list_sort.
  destruct (sort_keys_cases attribute l) as [[[keys Hkeys] Hall]|[Hraise Hmiss]].
  - left. split; [|exact Hall]. rewrite Hkeys. cbn [bind].
    eexists. split; [reflexivity|].
    rewrite sort_keyed_perm. rewrite snd_zip; [reflexivity|].
    rewrite (comprehension_length _ _ _ Hkeys). lia.
  - right. split; [|exact Hmiss]. now rewrite Hraise.
Qed.

Lemma sort_loop_cases (sort_orders : list SortOrder.t) :
  forall torrent_cache : list torrent,
    (exists l, sort_loop sort_orders torrent_cache = Ret l /\ l ≡ₚ torrent_cache) /\
    Forall (fun o => Forall (fun t => is_Some (t !! SortOrder.name o)) torrent_cache)
           sort_orders
    \/ sort_loop sort_orders torrent_cache = Raise KeyError /\
       exists o t, o ∈ sort_orders /\ t ∈ torrent_cache /\ t !! SortOrder.name o = None.
Proof.
  induction sort_orders as [|o rest IH]; intros cache; cbn [sort_loop].
  - left. split; [eauto|constructor].
  - destruct (list_sort_cases (SortOrder.name o) (SortOrder.reverse o) cache)
      as [[(l' & -> & Hperm) Hall]|[-> (t & Hin & Hnone)]]; cbn [bind].
    + destruct (IH l') as [[(l & -> & Hperm') Hall']|[-> (o' & t & Ho & Hin & Hnone)]].
      * left. split; [exists l; split; [reflexivity|now rewrite Hperm']|].
        constructor; [exact Hall|].
        eapply Forall_impl; [exact Hall'|]. cbn. intros o' H. now rewrite <- Hperm.
      * right. split; [reflexivity|]. exists o', t.
        split; [now right|]. split; [now rewrite <- Hperm|exact Hnone].
    + right. split; [reflexivity|]. exists o, t. split; [now left|auto].
Qed.

(** X19: When every torrent carries every sort key, get_torrent_list returns
    a permutation of the cache, for any list of sort orders, reversed or
    not. *)
Theorem get_torrent_list_permutes (sort_orders : list SortOrder.t)
  (torrent_cache : list torrent) :
  Forall (fun o => Forall (fun t => is_Some (t !! SortOrder.name o)) torrent_cache)
         sort_orders ->
  exists l, get_torrent_list sort_orders torrent_cache = Ret l /\ l ≡ₚ torrent_cache.
Proof.
  intros Hall. unfold get_torrent_list.
  destruct (sort_loop_cases sort_orders torrent_cache)
    as [[(l & -> & Hperm) _]|[_ (o & t & Ho & Hin & Hnone)]].
  - eauto.
  - rewrite Forall_forall in Hall. specialize (Hall o Ho).
    rewrite Forall_forall in Hall. destruct (Hall t Hin) as [v Hv]. congruence.
Qed.

(** Two torrents sorted by name, in reverse, then by id. *)
Lemma get_torrent_list_permutes_witness :
  let torrent_cache : list torrent :=
    [ {[ "id"%string := VInt 1; "name"%string := VStr "b" ]};
      {[ "id"%string := VInt 2; "name"%string := VStr "a" ]} ] in
  let sort_orders :=
    [ {| SortOrder.name := "name"; SortOrder.reverse := true |};
      {| SortOrder.name := "id"; SortOrder.reverse := false |} ] in
  exists l, get_torrent_list sort_orders torrent_cache = Ret l /\ l ≡ₚ torrent_cache.
Proof.
  intros torrent_cache sort_orders.
  apply (get_torrent_list_permutes sort_orders torrent_cache).
  repeat constructor; eexists; reflexivity.
Defined.

(** X20: When some torrent lacks the attribute of one of the sort orders,
    get_torrent_list raises KeyError: only IndexError is turned into an
    empty list. *)
Theorem get_torrent_list_missing_key (sort_orders : list SortOrder.t)
  (torrent_cache : list torrent) (o : SortOrder.t) (t : torrent) :
  o ∈ sort_orders -> t ∈ torrent_cache -> t !! SortOrder.name o = None ->
  get_torrent_list sort_orders torrent_cache = Raise KeyError.
Proof.
  intros Ho Hin Hnone. unfold get_torrent_list.
  destruct (sort_loop_cases sort_orders torrent_cache) as [[_ Hall]|[-> _]];
    [|reflexivity].
  rewrite Forall_forall in Hall. specialize (Hall o Ho).
  rewrite Forall_forall in Hall. destruct (Hall t Hin) as [v Hv]. congruence.
Qed.

(** The name [reverse], which [parse_sort_str] takes from the sort
    options, is not an attribute of a torrent. *)
Lemma get_torrent_list_missing_key_witness :
  let t : torrent := {[ "id"%string := VInt 1; "name"%string := VStr "b" ]} in
  let o := {| SortOrder.name := "reverse"; SortOrder.reverse := false |} in
  get_torrent_list [o] [t] = Raise KeyError.
Proof.
  intros t o.
  apply (get_torrent_list_missing_key [o] [t] o t).
  - apply list_elem_of_here.
  - apply list_elem_of_here.
  - reflexivity.
Defined.

(** ** The sort-order menu *)



(** ** The session id of a challenge *)

Lemma span_class (cls : ascii -> bool) (s : string) :
  Forall (fun c => cls c = true) (list_ascii_of_string (fst (span cls s))).
Proof.
  induction s as [|c s IH]; cbn [span]; [constructor|].
  destruct (cls c) eqn:Ec; [|constructor].
  destruct (span cls s) as [a b]. cbn in *. now constructor.
Qed.

(** X22: The session id that send_request extracts from the text of a 409
    answer is non-empty and consists of word characters only. *)
Theorem session_id_is_a_word (msg token : string) :
  search_session_id msg = Some token ->
  token <> ""%string /\
  Forall (fun c => is_word c = true) (list_ascii_of_string token).
Proof.
  intros Hfound. split; [eapply search_session_id_nonempty, Hfound|].
  induction msg as [|c msg IH].
  - cbn in Hfound. discriminate.
  - cbn [search_session_id] in Hfound.
    destruct (match_session_id (String c msg)) as [w|] eqn:Hm; [|exact (IH Hfound)].
    injection Hfound as ->. unfold match_session_id in Hm.
    destruct (strip_prefix _ (String c msg)) as [rest|]; [|discriminate].
    pose proof (span_class is_word (snd (span is_space rest))) as Hw.
    destruct (span is_word (snd (span is_space rest))) as [w b].
    destruct (String.eqb w ""); [discriminate|]. now injection Hm as <-.
Qed.

(** The text of a challenge. *)
Lemma session_id_is_a_word_witness :
  "abc"%string <> ""%string /\
  Forall (fun c => is_word c = true) (list_ascii_of_string "abc").
Proof.
  apply (session_id_is_a_word "409: X-Transmission-Session-Id: abc</code>" "abc").
  reflexivity.
Defined.

(** ** The width of a sort value, and percentages *)

Lemma zeros_length (n : nat) : String.length (zeros n) = n.
Proof. induction n as [|n IH]; [reflexivity|]. cbn. now f_equal. Qed.

(** X23: The sort value of an integer of absolute value at most 2^53, which
    is where its conversion to a float is exact, is 27 characters long. *)
Theorem sort_value_of_an_integer_has_width_27 (z : Z) :
  - 2 ^ 53 <= z <= 2 ^ 53 ->
  String.length (sort_value (VInt z)) = 27%nat.
Proof.
  intros Hz. change (2 ^ 53) with 9007199254740992 in Hz.
  cbn [sort_value]. unfold format_027_6f. cbv zeta.
  rewrite !string_app_length, zeros_length.
  change (String.length ".000000") with 7%nat.
  assert (Hdigits : (String.length (decimal (Z.abs z))
                     <= if (z <? 0)%Z then 19 else 20)%nat).
  { unfold decimal. destruct (Z.ltb_spec z 0).
    - apply decimal_length_le; lia.
    - apply decimal_length_le; lia. }
  destruct (z <? 0); cbn [String.length] in *; lia.
Qed.

(** A negative sentinel. *)
Lemma sort_value_of_an_integer_has_width_27_witness :
  String.length (sort_value (VInt (-1))) = 27%nat.
Proof.
  apply (sort_value_of_an_integer_has_width_27 (-1)). split; discriminate.
Defined.

(** X24: For a positive part that is at most the full amount, percent
    returns a value above 0 and at most 100, and 100 when the part is the
    full amount. *)
Theorem percent_of_a_part_is_at_most_100 (full part : Q) :
  (0 < part)%Q -> (part <= full)%Q ->
  exists p, percent full part = Ret p /\
            (0 < p)%Q /\ (p <= 100)%Q /\ ((part == full)%Q -> (p == 100)%Q).
Proof.
  intros Hpart Hfull. unfold percent, truediv.
  assert (Hp0 : ~ (part == 0)%Q)
    by (intros E; rewrite E in Hpart; now apply Qlt_irrefl in Hpart).
  destruct (Qeq_bool part 0) eqn:E1; [apply Qeq_bool_iff in E1; contradiction|].
  cbn [bind].
  assert (Hq : (1 <= full / part)%Q).
  { apply Qle_shift_div_l; [exact Hpart|]. now rewrite Qmult_1_l. }
  assert (Hq0 : ~ (full / part == 0)%Q).
  { intros E. rewrite E in Hq. revert Hq. apply Qlt_not_le. reflexivity. }
  destruct (Qeq_bool (full / part) 0) eqn:E2; [apply Qeq_bool_iff in E2; contradiction|].
  cbn. eexists. split; [reflexivity|].
  assert (Hpos : (0 < full / part)%Q) by (eapply Qlt_le_trans; [|exact Hq]; reflexivity).
  split; [apply Qlt_shift_div_l; [exact Hpos|]; rewrite Qmult_0_l; reflexivity|].
  split.
  - apply Qle_shift_div_r; [exact Hpos|]. set (q := (full / part)%Q) in *. lra.
  - intros E. rewrite E. field. intros E0. apply Hp0. now rewrite E.
Qed.

(** A quarter. *)
Lemma percent_of_a_part_is_at_most_100_witness :
  exists p, percent 200 50 = Ret p /\
            (0 < p)%Q /\ (p <= 100)%Q /\ ((50 == 200)%Q -> (p == 100)%Q).
Proof.
  apply (percent_of_a_part_is_at_most_100 200 50); [reflexivity|discriminate].
Defined.

(** ** The lines of the file list *)

Section FilelistLinesFacts.

Variable create_filelist_line : string -> Z -> Q -> Z -> Z -> string.

Lemma create_filelist_step_lines (st : filelist_state) (file : File.t) :
  current_depth st = Z.of_nat (length (current_folder st)) ->
  exists (st' : filelist_state) (entered : list string),
    create_filelist_step create_filelist_line st file = Ret st' /\
    filelist_cache st' =
      filelist_cache st ++ entered ++ [file_row create_filelist_line (index st) file] /\
    pos st' = pos st + Z.of_nat (length entered) /\
    filelist_cache_pos st' = filelist_cache_pos st ++ [pos st'] /\
    filelist_cache_pos_dict st'
    = <[ index st + pos st' := index st ]> (filelist_cache_pos_dict st) /\
    current_depth st' = Z.of_nat (length (current_folder st')) /\
    index st' = index st + 1.
Proof.
  intros Hdepth. unfold create_filelist_step, file_row.
  pose proof (split_length "/" (File.name file)) as Hf.
  set (f := split "/" (File.name file)) in *.
  rewrite getitemZ_last by exact Hf.
  destruct (percent_total (inject_Z (File.length file))
              (inject_Z (File.bytesCompleted file))) as [pc ->].
  destruct (decide (folder_of f = current_folder st)) as [E|E].
  - rewrite bool_decide_eq_false_2 by tauto. cbn [bind].
    eexists _, []. split; [reflexivity|]. cbn.
    rewrite Hdepth, <- E, folder_of_length by exact Hf.
    repeat split; auto. f_equal; lia.
  - rewrite bool_decide_eq_true_2 by exact E.
    rewrite Hdepth, create_filelist_transition_spec by exact Hf. cbn [bind].
    eexists _, (entered_rows (current_folder st) (folder_of f)).
    split; [reflexivity|]. cbn.
    rewrite <- app_assoc, folder_of_length by exact Hf. auto 8.
Qed.

Lemma create_filelist_step_recorded (done : list File.t) (st : filelist_state)
  (file : File.t) :
  current_depth st = Z.of_nat (length (current_folder st)) ->
  0 <= pos st ->
  lines_recorded create_filelist_line done st ->
  exists st',
    create_filelist_step create_filelist_line st file = Ret st' /\
    current_depth st' = Z.of_nat (length (current_folder st')) /\
    0 <= pos st' /\
    lines_recorded create_filelist_line (done ++ [file]) st'.
Proof.
  intros Hdepth Hpos (Hindex & Hlen & Hposlen & Hbound & Hlines).
  destruct (create_filelist_step_lines st file Hdepth)
    as (st' & entered & Hrun & Hcache & Hpos' & Hcpos & Hdict & Hdepth' & Hindex').
  exists st'. split; [exact Hrun|]. split; [exact Hdepth'|]. split; [lia|].
  unfold lines_recorded. rewrite Hcache, Hcpos, Hdict, Hindex', !length_app. cbn [length].
  split; [lia|]. split; [lia|]. split; [lia|]. split.
  - intros i p Hp. apply lookup_app_Some in Hp as [Hp|[_ Hp]].
    + specialize (Hbound i p Hp). lia.
    + apply list_lookup_singleton_Some in Hp as [_ <-]. lia.
  - intros i f Hf. apply lookup_app_Some in Hf as [Hf|[Hge Hf]].
    + destruct (Hlines i f Hf) as (p & Hp & Hd & Hrow).
      pose proof (lookup_lt_Some _ _ _ Hf) as Hi.
      pose proof (Hbound i p Hp) as Hb.
      exists p. split; [now apply lookup_app_l_Some|].
      split; [rewrite lookup_insert_ne by lia; exact Hd|].
      now apply lookup_app_l_Some.
    + apply list_lookup_singleton_Some in Hf as [Hi <-].
      assert (Ei : i = length done) by lia. subst i.
      exists (pos st'). split; [rewrite lookup_app_r by lia; rewrite Hposlen, Nat.sub_diag;
                                reflexivity|].
      rewrite <- Hindex. split; [apply lookup_insert_eq|].
      rewrite app_assoc, lookup_app_r by (rewrite length_app; lia).
      rewrite length_app.
      replace (Z.to_nat (index st + pos st')
               - (length (filelist_cache st) + length entered))%nat with 0%nat by lia.
      reflexivity.
Qed.

Lemma create_filelist_loop_recorded (files : list File.t) :
  forall (done : list File.t) (st : filelist_state),
    current_depth st = Z.of_nat (length (current_folder st)) ->
    0 <= pos st ->
    lines_recorded create_filelist_line done st ->
    exists st',
      create_filelist_loop create_filelist_line st files = Ret st' /\
      lines_recorded create_filelist_line (done ++ files) st'.
Proof.
  induction files as [|file rest IH]; intros done st Hdepth Hpos Hrec;
    cbn [create_filelist_loop].
  - exists st. now rewrite app_nil_r.
  - destruct (create_filelist_step_recorded done st file Hdepth Hpos Hrec)
      as (st1 & -> & Hdepth1 & Hpos1 & Hrec1).
    cbn [bind]. destruct (IH (done ++ [file]) st1 Hdepth1 Hpos1 Hrec1) as (st' & -> & Hrec').
    exists st'. split; [reflexivity|]. now rewrite <- app_assoc in Hrec'.
Qed.

(** X25: After the loop of create_filelist, filelist_cache_pos has one entry
    for each file; the row of file i is line i + filelist_cache_pos[i] of
    filelist_cache, and filelist_cache_pos_dict leads from that line back to
    i. *)
Theorem file_rows_are_found_by_their_index (sorted_files : list File.t) :
  exists st : filelist_state,
    create_filelist_loop create_filelist_line filelist_init sorted_files = Ret st /\
    lines_recorded create_filelist_line sorted_files st.
Proof.
  apply (create_filelist_loop_recorded sorted_files [] filelist_init).
  - reflexivity.
  - cbn. lia.
  - unfold lines_recorded. cbn.
    split; [reflexivity|]. split; [reflexivity|]. split; [reflexivity|].
    split; intros j ? H; rewrite lookup_nil in H; discriminate.
Qed.

(** X26: For a page of at least one line and a focused file, the window of
    lines that create_filelist returns lies within the file list, has
    min(page height, list length) lines, and contains the row of the focused
    file. *)
Theorem focused_file_is_in_the_window (sorted_files : list File.t)
  (detaillines_per_page : Z) (focus_detaillist : nat) (file : File.t) :
  1 <= detaillines_per_page ->
  sorted_files !! focus_detaillist = Some file ->
  exists (st : filelist_state) (first_line end_line line_to_show : Z),
    create_filelist_loop create_filelist_line filelist_init sorted_files = Ret st /\
    filelist_window detaillines_per_page (Z.of_nat focus_detaillist)
                    (filelist_cache st) (filelist_cache_pos st)
    = Ret (first_line, end_line, line_to_show) /\
    0 <= first_line <= line_to_show /\
    line_to_show < end_line <= Z.of_nat (length (filelist_cache st)) /\
    end_line - first_line
    = Z.min detaillines_per_page (Z.of_nat (length (filelist_cache st))) /\
    filelist_cache st !! Z.to_nat line_to_show
    = Some (file_row create_filelist_line (Z.of_nat focus_detaillist) file).
Proof.
  intros Hpage Hfile.
  destruct (create_filelist_loop_recorded sorted_files [] filelist_init)
    as (st & Hrun & _ & _ & _ & Hbound & Hlines).
  { reflexivity. }
  { cbn. lia. }
  { unfold lines_recorded. cbn.
    split; [reflexivity|]. split; [reflexivity|]. split; [reflexivity|].
    split; intros j ? H; rewrite lookup_nil in H; discriminate. }
  destruct (Hlines _ _ Hfile) as (p & Hp & _ & Hrow).
  pose proof (Hbound _ _ Hp) as Hp0.
  pose proof (lookup_lt_Some _ _ _ Hrow) as Hline.
  set (n := Z.of_nat (length (filelist_cache st))) in *.
  set (f := Z.of_nat focus_detaillist) in *.
  assert (Hhalf : 0 <= detaillines_per_page / 2 < detaillines_per_page).
  { split; [apply Z.div_pos; lia|apply Z.div_lt_upper_bound; lia]. }
  exists st. unfold filelist_window. fold n.
  destruct (Z.eqb_spec f (-1)) as [E|_]; [lia|].
  rewrite (getitemZ_nonneg _ f p) by (unfold f; rewrite ?Nat2Z.id; auto; lia).
  cbn [bind]. set (half := detaillines_per_page / 2) in *.
  destruct (Z.geb_spec (f + p) half);
    match goal with
    | |- context [?a >=? ?b + detaillines_per_page] =>
        destruct (Z.geb_spec a (b + detaillines_per_page))
    end;
    try destruct (Z.geb_spec n detaillines_per_page);
    eexists _, _, _; (split; [exact Hrun|]); (split; [reflexivity|]);
    repeat split; try exact Hrow; lia.
Qed.

End FilelistLinesFacts.

(** Two files in a folder, two lines to the page, the focus on the second
    file. *)
Lemma focused_file_is_in_the_window_witness :
  let line := fun (name : string) (_ : Z) (_ : Q) (_ _ : Z) => name in
  let a := {| File.name := "d/a"; File.length := 1; File.bytesCompleted := 0 |} in
  let b := {| File.name := "d/b"; File.length := 1; File.bytesCompleted := 1 |} in
  exists (st : filelist_state) (first_line end_line line_to_show : Z),
    create_filelist_loop line filelist_init [a; b] = Ret st /\
    filelist_window 2 (Z.of_nat 1) (filelist_cache st) (filelist_cache_pos st)
    = Ret (first_line, end_line, line_to_show) /\
    0 <= first_line <= line_to_show /\
    line_to_show < end_line <= Z.of_nat (length (filelist_cache st)) /\
    end_line - first_line = Z.min 2 (Z.of_nat (length (filelist_cache st))) /\
    filelist_cache st !! Z.to_nat line_to_show = Some (file_row line (Z.of_nat 1) b).
Proof.
  intros line a b.
  apply (focused_file_is_in_the_window line [a; b] 2 1 b).
  - lia.
  - reflexivity.
Defined.

(** ** A peer seen for the first time *)

(** X27: A peer that upgrade_peerlist sees for the first time gets a cache
    entry with its progress, a download speed of 0 and a time left of 0,
    whatever the clock returns; nothing is raised and no sample is added to
    the normalizer. *)
Theorem new_peer_starts_without_a_rate (time_time : nat -> Q) (hashString : string)
  (totalSize : Z) (st : estimator) (peer : Peer.t) :
  peer_progress_cache st !! (Peer.address peer ++ hashString)%string = None ->
  exists (st' : estimator) (e : PeerEntry.t),
    estimate_peer time_time hashString totalSize peer st = (st', Ret e) /\
    peer_progress_cache st' !! (Peer.address peer ++ hashString)%string = Some e /\
    PeerEntry.download_speed e = 0%Q /\
    PeerEntry.time_left e = 0%Q /\
    PeerEntry.last_progress e = Peer.progress peer /\
    norm_values st' = norm_values st.
Proof.
  intros Hnew.
  assert (Hdiff : gtb (Peer.progress peer - Peer.progress peer) 0 = false).
  { unfold gtb. apply negb_false_iff, Qle_bool_iff. lra. }
  unfold estimate_peer, this_peer, assign, read_clock, norm_add,
    Mut.bind, Mut.get, Mut.ret, Mut.lift, Mut.modify.
  cbn [peer_progress_cache norm_values clock_reads fst snd].
  rewrite Hnew. cbn [peer_progress_cache norm_values clock_reads fst snd].
  destruct (ltb (Peer.progress peer) 1).
  - unfold dict_get. cbn [peer_progress_cache norm_values clock_reads fst snd].
    rewrite !lookup_insert_eq. cbn [PeerEntry.last_progress PeerEntry.last_update].
    rewrite Hdiff, andb_false_r. cbn [andb].
    destruct (gtb _ 60); cbn [peer_progress_cache norm_values clock_reads fst snd];
      rewrite ?lookup_alter_eq, ?lookup_insert_eq; cbn;
      eexists _, _; (split; [reflexivity|]); cbn;
      rewrite ?lookup_alter_eq, ?lookup_insert_eq; cbn; auto 6.
  - unfold dict_get. cbn [peer_progress_cache norm_values clock_reads fst snd].
    rewrite !lookup_insert_eq.
    eexists _, _. split; [reflexivity|]. cbn. rewrite lookup_insert_eq. auto 6.
Qed.

(** A peer at half of the torrent, with an empty cache. *)
Lemma new_peer_starts_without_a_rate_witness :
  let st := {| peer_progress_cache := ∅; norm_values := ∅; clock_reads := 0 |} in
  let peer := {| Peer.address := "1.2.3.4"; Peer.progress := 1 # 2 |} in
  exists (st' : estimator) (e : PeerEntry.t),
    estimate_peer (fun n => inject_Z (Z.of_nat n)) "abc" 1000 peer st = (st', Ret e) /\
    peer_progress_cache st' !! ("1.2.3.4" ++ "abc")%string = Some e /\
    PeerEntry.download_speed e = 0%Q /\
    PeerEntry.time_left e = 0%Q /\
    PeerEntry.last_progress e = (1 # 2)%Q /\
    norm_values st' = ∅.
Proof.
  intros st peer.
  apply (new_peer_starts_without_a_rate (fun n => inject_Z (Z.of_nat n)) "abc" 1000 st peer).
  reflexivity.
Defined.

(** ** The status of a torrent in words *)

(** X28: With the status codes set up for protocol versions below 14, where
    a queued download has the code of a download and a queued seed that of a
    seed, get_status never reports 'will download' or 'will seed', in the
    wide and in the narrow form. *)
Theorem queued_states_need_protocol_14 (rpc_version : Z) (torrent : Torrent.t) :
  rpc_version < 14 ->
  get_status (Transmission.codes rpc_version) torrent false
  ∈ ["paused"; "verifying"; "will verify"; "isolated"; "idle"; "idle metadata";
     "downloading"; "downloading metadata"; "seeding"; "unknown state"]%string /\
  get_status (Transmission.codes rpc_version) torrent true
  ∈ ["P"; "V"; "wV"; "X"; "I"; "IM"; "D"; "DM"; "S"; "?"]%string.
Proof.
  unfold Transmission.codes.
  intros Hv. destruct (Z.ltb_spec rpc_version 14); [|lia].
  unfold get_status. cbn [Transmission.before_14 Transmission.STATUS_STOPPED
    Transmission.STATUS_CHECK Transmission.STATUS_CHECK_WAIT
    Transmission.STATUS_DOWNLOAD Transmission.STATUS_DOWNLOAD_WAIT
    Transmission.STATUS_SEED Transmission.STATUS_SEED_WAIT].
  split;
    repeat match goal with
           | |- context [Torrent.status torrent =? ?c] =>
               destruct (Z.eqb_spec (Torrent.status torrent) c)
           | |- context [if Torrent.isIsolated torrent then _ else _] =>
               destruct (Torrent.isIsolated torrent)
           | |- context [if ?b then _ else _] => destruct b
           end;
    try (exfalso; cbn in *; congruence);
    cbv [String.append];
    repeat first [apply list_elem_of_here | apply list_elem_of_further].
Qed.

(** A torrent with the code that versions below 14 send both for a
    download and for a queued download. *)
Lemma queued_states_need_protocol_14_witness :
  let torrent :=
    {| Torrent.id := 1; Torrent.name := "a"; Torrent.status := 4;
       Torrent.rateDownload := 0; Torrent.rateUpload := 0; Torrent.percentDone := 0;
       Torrent.isPrivate := false; Torrent.peersGettingFromUs := 0;
       Torrent.peersSendingToUs := 0; Torrent.isIsolated := false;
       Torrent.honorsSessionLimits := true; Torrent.mainTrackerDomain := None;
       Torrent.downloadDir := "/"; Torrent.labels := []; Torrent.group := "";
       Torrent.totalSize := 0; Torrent.sizeWhenDone := 0; Torrent.error := 0;
       Torrent.bandwidthPriority := 0; Torrent.queuePosition := 7;
       Torrent.metadataPercentComplete := 1; Torrent.trackerStats := [] |} in
  get_status (Transmission.codes 13) torrent false
  ∈ ["paused"; "verifying"; "will verify"; "isolated"; "idle"; "idle metadata";
     "downloading"; "downloading metadata"; "seeding"; "unknown state"]%string /\
  get_status (Transmission.codes 13) torrent true
  ∈ ["P"; "V"; "wV"; "X"; "I"; "IM"; "D"; "DM"; "S"; "?"]%string.
Proof.
  intros torrent. apply (queued_states_need_protocol_14 13 torrent). lia.
Defined.

(** ** A cycle of the poll *)

Section PollCycle.

Variable payload : Type.
Variable json_loads : list Byte.byte -> option (response payload).
Variable caches : Type.
Variable parse_response : response payload -> caches -> res (caches * Z).
Variable send : polled_request -> res polled_request.
Variables (lastexitcode : Z) (delay : Q) (tag_waiting_for : Z).

Local Abbreviation update_at now :=
  (update_request payload json_loads caches parse_response send lastexitcode now delay
                  tag_waiting_for).

(** X29: A due request whose reply is read to its end and decoded is closed
    and stamped with the time of the update; the caches change only through
    parse_response on a reply with result 'success'; and the closed request
    is sent again at its next due update. *)
Theorem decoded_reply_closes_the_request (now : Q) (request : polled_request)
  (stream rest : list read_event) (bytes : list Byte.byte) (data : response payload) :
  reads request = Some stream ->
  read_loop stream [] = Body bytes rest ->
  json_loads bytes = Some data ->
  Qle_bool delay (now - last_update request) = true ->
  result data <> "no open request"%string ->
  let closed := {| reads := None; last_update := now |} in
  (forall cache flag cache' tag,
      result data = "success"%string ->
      parse_response data cache = Ret (cache', tag) ->
      update_at now (cache, flag) request
      = Ret (closed, (cache', if tag =? tag_waiting_for then true else flag))) /\
  (forall st, result data <> "success"%string ->
              update_at now st request = Ret (closed, st)) /\
  (forall now' st,
      Qle_bool delay (now' - now) = true ->
      update_at now' st closed
      = let! sent := send {| reads := None; last_update := now' |} in Ret (sent, st)).
Proof.
  intros Hreads Hread Hjson Hdue Hopen closed.
  apply String.eqb_neq in Hopen.
  split; [|split].
  - intros cache flag cache' tag Hsuccess Hparse.
    unfold update_request, get_response. rewrite Hdue. cbn [reads last_update].
    rewrite Hreads, Hread, Hjson. cbn [bind]. rewrite Hopen.
    apply String.eqb_eq in Hsuccess. rewrite Hsuccess.
    cbn [fst snd]. rewrite Hparse. reflexivity.
  - intros st Hother. apply String.eqb_neq in Hother.
    unfold update_request, get_response. rewrite Hdue. cbn [reads last_update].
    rewrite Hreads, Hread, Hjson. cbn [bind]. now rewrite Hopen, Hother.
  - intros now' st Hdue'.
    unfold update_request, get_response. cbn [reads last_update closed].
    rewrite Hdue'. cbn [reads last_update bind]. reflexivity.
Qed.

End PollCycle.

(** A reply of one chunk, read ten seconds after the request was sent. *)
Lemma decoded_reply_closes_the_request_witness :
  let request := {| reads := Some [Chunk [Byte.x7b]]; last_update := 0 |} in
  let data : response unit := {| result := "success"; tag := Some 7; arguments := None |} in
  let parse_response := fun (_ : response unit) (cache : nat) => Ret (S cache, 7) in
  let send := fun r : polled_request => Ret r in
  let update_at := update_request unit loads_nonempty nat parse_response send (-1) in
  let closed := {| reads := None; last_update := 10 |} in
  (forall cache flag cache' tag,
      result data = "success"%string ->
      parse_response data cache = Ret (cache', tag) ->
      update_at 10%Q 1%Q 7 (cache, flag) request
      = Ret (closed, (cache', if tag =? 7 then true else flag))) /\
  (forall st, result data <> "success"%string ->
              update_at 10%Q 1%Q 7 st request = Ret (closed, st)) /\
  (forall now' st,
      Qle_bool 1 (now' - 10) = true ->
      update_at now' 1%Q 7 st closed
      = let! sent := send {| reads := None; last_update := now' |} in Ret (sent, st)).
Proof.
  intros request data parse_response send update_at closed.
  apply (decoded_reply_closes_the_request unit loads_nonempty nat parse_response send
           (-1) 1 7 10 request [Chunk [Byte.x7b]] [] [Byte.x7b] data).
  - reflexivity.
  - reflexivity.
  - reflexivity.
  - reflexivity.
  - discriminate.
Defined.

(** ** Thousands separators *)

Lemma decimal_loop_fuel (fuel : nat) :
  forall (n : Z) (fuel' : nat),
    (1 <= fuel)%nat -> (1 <= fuel')%nat ->
    0 <= n < 2 ^ Z.of_nat fuel -> n < 2 ^ Z.of_nat fuel' ->
    decimal_loop fuel n = decimal_loop fuel' n.
Proof.
  induction fuel as [|fuel IH]; intros n fuel' Hf Hf' Hn Hn'; [lia|].
  destruct fuel' as [|fuel']; [lia|]. cbn [decimal_loop].
  destruct (Z.ltb_spec n 10) as [Hlt|Hge]; [reflexivity|].
  rewrite Nat2Z.inj_succ, Z.pow_succ_r in Hn, Hn' by lia.
  assert (Hq : 0 <= n / 10 < n / 2 + 1).
  { split; [apply Z.div_pos; lia|].
    pose proof (Z.div_le_compat_l n 2 10 ltac:(lia) ltac:(lia)). lia. }
  assert (Hh : n / 2 < 2 ^ Z.of_nat fuel /\ n / 2 < 2 ^ Z.of_nat fuel').
  { split; apply Z.div_lt_upper_bound; lia. }
  assert (H1 : (1 <= fuel)%nat).
  { destruct fuel; [cbn in Hn; lia|lia]. }
  assert (H1' : (1 <= fuel')%nat).
  { destruct fuel'; [cbn in Hn'; lia|lia]. }
  rewrite (IH (n / 10) fuel') by (auto; lia). reflexivity.
Qed.

Lemma decimal_small (n : Z) :
  0 <= n < 10 -> decimal n = String (digit n) EmptyString.
Proof.
  intros Hn. unfold decimal. cbn [decimal_loop].
  destruct (Z.ltb_spec n 10); [reflexivity|lia].
Qed.

Lemma decimal_step (n : Z) :
  10 <= n -> decimal n = (decimal (n / 10) ++ String (digit (n mod 10)) EmptyString)%string.
Proof.
  intros Hn. unfold decimal at 1. cbn [decimal_loop].
  destruct (Z.ltb_spec n 10); [lia|]. f_equal.
  assert (Hq : 1 <= n / 10) by (apply Z.div_le_lower_bound; lia).
  pose proof (Z.log2_spec n ltac:(lia)) as [Hlo Hhi].
  pose proof (Z.log2_spec (n / 10) ltac:(lia)) as [Hlo' Hhi'].
  assert (H3 : 3 <= Z.log2 n) by (apply Z.log2_le_pow2; lia).
  unfold decimal. apply decimal_loop_fuel; try lia.
  - rewrite Z2Nat.id by lia. split; [lia|].
    apply Z.div_lt_upper_bound; [lia|].
    rewrite Z.pow_succ_r in Hhi by lia. lia.
  - rewrite Nat2Z.inj_succ, Z2Nat.id by apply Z.log2_nonneg. exact Hhi'.
Qed.

Lemma decimal_thousands (n : Z) :
  1000 <= n ->
  decimal n = (decimal (n / 1000) ++ fixed_digits 3 (n mod 1000))%string.
Proof.
  intros Hn.
  assert (H10 : 100 <= n / 10) by (apply Z.div_le_lower_bound; lia).
  assert (H100 : 10 <= n / 10 / 10) by (apply Z.div_le_lower_bound; lia).
  rewrite (decimal_step n), (decimal_step (n / 10)), (decimal_step (n / 10 / 10)) by lia.
  cbn [fixed_digits]. rewrite append_nil, !string_app_assoc. string_app.
  rewrite !Z.div_div by lia. change (10 * 10) with 100. change (100 * 10) with 1000.
  pose proof (Z.div_mod n 1000 ltac:(lia)) as E.
  pose proof (Z.mod_pos_bound n 1000 ltac:(lia)) as Hr.
  set (q := n / 1000) in *. set (r := n mod 1000) in *.
  assert (E0 : n mod 10 = r mod 10).
  { rewrite E. replace (1000 * q + r) with (r + (100 * q) * 10) by lia.
    now rewrite Z.mod_add by lia. }
  assert (E1 : n / 10 mod 10 = r / 10 mod 10).
  { rewrite E. replace (1000 * q + r) with (r + (100 * q) * 10) by lia.
    rewrite Z.div_add by lia.
    replace (r / 10 + 100 * q) with (r / 10 + (10 * q) * 10) by lia.
    now rewrite Z.mod_add by lia. }
  assert (E2 : n / 100 mod 10 = r / 100 mod 10).
  { rewrite E. replace (1000 * q + r) with (r + (10 * q) * 100) by lia.
    rewrite Z.div_add by lia.
    replace (r / 100 + 10 * q) with (r / 100 + q * 10) by lia.
    now rewrite Z.mod_add by lia. }
  now rewrite E0, E1, E2.
Qed.

Lemma string_rev_app (a b : string) :
  string_rev (a ++ b) = (string_rev b ++ string_rev a)%string.
Proof.
  induction a as [|x a IH]; string_app; cbn [string_rev].
  - clear. induction (string_rev b) as [|y s IHs]; string_app; [reflexivity|now f_equal].
  - now rewrite IH, string_app_assoc.
Qed.

Lemma lstrip_app (c : ascii) (a b : string) :
  lstrip c a <> EmptyString -> lstrip c (a ++ b) = (lstrip c a ++ b)%string.
Proof.
  induction a as [|x a IH]; cbn [lstrip]; [contradiction|]. string_app. cbn [lstrip].
  destruct (Ascii.eqb x c); [exact IH|]. intros _. now string_app.
Qed.

Lemma digit_is_digit (d : Z) :
  0 <= d < 10 -> is_digit (digit d) = true /\ Ascii.eqb (digit d) "," = false.
Proof.
  intros Hd.
  assert (Ed : d = 0 \/ d = 1 \/ d = 2 \/ d = 3 \/ d = 4 \/ d = 5 \/ d = 6 \/ d = 7
               \/ d = 8 \/ d = 9) by lia.
  repeat (destruct Ed as [->|Ed]); try subst d; split; reflexivity.
Qed.

(** The digits with a comma behind every third from the right, before
    the commas in front are stripped. *)
Local Abbreviation separated m := (string_rev (sub_3digits (string_rev (decimal m)))).

Ltac string_norm := repeat first [rewrite append_cons | rewrite append_nil].
Ltac separate := repeat (cbn [string_rev sub_3digits lstrip andb]; string_norm).

Lemma separated_thousands (m : Z) :
  1000 <= m ->
  separated m = (separated (m / 1000) ++ "," ++ fixed_digits 3 (m mod 1000))%string.
Proof.
  intros Hm. rewrite (decimal_thousands m Hm) at 1.
  pose proof (Z.mod_pos_bound m 1000 ltac:(lia)) as Hr.
  set (r := m mod 1000) in *. cbn [fixed_digits]. string_norm.
  destruct (digit_is_digit (r mod 10) ltac:(apply Z.mod_pos_bound; lia)) as [D0 _].
  destruct (digit_is_digit (r / 10 mod 10) ltac:(apply Z.mod_pos_bound; lia)) as [D1 _].
  destruct (digit_is_digit (r / 10 / 10 mod 10) ltac:(apply Z.mod_pos_bound; lia))
    as [D2 _].
  rewrite string_rev_app. cbn [string_rev]. string_norm.
  cbn [sub_3digits]. rewrite D0, D1, D2. cbn [andb string_rev].
  rewrite !string_app_assoc. now string_norm.
Qed.

Lemma separated_small (m : Z) :
  1 <= m <= 999 -> lstrip "," (separated m) = decimal m.
Proof.
  intros Hm.
  destruct (Z.lt_ge_cases m 10) as [H10|H10].
  { rewrite decimal_small by lia.
    destruct (digit_is_digit m ltac:(lia)) as [_ C].
    separate. now rewrite C. }
  assert (Hq : 1 <= m / 10 <= 99).
  { split; [apply Z.div_le_lower_bound; lia|].
    apply Z.lt_succ_r, Z.div_lt_upper_bound; lia. }
  rewrite (decimal_step m) by lia.
  destruct (digit_is_digit (m mod 10) ltac:(apply Z.mod_pos_bound; lia)) as [D0 _].
  destruct (Z.lt_ge_cases (m / 10) 10) as [H100|H100].
  { rewrite decimal_small by lia.
    destruct (digit_is_digit (m / 10) ltac:(lia)) as [_ C].
    separate. now rewrite C. }
  assert (Hq' : 1 <= m / 10 / 10 < 10).
  { split; [apply Z.div_le_lower_bound; lia|apply Z.div_lt_upper_bound; lia]. }
  rewrite (decimal_step (m / 10)), (decimal_small (m / 10 / 10)) by lia.
  destruct (digit_is_digit (m / 10 mod 10) ltac:(apply Z.mod_pos_bound; lia)) as [D1 _].
  destruct (digit_is_digit (m / 10 / 10) ltac:(lia)) as [D2 C].
  separate. rewrite D0, D1, D2. separate.
  change (Ascii.eqb "," ",") with true. cbn match. now rewrite C.
Qed.

Lemma decimal_nonempty (m : Z) : 0 <= m -> decimal m <> EmptyString.
Proof.
  intros Hm. destruct (Z.lt_ge_cases m 10).
  - rewrite decimal_small by lia. discriminate.
  - rewrite decimal_step by lia. destruct (decimal (m / 10)); discriminate.
Qed.

Lemma separated_strip (m : Z) :
  1 <= m ->
  lstrip "," (separated m) <> EmptyString /\
  (1000 <= m ->
   lstrip "," (separated m)
   = (lstrip "," (separated (m / 1000)) ++ "," ++ fixed_digits 3 (m mod 1000))%string).
Proof.
  intros Hm. remember (Z.to_nat m) as k eqn:Ek. revert m Hm Ek.
  induction k as [k IH] using lt_wf_ind. intros m Hm ->.
  destruct (Z.lt_ge_cases m 1000) as [Hsmall|Hbig].
  - split; [|lia]. rewrite separated_small by lia. apply decimal_nonempty. lia.
  - assert (Hq : 1 <= m / 1000 < m).
    { split; [apply Z.div_le_lower_bound; lia|apply Z.div_lt_upper_bound; lia]. }
    destruct (IH (Z.to_nat (m / 1000)) ltac:(lia) (m / 1000) ltac:(lia) eq_refl)
      as [Hne _].
    assert (E : lstrip "," (separated m)
                = (lstrip "," (separated (m / 1000)) ++ ","
                   ++ fixed_digits 3 (m mod 1000))%string).
    { rewrite (separated_thousands m Hbig) at 1. now apply lstrip_app. }
    split; [|intros _; exact E]. rewrite E.
    destruct (lstrip "," (separated (m / 1000))); [contradiction|discriminate].
Qed.

Lemma num2str_separated (m : Z) :
  1 <= m -> num2str m = lstrip "," (separated m).
Proof.
  intros Hm. unfold num2str, str_int.
  destruct (Z.eqb_spec m (-1)); [lia|]. destruct (Z.eqb_spec m (-2)); [lia|].
  destruct (Z.ltb_spec m 0); [lia|].
  destruct (Z.gtb_spec m 999); [reflexivity|]. now rewrite separated_small by lia.
Qed.

(** X30: For an integer of at least 1000 and the default format, num2str is
    num2str of the number without its last three digits, a comma, and those
    three digits. *)
Theorem num2str_separates_thousands (num : Z) :
  1000 <= num ->
  num2str num = (num2str (num / 1000) ++ "," ++ fixed_digits 3 (num mod 1000))%string.
Proof.
  intros Hnum.
  assert (Hq : 1 <= num / 1000) by (apply Z.div_le_lower_bound; lia).
  rewrite (num2str_separated num), (num2str_separated (num / 1000)) by lia.
  apply separated_strip; lia.
Qed.

(** A number of seven digits. *)
Lemma num2str_separates_thousands_witness :
  num2str 1234567
  = (num2str (1234567 / 1000) ++ "," ++ fixed_digits 3 (1234567 mod 1000))%string.
Proof.
  apply (num2str_separates_thousands 1234567). lia.
Defined.
